(** * Accuracy / difficulty roll data of the Lancer system

    A shallow embedding of [src/module/helpers/acc_diff/index.ts]: the three
    entities (weapon, base, target), the aggregate [AccDiffData], their io-ts
    codecs, the plugin registry, the factory [fromParams], the derived
    totals and the view model of the form.

    JavaScript objects that are shared and mutated in place (the entities, the
    tokens of the scene) live in a store and are named by references.  Numbers
    are the doubles of JavaScript, with their arithmetic ([PrimFloat]).

    The program comes first, then the vocabulary of the statements and the
    examples, then the lemmas, and last the properties of the roll data and
    their instances on the examples: those of the specification (C1 to C10),
    then those read off the code (X1 to X6, X8 to X16). *)

From Stdlib Require Import PrimFloat Lia.
From stdpp Require Import base list strings pretty.

Set Warnings "-register-all".

(** ** References, cover, the aggregate *)

Definition ref := nat.

(** A JavaScript number: an IEEE 754 double.  [+], [-] and [===] on numbers
    are [PrimFloat.add], [PrimFloat.sub] and [PrimFloat.eqb]. *)
Definition number := float.
Bind Scope float_scope with number.

(** [enum Cover { None = 0, Soft = 1, Hard = 2 }] *)
Module Cover.

Inductive t := None | Soft | Hard.

Definition value (c : t) : number :=
  match c with
  | None => 0
  | Soft => 1
  | Hard => 2
  end.

End Cover.

(** [class AccDiffData]: its three entity fields hold references. *)
Record AccDiffData := mkData {
  title : string;
  weapon : ref;
  base : ref;
  targets : list ref
}.

(** The second argument of a plugin's [hydrate(d, holder?)]. *)
Inductive Holder :=
| OfBase (b : ref)
| OfTarget (t : ref).

(** The types the module imports and never inspects: the data instances of
    the plugins (interface [AccDiffPluginData], whose one method is
    [hydrate]) and [LancerItem].  The [hydrate] of a data instance is taken
    to update the instance, [pluginHydrate d holder x] being the instance
    afterwards; what the code of a plugin may do besides to the entities it
    is handed is no part of this module. *)
Class PluginHost := {
  PluginData : Type;
  LancerItem : Type;
  pluginHydrate : AccDiffData -> option Holder -> PluginData -> PluginData
}.

(** Assignments to the private back-references, and the calls of the three
    [hydrate] methods, are logged in the store. *)
Inductive Event :=
| HydrateWeapon (w : ref)
| HydrateBase (b : ref)
| HydrateTarget (t : ref)
| SetBaseWeapon (b w : ref)
| SetTargetWeapon (t w : ref)
| SetTargetBase (t b : ref).

(** [ActiveEffect]: "this is all we need here".  Of an effect the getters
    read [data.flags.core.statusId] and nothing else.  [flags_core] is
    [None] for an effect whose [data.flags] has no [core] (or which has no
    [data.flags]): reading its [statusId] is reading a member of
    [undefined].  Under [core] the [statusId] may be missing; it is only
    ever compared with ["lockon"], so a string stands for whatever it is. *)
Record Effect := mkEffect { flags_core : option (option string) }.

(** [token.actor]: [actor.data.effects], in the order of the collection. *)
Record Actor := mkActor { actor_effects : list Effect }.

(** A token of the canvas.  Its [actor] is [null] when the token has none. *)
Record Token := mkToken {
  token_id : string;
  token_actor : option Actor
}.

(** Paths of failed validations, as io-ts reports them. *)
Definition Path := list string.
Definition Errors := list Path.
Definition Validation (A : Type) := (Errors + A)%type.

Inductive Error :=
| ValidationError (errors : Errors)
| TokenNotFound
| TypeError
| Dangling.

Inductive Result (A : Type) :=
| Ok (a : A)
| Throw (e : Error).
Arguments Ok {A} a.
Arguments Throw {A} e.

Section Model.
Context {host : PluginHost}.

(** ** JavaScript values *)

(** Plain values, and the data instances of the plugins ([VData]).  An
    object is the list of its own properties in the order of their keys. *)
Inductive value :=
| VUndefined
| VNull
| VBool (b : bool)
| VNum (n : number)
| VStr (s : string)
| VArr (l : list value)
| VObj (o : list (string * value))
| VData (d : PluginData).

Definition object := list (string * value).

Fixpoint get (k : string) (o : object) : option value :=
  match o with
  | [] => None
  | (k', v) :: o' => if String.eqb k k' then Some v else get k o'
  end.

(** [o[k]] *)
Definition prop (k : string) (o : object) : value :=
  default VUndefined (get k o).

(** [o[k] = v] *)
Fixpoint set (k : string) (v : value) (o : object) : object :=
  match o with
  | [] => [(k, v)]
  | (k', v') :: o' =>
      if String.eqb k k' then (k, v) :: o' else (k', v') :: set k v o'
  end.

(** [Object.keys(o)] *)
Definition keys (o : object) : list string := o.*1.

(** ** Entities *)

(** [AccDiffPluginCodec]: the codec of the data of a plugin.  Of a rejection
    only the path of the key it is registered under is kept. *)
Record PluginCodec := mkCodec {
  plugin_validate : value -> option PluginData;
  plugin_encode : PluginData -> value
}.

(** A static [pluginSchema]: an object from slugs to codecs, in the order
    the keys were first assigned. *)
Definition PluginSchema := list (string * PluginCodec).

Fixpoint schemaGet (k : string) (s : PluginSchema) : option PluginCodec :=
  match s with
  | [] => None
  | (k', c) :: s' => if String.eqb k k' then Some c else schemaGet k s'
  end.

(** [pluginSchema[k] = c] *)
Fixpoint schemaSet (k : string) (c : PluginCodec) (s : PluginSchema) : PluginSchema :=
  match s with
  | [] => [(k, c)]
  | (k', c') :: s' =>
      if String.eqb k k' then (k, c) :: s' else (k', c') :: schemaSet k c s'
  end.

Record AccDiffWeapon := mkWeapon {
  accurate : bool;
  inaccurate : bool;
  seeking : bool;
  weapon_plugins : object
}.

(** The validated shape the constructor of [AccDiffBase] receives.  A
    [Cover] is, at run time, the number the union of literals let through. *)
Record BaseRaw := mkBaseRaw {
  raw_accuracy : number;
  raw_difficulty : number;
  raw_cover : number;
  raw_plugins : object
}.

Record AccDiffBase := mkBase {
  base_accuracy : number;
  base_difficulty : number;
  base_cover : number;
  base_plugins : object;
  base_weapon : option ref (* #weapon *)
}.

(** The validated shape the constructor of [AccDiffTarget] receives. *)
Record TargetRaw := mkTargetRaw {
  raw_target_id : string;
  raw_target_accuracy : number;
  raw_target_difficulty : number;
  raw_target_cover : number;
  raw_consumeLockOn : bool;
  raw_target_plugins : object
}.

Record AccDiffTarget := mkTarget {
  target : ref;
  target_accuracy : number;
  target_difficulty : number;
  target_cover : number;
  consumeLockOn : bool;
  target_plugins : object;
  target_weapon : option ref; (* #weapon *)
  target_base : option ref (* #base *)
}.

(** [AccDiffPlugin]: a slug, a codec and up to three default producers. *)
Record AccDiffPlugin := mkPlugin {
  slug : string;
  codec : PluginCodec;
  perRoll : option (option LancerItem -> PluginData);
  perUnknownTarget : option (unit -> PluginData);
  perTarget : option (Token -> PluginData)
}.

(** ** The store *)

Record World := mkWorld {
  weaponHeap : list AccDiffWeapon;
  baseHeap : list AccDiffBase;
  targetHeap : list AccDiffTarget;
  tokenHeap : list Token;
  (** [canvas.scene.tokens] *)
  sceneTokens : list ref;
  (** [ui.notifications.error] *)
  notifications : list string;
  events : list Event;
  (** the static fields *)
  Weapon_pluginSchema : PluginSchema;
  Base_pluginSchema : PluginSchema;
  Target_pluginSchema : PluginSchema;
  Data_plugins : list AccDiffPlugin;
  Data_targetedPlugins : list AccDiffPlugin
}.

Definition M (A : Type) := World -> Result A * World.

Definition ret {A} (a : A) : M A := fun w => (Ok a, w).

Definition bind {A B} (m : M A) (k : A -> M B) : M B :=
  fun w =>
    match m w with
    | (Ok a, w') => k a w'
    | (Throw e, w') => (Throw e, w')
    end.

Definition throw {A} (e : Error) : M A := fun w => (Throw e, w).

Definition gets {A} (f : World -> A) : M A := fun w => (Ok (f w), w).

Definition modify (f : World -> World) : M unit := fun w => (Ok tt, f w).

End Model.

Notation "x <- m ;; k" := (bind m (fun x => k))
  (at level 100, m at next level, right associativity).
Notation "m ;;; k" := (bind m (fun _ => k))
  (at level 100, right associativity).

Section Store.
Context {host : PluginHost}.

Definition with_weaponHeap (h : list AccDiffWeapon) (w : World) : World :=
  mkWorld h (baseHeap w) (targetHeap w) (tokenHeap w) (sceneTokens w)
    (notifications w) (events w) (Weapon_pluginSchema w) (Base_pluginSchema w)
    (Target_pluginSchema w) (Data_plugins w) (Data_targetedPlugins w).

Definition with_baseHeap (h : list AccDiffBase) (w : World) : World :=
  mkWorld (weaponHeap w) h (targetHeap w) (tokenHeap w) (sceneTokens w)
    (notifications w) (events w) (Weapon_pluginSchema w) (Base_pluginSchema w)
    (Target_pluginSchema w) (Data_plugins w) (Data_targetedPlugins w).

Definition with_targetHeap (h : list AccDiffTarget) (w : World) : World :=
  mkWorld (weaponHeap w) (baseHeap w) h (tokenHeap w) (sceneTokens w)
    (notifications w) (events w) (Weapon_pluginSchema w) (Base_pluginSchema w)
    (Target_pluginSchema w) (Data_plugins w) (Data_targetedPlugins w).

Definition with_notifications (n : list string) (w : World) : World :=
  mkWorld (weaponHeap w) (baseHeap w) (targetHeap w) (tokenHeap w) (sceneTokens w)
    n (events w) (Weapon_pluginSchema w) (Base_pluginSchema w)
    (Target_pluginSchema w) (Data_plugins w) (Data_targetedPlugins w).

Definition with_events (e : list Event) (w : World) : World :=
  mkWorld (weaponHeap w) (baseHeap w) (targetHeap w) (tokenHeap w) (sceneTokens w)
    (notifications w) e (Weapon_pluginSchema w) (Base_pluginSchema w)
    (Target_pluginSchema w) (Data_plugins w) (Data_targetedPlugins w).

Definition with_Weapon_pluginSchema (s : PluginSchema) (w : World) : World :=
  mkWorld (weaponHeap w) (baseHeap w) (targetHeap w) (tokenHeap w) (sceneTokens w)
    (notifications w) (events w) s (Base_pluginSchema w)
    (Target_pluginSchema w) (Data_plugins w) (Data_targetedPlugins w).

Definition with_Base_pluginSchema (s : PluginSchema) (w : World) : World :=
  mkWorld (weaponHeap w) (baseHeap w) (targetHeap w) (tokenHeap w) (sceneTokens w)
    (notifications w) (events w) (Weapon_pluginSchema w) s
    (Target_pluginSchema w) (Data_plugins w) (Data_targetedPlugins w).

Definition with_Target_pluginSchema (s : PluginSchema) (w : World) : World :=
  mkWorld (weaponHeap w) (baseHeap w) (targetHeap w) (tokenHeap w) (sceneTokens w)
    (notifications w) (events w) (Weapon_pluginSchema w) (Base_pluginSchema w)
    s (Data_plugins w) (Data_targetedPlugins w).

Definition with_Data_plugins (l : list AccDiffPlugin) (w : World) : World :=
  mkWorld (weaponHeap w) (baseHeap w) (targetHeap w) (tokenHeap w) (sceneTokens w)
    (notifications w) (events w) (Weapon_pluginSchema w) (Base_pluginSchema w)
    (Target_pluginSchema w) l (Data_targetedPlugins w).

Definition with_Data_targetedPlugins (l : list AccDiffPlugin) (w : World) : World :=
  mkWorld (weaponHeap w) (baseHeap w) (targetHeap w) (tokenHeap w) (sceneTokens w)
    (notifications w) (events w) (Weapon_pluginSchema w) (Base_pluginSchema w)
    (Target_pluginSchema w) (Data_plugins w) l.

(** Reading through a reference.  A reference outside its heap has no
    JavaScript counterpart; it is reported as [Dangling]. *)
Definition deref {A} (heap : World -> list A) (r : ref) : M A :=
  fun w =>
    match heap w !! r with
    | Some x => (Ok x, w)
    | None => (Throw Dangling, w)
    end.

Definition readWeapon : ref -> M AccDiffWeapon := deref weaponHeap.
Definition readBase : ref -> M AccDiffBase := deref baseHeap.
Definition readTarget : ref -> M AccDiffTarget := deref targetHeap.
Definition readToken : ref -> M Token := deref tokenHeap.

Definition writeWeapon (r : ref) (x : AccDiffWeapon) : M unit :=
  modify (fun w => with_weaponHeap (<[r := x]> (weaponHeap w)) w).

Definition writeBase (r : ref) (x : AccDiffBase) : M unit :=
  modify (fun w => with_baseHeap (<[r := x]> (baseHeap w)) w).

Definition writeTarget (r : ref) (x : AccDiffTarget) : M unit :=
  modify (fun w => with_targetHeap (<[r := x]> (targetHeap w)) w).

Definition log (e : Event) : M unit :=
  modify (fun w => with_events (events w ++ [e]) w).

(** Reading a member of a private field that [hydrate] has not set yet is
    reading a member of [undefined]. *)
Definition private (field : option ref) : M ref :=
  match field with
  | Some r => ret r
  | None => throw TypeError
  end.

(** [for (let x of l) body(x)] *)
Fixpoint forEach {A} (l : list A) (body : A -> M unit) : M unit :=
  match l with
  | [] => ret tt
  | x :: l' => body x ;;; forEach l' body
  end.

(** ** Hydration *)

(** [for (let key of Object.keys(this.plugins)) this.plugins[key].hydrate(d, holder)].
    A slot that holds no plugin data has no [hydrate] method; the slots
    visited before it stay hydrated. *)
Fixpoint hydratePlugins (d : AccDiffData) (h : option Holder)
    (ks : list string) (o : object) : Result unit * object :=
  match ks with
  | [] => (Ok tt, o)
  | k :: ks' =>
      match prop k o with
      | VData x => hydratePlugins d h ks' (set k (VData (pluginHydrate d h x)) o)
      | _ => (Throw TypeError, o)
      end
  end.

Definition liftResult {A} (r : Result A) : M A :=
  match r with
  | Ok a => ret a
  | Throw e => throw e
  end.

Definition AccDiffWeapon_hydrate (this : ref) (d : AccDiffData) : M unit :=
  log (HydrateWeapon this) ;;;
  x <- readWeapon this ;;
  let '(r, o) := hydratePlugins d None (keys (weapon_plugins x)) (weapon_plugins x) in
  writeWeapon this (mkWeapon (accurate x) (inaccurate x) (seeking x) o) ;;;
  liftResult r.

Definition AccDiffBase_hydrate (this : ref) (d : AccDiffData) : M unit :=
  log (HydrateBase this) ;;;
  x <- readBase this ;;
  writeBase this (mkBase (base_accuracy x) (base_difficulty x) (base_cover x)
                    (base_plugins x) (Some (weapon d))) ;;;
  log (SetBaseWeapon this (weapon d)) ;;;
  let '(r, o) := hydratePlugins d (Some (OfBase this))
                   (keys (base_plugins x)) (base_plugins x) in
  writeBase this (mkBase (base_accuracy x) (base_difficulty x) (base_cover x)
                    o (Some (weapon d))) ;;;
  liftResult r.

Definition AccDiffTarget_hydrate (this : ref) (d : AccDiffData) : M unit :=
  log (HydrateTarget this) ;;;
  x <- readTarget this ;;
  writeTarget this (mkTarget (target x) (target_accuracy x) (target_difficulty x)
                      (target_cover x) (consumeLockOn x) (target_plugins x)
                      (Some (weapon d)) (target_base x)) ;;;
  log (SetTargetWeapon this (weapon d)) ;;;
  writeTarget this (mkTarget (target x) (target_accuracy x) (target_difficulty x)
                      (target_cover x) (consumeLockOn x) (target_plugins x)
                      (Some (weapon d)) (Some (base d))) ;;;
  log (SetTargetBase this (base d)) ;;;
  let '(r, o) := hydratePlugins d (Some (OfTarget this))
                   (keys (target_plugins x)) (target_plugins x) in
  writeTarget this (mkTarget (target x) (target_accuracy x) (target_difficulty x)
                      (target_cover x) (consumeLockOn x) o
                      (Some (weapon d)) (Some (base d))) ;;;
  liftResult r.

(** ** Totals *)

Definition flag (b : bool) : number := if b then 1 else 0.

(** [get total()] of [AccDiffBase] *)
Definition AccDiffBase_total (this : ref) : M number :=
  x <- readBase this ;;
  w1 <- (r <- private (base_weapon x) ;; readWeapon r) ;;
  w2 <- (r <- private (base_weapon x) ;; readWeapon r) ;;
  w3 <- (r <- private (base_weapon x) ;; readWeapon r) ;;
  ret (base_accuracy x - base_difficulty x
       + flag (accurate w1)
       - flag (inaccurate w2)
       - (if seeking w3 then 0 else base_cover x))%float.

(** [eff.data.flags.core.statusId == "lockon"] *)
Definition isLockOn (eff : Effect) : Result bool :=
  match flags_core eff with
  | Some (Some statusId) => Ok (String.eqb statusId "lockon")
  | Some None => Ok false
  | None => Throw TypeError
  end.

(** [effects.find(eff => ...)]: the predicate runs on the effects in turn,
    up to the first it holds of. *)
Fixpoint findLockOn (effects : list Effect) : Result (option Effect) :=
  match effects with
  | [] => Ok None
  | eff :: rest =>
      match isLockOn eff with
      | Ok true => Ok (Some eff)
      | Ok false => findLockOn rest
      | Throw e => Throw e
      end
  end.

(** [get lockOnAvailable()] *)
Definition AccDiffTarget_lockOnAvailable (this : ref) : M (option Effect) :=
  x <- readTarget this ;;
  token <- readToken (target x) ;;
  match token_actor token with
  | Some actor => liftResult (findLockOn (actor_effects actor))
  | None => throw TypeError
  end.

(** [get usingLockOn()] *)
Definition AccDiffTarget_usingLockOn (this : ref) : M (option Effect) :=
  x <- readTarget this ;;
  if consumeLockOn x then AccDiffTarget_lockOnAvailable this else ret None.

(** [get total()] of [AccDiffTarget] *)
Definition AccDiffTarget_total (this : ref) : M number :=
  x <- readTarget this ;;
  w1 <- (r <- private (target_weapon x) ;; readWeapon r) ;;
  w2 <- (r <- private (target_weapon x) ;; readWeapon r) ;;
  w3 <- (r <- private (target_weapon x) ;; readWeapon r) ;;
  let base := (target_accuracy x - target_difficulty x
               + flag (accurate w1)
               - flag (inaccurate w2)
               - (if seeking w3 then 0 else target_cover x))%float in
  b1 <- (r <- private (target_base x) ;; readBase r) ;;
  b2 <- (r <- private (target_base x) ;; readBase r) ;;
  let raw := (base + base_accuracy b1 - base_difficulty b2)%float in
  u <- AccDiffTarget_usingLockOn this ;;
  let lockon : number := (if u is Some _ then 1 else 0)%float in
  ret (raw + lockon)%float.

End Store.

(** ** io-ts *)

Section Codecs.
Context {host : PluginHost}.

(** A codec ([t.Type]): a validation, which reports the paths it rejects,
    and an encoder.  Those built by [enclass] run a constructor, hence [M].
    [unknownKeys] lists the paths of the keys of a value that the props of
    the codec do not declare: [t.type] keeps its [props], and validates
    without looking at the other keys. *)
Record Codec (A : Type) := mkType {
  validate : value -> Path -> M (Validation A);
  encodeWith : A -> M value;
  unknownKeys : value -> Path -> Errors
}.
Arguments mkType {A} _ _ _.
Arguments validate {A} _ _ _.
Arguments encodeWith {A} _ _.
Arguments unknownKeys {A} _ _ _.

(** The paths of the own keys of [o] that are not among [declared]. *)
Definition undeclared (declared : list string) (o : object) (c : Path) : Errors :=
  List.map (fun k => c ++ [k])
    (List.filter (fun k => negb (existsb (String.eqb k) declared)) (keys o)).

(** Errors of the properties of a [t.type] accumulate in key order. *)
Definition ap {A B} (f : Validation (A -> B)) (x : Validation A) : Validation B :=
  match f, x with
  | inr f, inr x => inr (f x)
  | inl e, inr _ => inl e
  | inr _, inl e => inl e
  | inl e1, inl e2 => inl (e1 ++ e2)
  end.

Definition t_boolean (u : value) (c : Path) : Validation bool :=
  match u with
  | VBool b => inr b
  | _ => inl [c]
  end.

Definition t_number (u : value) (c : Path) : Validation number :=
  match u with
  | VNum n => inr n
  | _ => inl [c]
  end.

Definition t_string (u : value) (c : Path) : Validation string :=
  match u with
  | VStr s => inr s
  | _ => inl [c]
  end.

(** [t.literal(k)] accepts what is [=== k]. *)
Definition isLiteral (k : number) (u : value) : bool :=
  match u with
  | VNum n => (n =? k)%float
  | _ => false
  end.

(** [t.union([t.literal(0), t.literal(1), t.literal(2)])]: the first member
    that accepts the value returns it as it is; otherwise every member
    reports under its index. *)
Definition coverSchema (u : value) (c : Path) : Validation number :=
  match u with
  | VNum n =>
      if isLiteral 0 u || isLiteral 1 u || isLiteral 2 u then inr n
      else inl [c ++ ["0"]; c ++ ["1"]; c ++ ["2"]]
  | _ => inl [c ++ ["0"]; c ++ ["1"]; c ++ ["2"]]
  end.

(** The data instance of a plugin is not taken for a record: the plain
    objects that are decoded hold none. *)
Definition UnknownRecord (u : value) (c : Path) : Validation object :=
  match u with
  | VObj o => inr o
  | _ => inl [c]
  end.

Definition UnknownArray (u : value) (c : Path) : Validation (list value) :=
  match u with
  | VArr l => inr l
  | _ => inl [c]
  end.

(** [t.type(pluginSchema)]: the loop of io-ts over the keys of the schema.
    Only the declared keys are validated; every other property of the
    validated object is kept as it is. *)
Fixpoint type_validate_loop (props : PluginSchema) (c : Path) (a : object)
    (errors : Errors) : object * Errors :=
  match props with
  | [] => (a, errors)
  | (k, type) :: rest =>
      match plugin_validate type (prop k a) with
      | None => type_validate_loop rest c a (errors ++ [c ++ [k]])
      | Some vak => type_validate_loop rest c (set k (VData vak) a) errors
      end
  end.

Definition type_validate (props : PluginSchema) (u : value) (c : Path)
    : Validation object :=
  match UnknownRecord u c with
  | inl e => inl e
  | inr o =>
      match type_validate_loop props c o [] with
      | (a, []) => inr a
      | (_, errors) => inl errors
      end
  end.

(** Its encoder: [s = {...a}; for (k of keys) s[k] = types[k].encode(a[k])].
    The encoder of a plugin reads its data instance. *)
Fixpoint type_encode_loop (props : PluginSchema) (a s : object) : Result object :=
  match props with
  | [] => Ok s
  | (k, type) :: rest =>
      match prop k a with
      | VData d => type_encode_loop rest a (set k (plugin_encode type d) s)
      | _ => Throw TypeError
      end
  end.

Definition type_encode (props : PluginSchema) (a : object) : Result object :=
  type_encode_loop props a a.

(** The keys of a plugin map that the plugin schema does not declare. *)
Definition type_unknownKeys (props : PluginSchema) (u : value) (c : Path) : Errors :=
  match u with
  | VObj o => undeclared (props.*1) o c
  | _ => []
  end.

Definition liftValidation {A} (f : value -> Path -> Validation A)
    : value -> Path -> M (Validation A) :=
  fun u c => ret (f u c).

(** [t.array(item)] *)
Fixpoint array_validate_loop {A} (item : Codec A) (us : list value) (i : nat)
    (c : Path) : M (Validation (list A)) :=
  match us with
  | [] => ret (inr [])
  | ui :: us' =>
      result <- validate item ui (c ++ [pretty i]) ;;
      results <- array_validate_loop item us' (S i) c ;;
      ret (ap (ap (inr cons) result) results)
  end.

Fixpoint array_encode_loop {A} (item : Codec A) (xs : list A) : M (list value) :=
  match xs with
  | [] => ret []
  | x :: xs' =>
      v <- encodeWith item x ;;
      vs <- array_encode_loop item xs' ;;
      ret (v :: vs)
  end.

Fixpoint array_unknownKeys {A} (item : Codec A) (us : list value) (i : nat)
    (c : Path) : Errors :=
  match us with
  | [] => []
  | ui :: us' =>
      unknownKeys item ui (c ++ [pretty i]) ++ array_unknownKeys item us' (S i) c
  end.

Definition t_array {A} (item : Codec A) : Codec (list A) :=
  mkType
    (fun u c =>
       match UnknownArray u c with
       | inl e => ret (inl e)
       | inr us => array_validate_loop item us 0%nat c
       end)
    (fun xs => vs <- array_encode_loop item xs ;; ret (VArr vs))
    (fun u c =>
       match u with
       | VArr us => array_unknownKeys item us 0%nat c
       | _ => []
       end).

(** ** serde *)

(** Modelled from the spec: [enclass], [decode] and [encode] of
    [./serde], which is not among the sources.  [enclass] binds a schema to
    a constructor, so that decoding produces a live instance; it encodes an
    instance through its [raw] getter. *)
Definition enclass {Raw Class} (schemaCodec : Codec Raw)
    (construct : Raw -> M Class) (raw : Class -> M Raw) : Codec Class :=
  mkType
    (fun u c =>
       v <- validate schemaCodec u c ;;
       match v with
       | inl e => ret (inl e)
       | inr obj => x <- construct obj ;; ret (inr x)
       end)
    (fun x => obj <- raw x ;; encodeWith schemaCodec obj)
    (unknownKeys schemaCodec).

(** Modelled from the spec: [decode] fails with a validation error that
    enumerates the paths that did not conform: the unknown keys, or else
    the paths the codec rejects (wrong primitive type, missing required
    key).  The unknown keys are looked for first: the validation of a codec
    built by [enclass] runs the constructor, and a plain value that does
    not conform is to construct nothing. *)
Definition decode {A} (input : value) (type : Codec A) : M A :=
  match unknownKeys type input [] with
  | [] =>
      v <- validate type input [] ;;
      match v with
      | inl errors => throw (ValidationError errors)
      | inr x => ret x
      end
  | unknown => throw (ValidationError unknown)
  end.

(** Modelled from the spec: [encode] is the encoder of the codec. *)
Definition encode {A} (x : A) (type : Codec A) : M value :=
  encodeWith type x.

(** ** The codecs of the entities *)

(** [AccDiffWeapon.schemaCodec], that is [t.type(this.schema)] *)
Definition AccDiffWeapon_schema_validate (pluginSchema : PluginSchema)
    (u : value) (c : Path) : Validation AccDiffWeapon :=
  match UnknownRecord u c with
  | inl e => inl e
  | inr o =>
      ap (ap (ap (ap (inr mkWeapon)
        (t_boolean (prop "accurate" o) (c ++ ["accurate"])))
        (t_boolean (prop "inaccurate" o) (c ++ ["inaccurate"])))
        (t_boolean (prop "seeking" o) (c ++ ["seeking"])))
        (type_validate pluginSchema (prop "plugins" o) (c ++ ["plugins"]))
  end.

Definition AccDiffWeapon_schema_encode (pluginSchema : PluginSchema)
    (a : AccDiffWeapon) : Result value :=
  match type_encode pluginSchema (weapon_plugins a) with
  | Ok plugins =>
      Ok (VObj [("accurate", VBool (accurate a));
                ("inaccurate", VBool (inaccurate a));
                ("seeking", VBool (seeking a));
                ("plugins", VObj plugins)])
  | Throw e => Throw e
  end.

Definition AccDiffWeapon_schemaCodec (pluginSchema : PluginSchema)
    : Codec AccDiffWeapon :=
  mkType (liftValidation (AccDiffWeapon_schema_validate pluginSchema))
    (fun a => liftResult (AccDiffWeapon_schema_encode pluginSchema a))
    (fun u c =>
       match u with
       | VObj o =>
           undeclared ["accurate"; "inaccurate"; "seeking"; "plugins"] o c
           ++ type_unknownKeys pluginSchema (prop "plugins" o) (c ++ ["plugins"])
       | _ => []
       end).

(** [new AccDiffWeapon(obj)] *)
Definition new_AccDiffWeapon (obj : AccDiffWeapon) : M ref :=
  this <- gets (fun w => length (weaponHeap w)) ;;
  modify (fun w => with_weaponHeap (weaponHeap w ++
            [mkWeapon (accurate obj) (inaccurate obj) (seeking obj)
               (weapon_plugins obj)]) w) ;;;
  ret this.

Definition AccDiffWeapon_raw (this : ref) : M AccDiffWeapon :=
  x <- readWeapon this ;;
  ret (mkWeapon (accurate x) (inaccurate x) (seeking x) (weapon_plugins x)).

Definition AccDiffWeapon_codec (pluginSchema : PluginSchema) : Codec ref :=
  enclass (AccDiffWeapon_schemaCodec pluginSchema) new_AccDiffWeapon AccDiffWeapon_raw.

(** [AccDiffBase.schemaCodec] *)
Definition AccDiffBase_schema_validate (pluginSchema : PluginSchema)
    (u : value) (c : Path) : Validation BaseRaw :=
  match UnknownRecord u c with
  | inl e => inl e
  | inr o =>
      ap (ap (ap (ap (inr mkBaseRaw)
        (t_number (prop "accuracy" o) (c ++ ["accuracy"])))
        (t_number (prop "difficulty" o) (c ++ ["difficulty"])))
        (coverSchema (prop "cover" o) (c ++ ["cover"])))
        (type_validate pluginSchema (prop "plugins" o) (c ++ ["plugins"]))
  end.

Definition AccDiffBase_schema_encode (pluginSchema : PluginSchema)
    (a : BaseRaw) : Result value :=
  match type_encode pluginSchema (raw_plugins a) with
  | Ok plugins =>
      Ok (VObj [("accuracy", VNum (raw_accuracy a));
                ("difficulty", VNum (raw_difficulty a));
                ("cover", VNum (raw_cover a));
                ("plugins", VObj plugins)])
  | Throw e => Throw e
  end.

Definition AccDiffBase_schemaCodec (pluginSchema : PluginSchema)
    : Codec BaseRaw :=
  mkType (liftValidation (AccDiffBase_schema_validate pluginSchema))
    (fun a => liftResult (AccDiffBase_schema_encode pluginSchema a))
    (fun u c =>
       match u with
       | VObj o =>
           undeclared ["accuracy"; "difficulty"; "cover"; "plugins"] o c
           ++ type_unknownKeys pluginSchema (prop "plugins" o) (c ++ ["plugins"])
       | _ => []
       end).

(** [new AccDiffBase(obj)] *)
Definition new_AccDiffBase (obj : BaseRaw) : M ref :=
  this <- gets (fun w => length (baseHeap w)) ;;
  modify (fun w => with_baseHeap (baseHeap w ++
            [mkBase (raw_accuracy obj) (raw_difficulty obj) (raw_cover obj)
               (raw_plugins obj) None]) w) ;;;
  ret this.

Definition AccDiffBase_raw (this : ref) : M BaseRaw :=
  x <- readBase this ;;
  ret (mkBaseRaw (base_accuracy x) (base_difficulty x) (base_cover x)
         (base_plugins x)).

Definition AccDiffBase_codec (pluginSchema : PluginSchema) : Codec ref :=
  enclass (AccDiffBase_schemaCodec pluginSchema) new_AccDiffBase AccDiffBase_raw.

(** [AccDiffTarget.schemaCodec] *)
Definition AccDiffTarget_schema_validate (pluginSchema : PluginSchema)
    (u : value) (c : Path) : Validation TargetRaw :=
  match UnknownRecord u c with
  | inl e => inl e
  | inr o =>
      ap (ap (ap (ap (ap (ap (inr mkTargetRaw)
        (t_string (prop "target_id" o) (c ++ ["target_id"])))
        (t_number (prop "accuracy" o) (c ++ ["accuracy"])))
        (t_number (prop "difficulty" o) (c ++ ["difficulty"])))
        (coverSchema (prop "cover" o) (c ++ ["cover"])))
        (t_boolean (prop "consumeLockOn" o) (c ++ ["consumeLockOn"])))
        (type_validate pluginSchema (prop "plugins" o) (c ++ ["plugins"]))
  end.

Definition AccDiffTarget_schema_encode (pluginSchema : PluginSchema)
    (a : TargetRaw) : Result value :=
  match type_encode pluginSchema (raw_target_plugins a) with
  | Ok plugins =>
      Ok (VObj [("target_id", VStr (raw_target_id a));
                ("accuracy", VNum (raw_target_accuracy a));
                ("difficulty", VNum (raw_target_difficulty a));
                ("cover", VNum (raw_target_cover a));
                ("consumeLockOn", VBool (raw_consumeLockOn a));
                ("plugins", VObj plugins)])
  | Throw e => Throw e
  end.

Definition AccDiffTarget_schemaCodec (pluginSchema : PluginSchema)
    : Codec TargetRaw :=
  mkType (liftValidation (AccDiffTarget_schema_validate pluginSchema))
    (fun a => liftResult (AccDiffTarget_schema_encode pluginSchema a))
    (fun u c =>
       match u with
       | VObj o =>
           undeclared ["target_id"; "accuracy"; "difficulty"; "cover"; "consumeLockOn";
                       "plugins"] o c
           ++ type_unknownKeys pluginSchema (prop "plugins" o) (c ++ ["plugins"])
       | _ => []
       end).

(** [canvas.scene.tokens.get(id)], then [.object] *)
Definition tokens_get (id : string) (w : World) : option ref :=
  List.find (fun r =>
               match tokenHeap w !! r with
               | Some tk => String.eqb (token_id tk) id
               | None => false
               end)
    (sceneTokens w).

Definition notifications_error (msg : string) : M unit :=
  modify (fun w => with_notifications (notifications w ++ [msg]) w).

(** [new AccDiffTarget(obj)] *)
Definition new_AccDiffTarget (obj : TargetRaw) : M ref :=
  target <- gets (tokens_get (raw_target_id obj)) ;;
  match target with
  | None =>
      notifications_error "Trying to access tokens from a different scene!" ;;;
      throw TokenNotFound
  | Some tk =>
      this <- gets (fun w => length (targetHeap w)) ;;
      modify (fun w => with_targetHeap (targetHeap w ++
                [mkTarget tk (raw_target_accuracy obj) (raw_target_difficulty obj)
                   (raw_target_cover obj) (raw_consumeLockOn obj)
                   (raw_target_plugins obj) None None]) w) ;;;
      ret this
  end.

Definition AccDiffTarget_raw (this : ref) : M TargetRaw :=
  x <- readTarget this ;;
  tk <- readToken (target x) ;;
  ret (mkTargetRaw (token_id tk) (target_accuracy x) (target_difficulty x)
         (target_cover x) (consumeLockOn x) (target_plugins x)).

Definition AccDiffTarget_codec (pluginSchema : PluginSchema) : Codec ref :=
  enclass (AccDiffTarget_schemaCodec pluginSchema) new_AccDiffTarget AccDiffTarget_raw.

(** ** The aggregate *)

Definition AccDiffData_schemaCodec (ws bs ts : PluginSchema) : Codec AccDiffData :=
  mkType
    (fun u c =>
       match UnknownRecord u c with
       | inl e => ret (inl e)
       | inr o =>
           vtitle <- liftValidation t_string (prop "title" o) (c ++ ["title"]) ;;
           vweapon <- validate (AccDiffWeapon_codec ws) (prop "weapon" o)
                        (c ++ ["weapon"]) ;;
           vbase <- validate (AccDiffBase_codec bs) (prop "base" o)
                      (c ++ ["base"]) ;;
           vtargets <- validate (t_array (AccDiffTarget_codec ts))
                         (prop "targets" o) (c ++ ["targets"]) ;;
           ret (ap (ap (ap (ap (inr mkData) vtitle) vweapon) vbase) vtargets)
       end)
    (fun a =>
       vweapon <- encodeWith (AccDiffWeapon_codec ws) (weapon a) ;;
       vbase <- encodeWith (AccDiffBase_codec bs) (base a) ;;
       vtargets <- encodeWith (t_array (AccDiffTarget_codec ts)) (targets a) ;;
       ret (VObj [("title", VStr (title a));
                  ("weapon", vweapon);
                  ("base", vbase);
                  ("targets", vtargets)]))
    (fun u c =>
       match u with
       | VObj o =>
           undeclared ["title"; "weapon"; "base"; "targets"] o c
           ++ unknownKeys (AccDiffWeapon_codec ws) (prop "weapon" o) (c ++ ["weapon"])
           ++ unknownKeys (AccDiffBase_codec bs) (prop "base" o) (c ++ ["base"])
           ++ unknownKeys (t_array (AccDiffTarget_codec ts)) (prop "targets" o)
                (c ++ ["targets"])
       | _ => []
       end).

(** [new AccDiffData(obj)]: the four assignments, then the hydration. *)
Definition new_AccDiffData (obj : AccDiffData) : M AccDiffData :=
  let this := mkData (title obj) (weapon obj) (base obj) (targets obj) in
  AccDiffWeapon_hydrate (weapon this) this ;;;
  AccDiffBase_hydrate (base this) this ;;;
  forEach (targets this) (fun target => AccDiffTarget_hydrate target this) ;;;
  ret this.

Definition AccDiffData_raw (this : AccDiffData) : M AccDiffData :=
  ret (mkData (title this) (weapon this) (base this) (targets this)).

(** [static get codec()]: the schemas read the static plugin schemas. *)
Definition AccDiffData_codec : M (Codec AccDiffData) :=
  ws <- gets Weapon_pluginSchema ;;
  bs <- gets Base_pluginSchema ;;
  ts <- gets Target_pluginSchema ;;
  ret (enclass (AccDiffData_schemaCodec ws bs ts) new_AccDiffData AccDiffData_raw).

Definition AccDiffData_fromObject (obj : value) : M AccDiffData :=
  type <- AccDiffData_codec ;;
  decode obj type.

Definition AccDiffData_toObject (this : AccDiffData) : M value :=
  type <- AccDiffData_codec ;;
  encode this type.

End Codecs.

Arguments mkType {host A} _ _ _.
Arguments validate {host A} _ _ _.
Arguments encodeWith {host A} _ _.
Arguments unknownKeys {host A} _ _ _.

(** ** The registry and the factory *)

(** [TagInstance], of which the factory reads [tag.Tag.LID]. *)
Record TagTemplate := mkTagTemplate { LID : string }.
Record TagInstance := mkTagInstance { Tag : TagTemplate }.

Section Factory.
Context {host : PluginHost}.

Definition when (b : bool) (m : M unit) : M unit :=
  if b then m else ret tt.

(** [static registerPlugin(plugin)] *)
Definition AccDiffData_registerPlugin (plugin : AccDiffPlugin) : M unit :=
  when (bool_decide (is_Some (perRoll plugin)))
    (modify (fun w => with_Weapon_pluginSchema
       (schemaSet (slug plugin) (codec plugin) (Weapon_pluginSchema w)) w)) ;;;
  when (bool_decide (is_Some (perUnknownTarget plugin)))
    (modify (fun w => with_Base_pluginSchema
       (schemaSet (slug plugin) (codec plugin) (Base_pluginSchema w)) w)) ;;;
  when (bool_decide (is_Some (perTarget plugin)))
    (modify (fun w => with_Target_pluginSchema
       (schemaSet (slug plugin) (codec plugin) (Target_pluginSchema w)) w) ;;;
     modify (fun w => with_Data_targetedPlugins
       (Data_targetedPlugins w ++ [plugin]) w)) ;;;
  modify (fun w => with_Data_plugins (Data_plugins w ++ [plugin]) w).

(** The body of [for (let tag of (tags || [])) switch (tag.Tag.LID) ...] *)
Definition tagCase (weapon : AccDiffWeapon) (tag : TagInstance) : AccDiffWeapon :=
  let lid := LID (Tag tag) in
  if String.eqb lid "tg_accurate" then
    mkWeapon true (inaccurate weapon) (seeking weapon) (weapon_plugins weapon)
  else if String.eqb lid "tg_inaccurate" then
    mkWeapon (accurate weapon) true (seeking weapon) (weapon_plugins weapon)
  else if String.eqb lid "tg_seeking" then
    mkWeapon (accurate weapon) (inaccurate weapon) true (weapon_plugins weapon)
  else weapon.

(** [for (let plugin of this.targetedPlugins)
      ret.plugins[plugin.slug] = encode(plugin.perTarget!(t), plugin.codec)] *)
Fixpoint targetDefaults (plugins : list AccDiffPlugin) (t : Token)
    (ret_plugins : object) : Result object :=
  match plugins with
  | [] => Ok ret_plugins
  | plugin :: rest =>
      match perTarget plugin with
      | Some perTarget =>
          targetDefaults rest t
            (set (slug plugin) (plugin_encode (codec plugin) (perTarget t))
               ret_plugins)
      | None => Throw TypeError
      end
  end.

(** One target of [(targets || []).map(t => ...)] *)
Definition targetRecord (t : ref) : M value :=
  tk <- readToken t ;;
  plugins <- gets Data_targetedPlugins ;;
  ret_plugins <- liftResult (targetDefaults plugins tk []) ;;
  ret (VObj [("target_id", VStr (token_id tk));
             ("accuracy", VNum 0);
             ("difficulty", VNum 0);
             ("cover", VNum (Cover.value Cover.None));
             ("consumeLockOn", VBool true);
             ("plugins", VObj ret_plugins)]).

Fixpoint mapM {A B} (f : A -> M B) (l : list A) : M (list B) :=
  match l with
  | [] => ret []
  | x :: l' => y <- f x ;; ys <- mapM f l' ;; ret (y :: ys)
  end.

(** The body of [for (let plugin of this.plugins)], on the two plugin maps
    [obj.weapon.plugins] and [obj.base.plugins]. *)
Definition rollDefaults (item : option LancerItem) (maps : object * object)
    (plugin : AccDiffPlugin) : object * object :=
  let weapon_plugins :=
    match perRoll plugin with
    | Some perRoll =>
        set (slug plugin) (plugin_encode (codec plugin) (perRoll item)) maps.1
    | None => maps.1
    end in
  let base_plugins :=
    match perUnknownTarget plugin with
    | Some perUnknownTarget =>
        set (slug plugin) (plugin_encode (codec plugin) (perUnknownTarget tt)) maps.2
    | None => maps.2
    end in
  (weapon_plugins, base_plugins).

(** The title: [title ? `${title} - Accuracy and Difficulty` : "Accuracy and Difficulty"] *)
Definition rollTitle (title : option string) : string :=
  match title with
  | Some (String a s) => String a s +:+ " - Accuracy and Difficulty"
  | _ => "Accuracy and Difficulty"
  end.

(** [static fromParams(item?, tags?, title?, targets?, starting?)] *)
Definition AccDiffData_fromParams (item : option LancerItem)
    (tags : option (list TagInstance)) (title : option string)
    (targets : option (list ref)) (starting : option (number * number)) : M AccDiffData :=
  let weapon := fold_left tagCase (default [] tags) (mkWeapon false false false []) in
  let base := mkBaseRaw (if starting is Some s then s.1 else 0)%float
                (if starting is Some s then s.2 else 0)%float (Cover.value Cover.None) [] in
  let obj_title := rollTitle title in
  obj_targets <- mapM targetRecord (default [] targets) ;;
  plugins <- gets Data_plugins ;;
  let maps := fold_left (rollDefaults item) plugins
                (weapon_plugins weapon, raw_plugins base) in
  AccDiffData_fromObject
    (VObj [("title", VStr obj_title);
           ("weapon", VObj [("accurate", VBool (accurate weapon));
                            ("inaccurate", VBool (inaccurate weapon));
                            ("seeking", VBool (seeking weapon));
                            ("plugins", VObj maps.1)]);
           ("base", VObj [("cover", VNum (raw_cover base));
                          ("accuracy", VNum (raw_accuracy base));
                          ("difficulty", VNum (raw_difficulty base));
                          ("plugins", VObj maps.2)]);
           ("targets", VArr obj_targets)]).

End Factory.

(** ** The form *)

(** [type AccDiffView = AccDiffData & {...}]: the roll data with the two
    flags of the view. *)
Record AccDiffView := mkView {
  view_data : AccDiffData;
  hasTargets : bool;
  hasExactlyOneTarget : bool
}.

(** [getViewModel(data)] of [AccDiffForm]: the view is [data] itself, on
    which the two flags are assigned. *)
Definition AccDiffForm_getViewModel (data : AccDiffData) : AccDiffView :=
  mkView data (1 <? length (targets data))%nat (length (targets data) =? 1)%nat.

(** * The vocabulary of the statements *)

Section Vocabulary.
Context {host : PluginHost}.

(** ** Assignments of the form, states of the entities *)

(** [base.cover = c], as the form bound to the roll data assigns it *)
Definition AccDiffBase_setCover (this : ref) (c : Cover.t) : M unit :=
  x <- readBase this ;;
  writeBase this (mkBase (base_accuracy x) (base_difficulty x) (Cover.value c)
                    (base_plugins x) (base_weapon x)).



(** An effect that has [flags.core] and is no lock-on. *)
Definition otherEffect (eff : Effect) : Prop :=
  exists core : option string,
    flags_core eff = Some core /\ core <> Some "lockon".

(** What [lockOnAvailable] reads off a token: the first lock-on effect of
    its actor, or a type error when the token has no actor or an effect
    without [flags.core] comes before. *)
Definition lockOnOf (tk : Token) : Result (option Effect) :=
  match token_actor tk with
  | Some actor => findLockOn (actor_effects actor)
  | None => Throw TypeError
  end.

(** What [usingLockOn] yields for the target [x] on the token [tk]: the
    token is read only when [consumeLockOn] is set. *)
Definition usingOf (x : AccDiffTarget) (tk : Token) : Result (option Effect) :=
  if consumeLockOn x then lockOnOf tk else Ok None.

(** The store once the token [r] of the canvas has become [tk]: the effects
    of a token change outside the roll data. *)
Definition with_token (r : ref) (tk : Token) (W : World) : World :=
  mkWorld (weaponHeap W) (baseHeap W) (targetHeap W) (<[r := tk]> (tokenHeap W))
    (sceneTokens W) (notifications W) (events W) (Weapon_pluginSchema W)
    (Base_pluginSchema W) (Target_pluginSchema W) (Data_plugins W)
    (Data_targetedPlugins W).

(** ** Plugin maps and hydrated entities *)

(** Every slot of a plugin map holds plugin data. *)
Definition isData (v : value) : bool :=
  match v with
  | VData _ => true
  | _ => false
  end.

Definition allData (o : object) : bool :=
  forallb (fun k => isData (prop k o)) (keys o).

Definition hydratedPlugins (d : AccDiffData) (h : option Holder) (o : object) : object :=
  (hydratePlugins d h (keys o) o).2.

(** The entities as their [hydrate] methods leave them. *)
Definition hydratedWeaponObj (d : AccDiffData) (x : AccDiffWeapon) : AccDiffWeapon :=
  mkWeapon (accurate x) (inaccurate x) (seeking x)
    (hydratedPlugins d None (weapon_plugins x)).

Definition hydratedBaseObj (d : AccDiffData) (this : ref) (x : AccDiffBase) : AccDiffBase :=
  mkBase (base_accuracy x) (base_difficulty x) (base_cover x)
    (hydratedPlugins d (Some (OfBase this)) (base_plugins x)) (Some (weapon d)).

Definition hydratedTargetObj (d : AccDiffData) (this : ref) (x : AccDiffTarget)
    : AccDiffTarget :=
  mkTarget (target x) (target_accuracy x) (target_difficulty x) (target_cover x)
    (consumeLockOn x)
    (hydratedPlugins d (Some (OfTarget this)) (target_plugins x))
    (Some (weapon d)) (Some (base d)).

(** The log of one run of the constructor of [AccDiffData]. *)
Definition hydrationLog (d : AccDiffData) : list Event :=
  [HydrateWeapon (weapon d); HydrateBase (base d); SetBaseWeapon (base d) (weapon d)]
  ++ flat_map (fun t => [HydrateTarget t; SetTargetWeapon t (weapon d);
                         SetTargetBase t (base d)]) (targets d).

(** ** Effects on the store *)

(** A computation that returns the store as it found it. *)
Definition readOnly {A} (m : M A) : Prop := forall W, (m W).2 = W.

(** What the constructors of the entities leave alone. *)
Definition frame (W W' : World) : Prop :=
  tokenHeap W' = tokenHeap W /\ sceneTokens W' = sceneTokens W
  /\ notifications W' = notifications W /\ events W' = events W
  /\ Weapon_pluginSchema W' = Weapon_pluginSchema W
  /\ Base_pluginSchema W' = Base_pluginSchema W
  /\ Target_pluginSchema W' = Target_pluginSchema W
  /\ Data_plugins W' = Data_plugins W
  /\ Data_targetedPlugins W' = Data_targetedPlugins W.

Definition allocWeapon (obj : AccDiffWeapon) (W : World) : World :=
  with_weaponHeap (weaponHeap W ++ [obj]) W.

Definition allocBase (obj : BaseRaw) (W : World) : World :=
  with_baseHeap (baseHeap W ++ [mkBase (raw_accuracy obj) (raw_difficulty obj)
                                   (raw_cover obj) (raw_plugins obj) None]) W.

(** The target [new AccDiffTarget(obj)] builds around the token [tk]. *)
Definition targetOf (tk : ref) (obj : TargetRaw) : AccDiffTarget :=
  mkTarget tk (raw_target_accuracy obj) (raw_target_difficulty obj)
    (raw_target_cover obj) (raw_consumeLockOn obj) (raw_target_plugins obj) None None.

Definition allocTarget (x : AccDiffTarget) (W : World) : World :=
  with_targetHeap (targetHeap W ++ [x]) W.

(** ** Failures of decoding *)

Definition tokenNotFound : string := "Trying to access tokens from a different scene!".

(** A target record of the plain object that conforms to the schema of the
    targets and names no token of the scene. *)
Definition targetUnresolved (W : World) (o : object) : Prop :=
  exists us j u obj,
    prop "targets" o = VArr us /\ us !! j = Some u
    /\ AccDiffTarget_schema_validate (Target_pluginSchema W) u ["targets"; pretty j] = inr obj
    /\ tokens_get (raw_target_id obj) W = None.

(** A key of the registered plugin schema of an entity that the plugin map
    of the plain object does not have, and whose codec rejects [undefined];
    with the path io-ts reports for it. *)
Inductive registeredKeyMissing (W : World) (o : object) : Path -> Prop :=
| missing_weapon (wo po : object) (k : string) (c : PluginCodec) :
    prop "weapon" o = VObj wo -> prop "plugins" wo = VObj po ->
    schemaGet k (Weapon_pluginSchema W) = Some c ->
    get k po = None -> plugin_validate c VUndefined = None ->
    registeredKeyMissing W o ["weapon"; "plugins"; k]
| missing_base (bo po : object) (k : string) (c : PluginCodec) :
    prop "base" o = VObj bo -> prop "plugins" bo = VObj po ->
    schemaGet k (Base_pluginSchema W) = Some c ->
    get k po = None -> plugin_validate c VUndefined = None ->
    registeredKeyMissing W o ["base"; "plugins"; k]
| missing_target (us : list value) (j : nat) (tobj po : object) (k : string)
    (c : PluginCodec) :
    prop "targets" o = VArr us -> us !! j = Some (VObj tobj) ->
    prop "plugins" tobj = VObj po ->
    schemaGet k (Target_pluginSchema W) = Some c ->
    get k po = None -> plugin_validate c VUndefined = None ->
    registeredKeyMissing W o ["targets"; pretty j; "plugins"; k].

(** ** Successful decoding *)

(** The targets the loop of [t.array] constructs when every record conforms
    and names a token of the scene. *)
Fixpoint constructTargets (ps : PluginSchema) (W : World) (us : list value) (i : nat)
    (c : Path) : option (list AccDiffTarget) :=
  match us with
  | [] => Some []
  | u :: us' =>
      match AccDiffTarget_schema_validate ps u (c ++ [pretty i]) with
      | inr obj =>
          match tokens_get (raw_target_id obj) W with
          | Some tk => cons (targetOf tk obj) <$> constructTargets ps W us' (S i) c
          | None => None
          end
      | inl _ => None
      end
  end.

(** What a plain object validates to. *)
Record Decoded := mkDecoded {
  d_title : string;
  d_weapon : AccDiffWeapon;
  d_base : BaseRaw;
  d_targets : list AccDiffTarget
}.

(** The paths of the keys of the plain object that the schemas registered
    in [W] do not declare. *)
Definition unknownOf (W : World) (o : object) : Errors :=
  unknownKeys (AccDiffData_schemaCodec (Weapon_pluginSchema W) (Base_pluginSchema W)
                 (Target_pluginSchema W)) (VObj o) [].

Definition decodePlain (W : World) (o : object) : option Decoded :=
  match unknownOf W o,
        t_string (prop "title" o) ["title"],
        AccDiffWeapon_schema_validate (Weapon_pluginSchema W) (prop "weapon" o) ["weapon"],
        AccDiffBase_schema_validate (Base_pluginSchema W) (prop "base" o) ["base"],
        prop "targets" o with
  | [], inr ti, inr w, inr b, VArr us =>
      mkDecoded ti w b <$> constructTargets (Target_pluginSchema W) W us 0 ["targets"]
  | _, _, _, _, _ => None
  end.

(** The roll data built from it in the store [W], and the store once the
    entities are allocated. *)
Definition dataOf (W : World) (p : Decoded) : AccDiffData :=
  mkData (d_title p) (length (weaponHeap W)) (length (baseHeap W))
    (seq (length (targetHeap W)) (length (d_targets p))).

Definition allocated (W : World) (p : Decoded) : World :=
  with_targetHeap (targetHeap W ++ d_targets p)
    (allocBase (d_base p) (allocWeapon (d_weapon p) W)).

Definition hydratable (p : Decoded) : Prop :=
  allData (weapon_plugins (d_weapon p)) = true
  /\ allData (raw_plugins (d_base p)) = true
  /\ Forall (fun x => allData (target_plugins x) = true) (d_targets p).

(** The store [W'] holds the roll data [d] decoded from [p] in [W]. *)
Definition constructed (W : World) (p : Decoded) (d : AccDiffData) (W' : World) : Prop :=
  d = dataOf W p
  /\ weaponHeap W' = weaponHeap W ++ [hydratedWeaponObj d (d_weapon p)]
  /\ baseHeap W' = baseHeap W ++
       [hydratedBaseObj d (base d)
          (mkBase (raw_accuracy (d_base p)) (raw_difficulty (d_base p))
             (raw_cover (d_base p)) (raw_plugins (d_base p)) None)]
  /\ length (targetHeap W') = (length (targetHeap W) + length (d_targets p))%nat
  /\ (forall t x, targetHeap W !! t = Some x -> targetHeap W' !! t = Some x)
  /\ (forall j x, d_targets p !! j = Some x ->
        targetHeap W' !! (length (targetHeap W) + j)%nat
          = Some (hydratedTargetObj d (length (targetHeap W) + j)%nat x))
  /\ events W' = events W ++ hydrationLog d
  /\ tokenHeap W' = tokenHeap W /\ sceneTokens W' = sceneTokens W
  /\ notifications W' = notifications W
  /\ Weapon_pluginSchema W' = Weapon_pluginSchema W
  /\ Base_pluginSchema W' = Base_pluginSchema W
  /\ Target_pluginSchema W' = Target_pluginSchema W
  /\ Data_plugins W' = Data_plugins W
  /\ Data_targetedPlugins W' = Data_targetedPlugins W.

(** ** Tags *)

Definition hasLID (lid : string) (tag : TagInstance) : bool :=
  String.eqb (LID (Tag tag)) lid.

(** ** Lawful plugin codecs *)

(** The laws of a plugin codec: decoding what it encoded succeeds and
    encodes to the same plain value again, and hydration leaves the plain
    form of the data as it is. *)
Definition lawfulCodec (type : PluginCodec) : Prop :=
  (forall x, exists y, plugin_validate type (plugin_encode type x) = Some y
                       /\ plugin_encode type y = plugin_encode type x)
  /\ (forall d h x, plugin_encode type (pluginHydrate d h x) = plugin_encode type x).

(** A plugin schema is a JavaScript object, its keys are distinct; its
    codecs are lawful. *)
Definition lawfulSchema (s : PluginSchema) : Prop :=
  NoDup (s.*1) /\ forall k type, In (k, type) s -> lawfulCodec type.

Definition lawfulRegistry (W : World) : Prop :=
  lawfulSchema (Weapon_pluginSchema W) /\ lawfulSchema (Base_pluginSchema W)
  /\ lawfulSchema (Target_pluginSchema W).

(** The plugin map of a decoded entity: the keys of the schema, each once,
    each holding plugin data. *)
Definition slotsOK (s : PluginSchema) (a : object) : Prop :=
  NoDup (keys a)
  /\ (forall k, In k (keys a) <-> In k (s.*1))
  /\ (forall k, In k (keys a) -> isData (prop k a) = true).

(** ** Plain objects *)

(** A plain value: it holds no data instance of a plugin, and the keys of
    its objects are distinct. *)
Fixpoint isPlain (v : value) : bool :=
  match v with
  | VData _ => false
  | VArr l => forallb isPlain l
  | VObj o =>
      bool_decide (NoDup (o.*1))
      && forallb (fun kv => match kv with (_, v') => isPlain v' end) o
  | _ => true
  end.

(** The plain form of a target, read off the target and its token. *)
Definition rawTarget (W : World) (x : AccDiffTarget) : Result value :=
  match tokenHeap W !! target x with
  | Some tk =>
      AccDiffTarget_schema_encode (Target_pluginSchema W)
        (mkTargetRaw (token_id tk) (target_accuracy x) (target_difficulty x)
           (target_cover x) (consumeLockOn x) (target_plugins x))
  | None => Throw Dangling
  end.

Fixpoint mapResult {A B} (f : A -> Result B) (l : list A) : Result (list B) :=
  match l with
  | [] => Ok []
  | x :: l' =>
      match f x with
      | Ok y => match mapResult f l' with
                | Ok ys => Ok (y :: ys)
                | Throw e => Throw e
                end
      | Throw e => Throw e
      end
  end.

(** The plain form of decoded roll data: every raw field, the entries of
    the plugin maps in their plain form. *)
Definition plainOf (W : World) (p : Decoded) : Result value :=
  match AccDiffWeapon_schema_encode (Weapon_pluginSchema W) (d_weapon p) with
  | Ok vweapon =>
      match AccDiffBase_schema_encode (Base_pluginSchema W) (d_base p) with
      | Ok vbase =>
          match mapResult (rawTarget W) (d_targets p) with
          | Ok vtargets =>
              Ok (VObj [("title", VStr (d_title p)); ("weapon", vweapon);
                        ("base", vbase); ("targets", VArr vtargets)])
          | Throw e => Throw e
          end
      | Throw e => Throw e
      end
  | Throw e => Throw e
  end.

(** A number the schema of the cover lets through. *)
Definition isCover (n : number) : bool :=
  isLiteral 0 (VNum n) || isLiteral 1 (VNum n) || isLiteral 2 (VNum n).

Definition targetOK (W : World) (x : AccDiffTarget) : Prop :=
  slotsOK (Target_pluginSchema W) (target_plugins x)
  /\ isCover (target_cover x) = true
  /\ exists tk, tokenHeap W !! target x = Some tk
                /\ tokens_get (token_id tk) W = Some (target x).

(** Decoded roll data whose plugin maps have the shape of the registered
    schemas and whose targets name tokens of the scene. *)
Definition decodedOK (W : World) (p : Decoded) : Prop :=
  slotsOK (Weapon_pluginSchema W) (weapon_plugins (d_weapon p))
  /\ slotsOK (Base_pluginSchema W) (raw_plugins (d_base p))
  /\ isCover (raw_cover (d_base p)) = true
  /\ Forall (targetOK W) (d_targets p).

(** ** Stores that agree on the scene and on the registry *)

Definition sameStatics (W W' : World) : Prop :=
  tokenHeap W' = tokenHeap W /\ sceneTokens W' = sceneTokens W
  /\ Weapon_pluginSchema W' = Weapon_pluginSchema W
  /\ Base_pluginSchema W' = Base_pluginSchema W
  /\ Target_pluginSchema W' = Target_pluginSchema W.

(** ** The raw fields a plain object lists *)

(** The roll data [x] in the store [W] and [x'] in [W'] hold the same raw
    field values: title, flags of the weapon, accuracy, difficulty and cover
    of the base, fields of each target in turn, and plugin maps that encode
    to the same plain entries. *)
Definition sameRawFields (W : World) (x : AccDiffData) (W' : World) (x' : AccDiffData)
    : Prop :=
  title x' = title x
  /\ (exists w w' plugins,
        weaponHeap W !! weapon x = Some w /\ weaponHeap W' !! weapon x' = Some w'
        /\ accurate w' = accurate w /\ inaccurate w' = inaccurate w
        /\ seeking w' = seeking w
        /\ type_encode (Weapon_pluginSchema W) (weapon_plugins w) = Ok plugins
        /\ type_encode (Weapon_pluginSchema W') (weapon_plugins w') = Ok plugins)
  /\ (exists b b' plugins,
        baseHeap W !! base x = Some b /\ baseHeap W' !! base x' = Some b'
        /\ base_accuracy b' = base_accuracy b /\ base_difficulty b' = base_difficulty b
        /\ base_cover b' = base_cover b
        /\ type_encode (Base_pluginSchema W) (base_plugins b) = Ok plugins
        /\ type_encode (Base_pluginSchema W') (base_plugins b') = Ok plugins)
  /\ Forall2 (fun t t' =>
        exists y y' tk tk' plugins,
          targetHeap W !! t = Some y /\ targetHeap W' !! t' = Some y'
          /\ tokenHeap W !! target y = Some tk /\ tokenHeap W' !! target y' = Some tk'
          /\ token_id tk' = token_id tk
          /\ target_accuracy y' = target_accuracy y
          /\ target_difficulty y' = target_difficulty y
          /\ target_cover y' = target_cover y
          /\ consumeLockOn y' = consumeLockOn y
          /\ type_encode (Target_pluginSchema W) (target_plugins y) = Ok plugins
          /\ type_encode (Target_pluginSchema W') (target_plugins y') = Ok plugins)
       (targets x) (targets x').

(** ** The registry as registration builds it *)

Definition hasPerRoll (p : AccDiffPlugin) : bool := bool_decide (is_Some (perRoll p)).
Definition hasPerUnknownTarget (p : AccDiffPlugin) : bool :=
  bool_decide (is_Some (perUnknownTarget p)).
Definition hasPerTarget (p : AccDiffPlugin) : bool := bool_decide (is_Some (perTarget p)).

(** The plugin schema that registering the plugins [ps], in this order,
    builds from the empty one, for the entity whose default [produces]
    tells of. *)
Definition schemaOf (produces : AccDiffPlugin -> bool) (ps : list AccDiffPlugin)
    : PluginSchema :=
  fold_left (fun s p => if produces p then schemaSet (slug p) (codec p) s else s) ps [].

(** The static fields are what registering [AccDiffData.plugins] one after
    the other has made them. *)
Definition registryOK (W : World) : Prop :=
  Weapon_pluginSchema W = schemaOf hasPerRoll (Data_plugins W)
  /\ Base_pluginSchema W = schemaOf hasPerUnknownTarget (Data_plugins W)
  /\ Target_pluginSchema W = schemaOf hasPerTarget (Data_plugins W)
  /\ Data_targetedPlugins W = List.filter hasPerTarget (Data_plugins W).

(** What [registerPlugin] leaves alone. *)
Definition sameHeaps (W W' : World) : Prop :=
  weaponHeap W' = weaponHeap W /\ baseHeap W' = baseHeap W
  /\ targetHeap W' = targetHeap W /\ tokenHeap W' = tokenHeap W
  /\ sceneTokens W' = sceneTokens W /\ notifications W' = notifications W
  /\ events W' = events W.

(** ** Hydrated plugin maps *)

(** The plugin map [o'] has the keys of [o], in their order, and holds the
    data of [o] passed once through [hydrate(d, holder)]. *)
Definition slotsHydrated (d : AccDiffData) (h : option Holder) (o o' : object) : Prop :=
  keys o' = keys o
  /\ forall k y, get k o = Some (VData y) ->
       get k o' = Some (VData (pluginHydrate d h y)).

(** ** What the validation rejects *)


(** The same key with the path under which the decoding reports it. *)
Inductive unknownKeyAt (W : World) (o : object) : Path -> Prop :=
| unknown_weapon (wo po : object) (k : string) :
    prop "weapon" o = VObj wo -> prop "plugins" wo = VObj po ->
    In k (keys po) -> schemaGet k (Weapon_pluginSchema W) = None ->
    unknownKeyAt W o ["weapon"; "plugins"; k]
| unknown_base (bo po : object) (k : string) :
    prop "base" o = VObj bo -> prop "plugins" bo = VObj po ->
    In k (keys po) -> schemaGet k (Base_pluginSchema W) = None ->
    unknownKeyAt W o ["base"; "plugins"; k]
| unknown_target (us : list value) (j : nat) (tobj po : object) (k : string) :
    prop "targets" o = VArr us -> us !! j = Some (VObj tobj) ->
    prop "plugins" tobj = VObj po ->
    In k (keys po) -> schemaGet k (Target_pluginSchema W) = None ->
    unknownKeyAt W o ["targets"; pretty j; "plugins"; k].

(** ** The defaults of the factory *)

(** A codec that validates what it encodes. *)
Definition acceptsOwn (type : PluginCodec) : Prop :=
  forall x, is_Some (plugin_validate type (plugin_encode type x)).

(** The plugin map [m] has the keys of the schema [s], and under each the
    encoding, by the codec the schema has for the key, of some data of a
    plugin of [ps]. *)
Definition filledBy (ps : list AccDiffPlugin) (s : PluginSchema) (m : object) : Prop :=
  NoDup (keys m) /\ (forall k, In k (keys m) <-> In k (s.*1))
  /\ forall k type, schemaGet k s = Some type ->
       exists p x, In p ps /\ type = codec p /\ get k m = Some (plugin_encode type x).

(** The record [fromParams] builds for the token [r]. *)
Definition recordOf (W : World) (r : ref) (u : value) : Prop :=
  exists tk m,
    tokenHeap W !! r = Some tk
    /\ targetDefaults (Data_targetedPlugins W) tk [] = Ok m
    /\ u = VObj [("target_id", VStr (token_id tk)); ("accuracy", VNum 0);
                 ("difficulty", VNum 0); ("cover", VNum (Cover.value Cover.None));
                 ("consumeLockOn", VBool true); ("plugins", VObj m)].

End Vocabulary.

(** * Examples *)

(** A host for the examples: the data of a plugin is a number and a mark
    that hydration sets. *)
Definition demoHost : PluginHost :=
  {| PluginData := number * bool;
     LancerItem := unit;
     pluginHydrate := fun _ _ d => (d.1, true) |}.

Definition demoData (n : number) (hydrated : bool) : @value demoHost :=
  @VData demoHost (n, hydrated).

(** An effect with [flags.core.statusId]. *)
Definition status (statusId : string) : Effect := mkEffect (Some (Some statusId)).

(** An inaccurate weapon, a base in soft cover, one target in hard cover
    whose token carries the lock-on condition; all three hydrated. *)
Definition lockedWorld : @World demoHost :=
  mkWorld
    [mkWeapon false true false []]
    [mkBase 1 0 (Cover.value Cover.Soft) [] (Some 0%nat)]
    [mkTarget 0%nat 0 2 (Cover.value Cover.Hard) true [] (Some 0%nat) (Some 0%nat)]
    [mkToken "tokA" (Some (mkActor [status "burn"; status "lockon"]))]
    [0%nat] [] [] [] [] [] [] [].

(** Roll data as [new AccDiffWeapon], [new AccDiffBase] and
    [new AccDiffTarget] leave them: a weapon, a base and two targets that
    hold plugin data, no back-reference set yet. *)
Definition unhydratedWorld : @World demoHost :=
  mkWorld
    [mkWeapon true false false [("inv", demoData 0 false)]]
    [mkBase 1 0 (Cover.value Cover.None) [] None]
    [mkTarget 0%nat 0 0 (Cover.value Cover.None) true [("inv", demoData 1 false)] None None;
     mkTarget 1%nat 0 0 (Cover.value Cover.Soft) true [("inv", demoData (-1) false)] None None]
    [mkToken "tokA" (Some (mkActor [])); mkToken "tokB" (Some (mkActor [status "lockon"]))]
    [0%nat; 1%nat] [] [] [] [] [] [] [].

Definition demoDatum (n : number) (hydrated : bool) : @PluginData demoHost :=
  (n, hydrated).

Definition demoNumber (d : @PluginData demoHost) : number := fst d.

(** A plugin in the manner of [Invisibility]: its plain form is a number,
    its data instance carries that number. *)
Definition demoCodec : @PluginCodec demoHost :=
  mkCodec (fun v => match v with
                    | VNum n => Some (demoDatum n false)
                    | _ => None
                    end)
    (fun d => VNum (demoNumber d)).

Definition demoPlugin : @AccDiffPlugin demoHost :=
  mkPlugin "inv" demoCodec
    (Some (fun _ => demoDatum 0 false))
    (Some (fun _ => demoDatum 7 false))
    (Some (fun tk => demoDatum (if token_actor tk is Some (mkActor (_ :: _))
                                then 1 else 0) false)).

(** Three tokens, of which the scene on the canvas has the first two. *)
Definition sceneWorld : @World demoHost :=
  mkWorld [] [] []
    [mkToken "tokA" (Some (mkActor []));
     mkToken "tokB" (Some (mkActor [status "lockon"]));
     mkToken "tokC" (Some (mkActor []))]
    [0%nat; 1%nat] [] [] [] [] [] [] [].

(** [AccDiffData.registerPlugin(demoPlugin)] has run. *)
Definition registeredWorld : @World demoHost :=
  (AccDiffData_registerPlugin demoPlugin sceneWorld).2.

Definition plainTarget (id : string) (plugins : @object demoHost) : @value demoHost :=
  VObj [("target_id", VStr id); ("accuracy", VNum 0); ("difficulty", VNum 0);
        ("cover", VNum 0); ("consumeLockOn", VBool true); ("plugins", VObj plugins)].

Definition plainRoll (weapon_plugins base_plugins : @object demoHost)
    (targets : list (@value demoHost)) : @object demoHost :=
  [("title", VStr "Shot");
   ("weapon", VObj [("accurate", VBool false); ("inaccurate", VBool false);
                    ("seeking", VBool false); ("plugins", VObj weapon_plugins)]);
   ("base", VObj [("accuracy", VNum 0); ("difficulty", VNum 0); ("cover", VNum 0);
                  ("plugins", VObj base_plugins)]);
   ("targets", VArr targets)].

(** A plain object whose weapon has a plugin key nobody registered. *)
Definition strayObject : @object demoHost :=
  plainRoll [("inv", VNum 0); ("zzz", VNum 1)] [("inv", VNum 7)] [].

(** A plain object whose base lacks the registered key. *)
Definition lackingObject : @object demoHost :=
  plainRoll [("inv", VNum 0)] [] [plainTarget "tokA" [("inv", VNum 0)]].

(** A plain object whose second target names a token of another scene. *)
Definition staleObject : @object demoHost :=
  plainRoll [("inv", VNum 0)] [("inv", VNum 7)]
    [plainTarget "tokA" [("inv", VNum 0)]; plainTarget "tokC" [("inv", VNum 0)]].

Definition tagged (lid : string) : TagInstance := mkTagInstance (mkTagTemplate lid).

(** The store after [fromParams(undefined, tags, "Shot", [tokA, tokB], [1, 0])]. *)
Definition shotWorld : @World demoHost :=
  Eval vm_compute in
    (AccDiffData_fromParams None
       (Some [tagged "tg_accurate"; tagged "tg_seeking"; tagged "tg_smart";
              tagged "tg_accurate"])
       (Some "Shot") (Some [0%nat; 1%nat]) (Some (1, 0)%float) registeredWorld).2.

(** A plain object with a weapon, a base and two targets, each with its
    entry of the registered plugin. *)
Definition shotObject : @object demoHost :=
  plainRoll [("inv", VNum 0)] [("inv", VNum 7)]
    [plainTarget "tokA" [("inv", VNum 0)]; plainTarget "tokB" [("inv", VNum 1)]].

(** The store once [AccDiffData.fromObject(shotObject)] has returned. *)
Definition decodedWorld : @World demoHost :=
  Eval vm_compute in (AccDiffData_fromObject (VObj shotObject) registeredWorld).2.

(** Entities as their constructors leave them, of which the weapon was
    given a plugin map with a slot that holds no plugin data. *)
Definition strayWorld : @World demoHost :=
  mkWorld
    [mkWeapon false false false [("inv", demoData 0 false); ("zzz", VNum 1)]]
    [mkBase 0 0 (Cover.value Cover.None) [("inv", demoData 7 false)] None]
    []
    [mkToken "tokA" (Some (mkActor []));
     mkToken "tokB" (Some (mkActor [status "lockon"]));
     mkToken "tokC" (Some (mkActor []))]
    [0%nat; 1%nat] [] [] [("inv", demoCodec)] [("inv", demoCodec)] [("inv", demoCodec)]
    [demoPlugin] [demoPlugin].

(** A plugin whose codec does not take back what it gives out: it decodes a
    number and encodes to a string. *)
Definition skewCodec : @PluginCodec demoHost :=
  mkCodec (fun v => match v with
                    | VNum n => Some (demoDatum n false)
                    | _ => None
                    end)
    (fun _ => VStr "skew").

Definition skewPlugin : @AccDiffPlugin demoHost :=
  mkPlugin "inv" skewCodec (Some (fun _ => demoDatum 0 false)) None None.

(** [AccDiffData.registerPlugin(skewPlugin)] has run. *)
Definition skewWorld : @World demoHost :=
  (AccDiffData_registerPlugin skewPlugin sceneWorld).2.

Definition skewObject : @object demoHost := plainRoll [("inv", VNum 0)] [] [].

(** [decodedWorld] once the canvas shows a scene without tokens. *)
Definition elsewhereWorld : @World demoHost :=
  mkWorld (weaponHeap decodedWorld) (baseHeap decodedWorld) (targetHeap decodedWorld)
    (tokenHeap decodedWorld) [] (notifications decodedWorld) (events decodedWorld)
    (Weapon_pluginSchema decodedWorld) (Base_pluginSchema decodedWorld)
    (Target_pluginSchema decodedWorld) (Data_plugins decodedWorld)
    (Data_targetedPlugins decodedWorld).

(** A plugin whose codec decodes [undefined] as its default. *)
Definition lenientCodec : @PluginCodec demoHost :=
  mkCodec (fun v => match v with
                    | VNum n => Some (demoDatum n false)
                    | VUndefined => Some (demoDatum 0 false)
                    | _ => None
                    end)
    (fun d => VNum (demoNumber d)).

Definition lenientPlugin : @AccDiffPlugin demoHost :=
  mkPlugin "inv" lenientCodec (Some (fun _ => demoDatum 0 false)) None None.

(** [AccDiffData.registerPlugin(lenientPlugin)] has run. *)
Definition lenientWorld : @World demoHost :=
  (AccDiffData_registerPlugin lenientPlugin sceneWorld).2.

(** A hydrated base whose accuracy is 2^54, a double that has no
    neighbour at distance one. *)
Definition bigWorld : @World demoHost :=
  mkWorld
    [mkWeapon false false false []]
    [mkBase 18014398509481984 0 (Cover.value Cover.None) [] (Some 0%nat)]
    [] [] [] [] [] [] [] [] [] [].


(** A plain object whose base lacks the registered key and whose target
    conforms and names a token of another scene. *)
Definition staleLackingObject : @object demoHost :=
  plainRoll [("inv", VNum 0)] [] [plainTarget "tokC" [("inv", VNum 0)]].

(** A plain object whose target names a token of another scene and lacks
    the registered key. *)
Definition staleRejectedObject : @object demoHost :=
  plainRoll [("inv", VNum 0)] [("inv", VNum 7)] [plainTarget "tokC" []].

(** A weapon, two bases and a target, as their constructors leave them. *)
Definition sharedWorld : @World demoHost :=
  mkWorld
    [mkWeapon false false false []]
    [mkBase 0 0 (Cover.value Cover.None) [] None;
     mkBase 5 0 (Cover.value Cover.None) [] None]
    [mkTarget 0%nat 0 0 (Cover.value Cover.None) true [] None None]
    [mkToken "tokA" (Some (mkActor []))]
    [0%nat] [] [] [] [] [] [] [].

(** * The totals *)

Section Totals.
Context {host : PluginHost}.

Lemma deref_Some {A} (heap : World -> list A) (r : ref) (x : A) (W : World) :
  heap W !! r = Some x -> deref heap r W = (Ok x, W).
Proof. intros H. unfold deref. now rewrite H. Qed.

Lemma bind_Ok {A B} (m : M A) (k : A -> M B) (W W' : World) (a : A) :
  m W = (Ok a, W') -> bind m k W = k a W'.
Proof. intros H. unfold bind. now rewrite H. Qed.

Lemma bind_Throw {A B} (m : M A) (k : A -> M B) (W W' : World) (e : Error) :
  m W = (Throw e, W') -> bind m k W = (Throw e, W').
Proof. intros H. unfold bind. now rewrite H. Qed.

Lemma private_weapon_Some (field : option ref) (r : ref) (w : AccDiffWeapon) (W : World) :
  field = Some r -> weaponHeap W !! r = Some w ->
  (r <- private field ;; readWeapon r) W = (Ok w, W).
Proof.
  intros -> H. unfold private. erewrite bind_Ok by reflexivity.
  now apply deref_Some.
Qed.

Lemma private_base_Some (field : option ref) (r : ref) (b : AccDiffBase) (W : World) :
  field = Some r -> baseHeap W !! r = Some b ->
  (r <- private field ;; readBase r) W = (Ok b, W).
Proof.
  intros -> H. unfold private. erewrite bind_Ok by reflexivity.
  now apply deref_Some.
Qed.

Lemma AccDiffBase_total_eval (W : World) (this : ref) (x : AccDiffBase)
    (wr : ref) (w : AccDiffWeapon) :
  baseHeap W !! this = Some x -> base_weapon x = Some wr ->
  weaponHeap W !! wr = Some w ->
  AccDiffBase_total this W =
    (Ok (base_accuracy x - base_difficulty x + flag (accurate w)
         - flag (inaccurate w)
         - (if seeking w then 0 else base_cover x))%float, W).
Proof.
  intros Hx Hr Hw. unfold AccDiffBase_total.
  erewrite bind_Ok by (apply deref_Some; exact Hx).
  do 3 (erewrite bind_Ok by (eapply private_weapon_Some; eassumption)).
  reflexivity.
Qed.

Lemma AccDiffBase_setCover_eval (W : World) (this : ref) (x : AccDiffBase)
    (c : Cover.t) :
  baseHeap W !! this = Some x ->
  AccDiffBase_setCover this c W =
    (Ok tt, with_baseHeap (<[this := mkBase (base_accuracy x) (base_difficulty x)
                                       (Cover.value c) (base_plugins x)
                                       (base_weapon x)]>
                             (baseHeap W)) W).
Proof.
  intros Hx. unfold AccDiffBase_setCover.
  erewrite bind_Ok by (apply deref_Some; exact Hx). reflexivity.
Qed.

Lemma liftResult_run {A} (r : Result A) (W : World) :
  liftResult r W = (r, W).
Proof. now destruct r. Qed.

Lemma AccDiffTarget_lockOnAvailable_eval (W : World) (this : ref) (x : AccDiffTarget)
    (tk : Token) :
  targetHeap W !! this = Some x -> tokenHeap W !! target x = Some tk ->
  AccDiffTarget_lockOnAvailable this W = (lockOnOf tk, W).
Proof.
  intros Hx Htk. unfold AccDiffTarget_lockOnAvailable, lockOnOf.
  erewrite bind_Ok by (apply deref_Some; exact Hx).
  erewrite bind_Ok by (apply (deref_Some tokenHeap); exact Htk).
  destruct (token_actor tk); [apply liftResult_run|reflexivity].
Qed.

Lemma AccDiffTarget_usingLockOn_eval (W : World) (this : ref) (x : AccDiffTarget)
    (tk : Token) :
  targetHeap W !! this = Some x -> tokenHeap W !! target x = Some tk ->
  AccDiffTarget_usingLockOn this W = (usingOf x tk, W).
Proof.
  intros Hx Htk. unfold AccDiffTarget_usingLockOn, usingOf.
  erewrite bind_Ok by (apply deref_Some; exact Hx).
  destruct (consumeLockOn x); [|reflexivity].
  exact (AccDiffTarget_lockOnAvailable_eval W this x tk Hx Htk).
Qed.

Lemma AccDiffTarget_total_eval (W : World) (this : ref) (x : AccDiffTarget)
    (wr : ref) (w : AccDiffWeapon) (br : ref) (b : AccDiffBase) (tk : Token) :
  targetHeap W !! this = Some x ->
  target_weapon x = Some wr -> weaponHeap W !! wr = Some w ->
  target_base x = Some br -> baseHeap W !! br = Some b ->
  tokenHeap W !! target x = Some tk ->
  AccDiffTarget_total this W =
    (match usingOf x tk with
     | Ok u =>
         Ok (target_accuracy x - target_difficulty x + flag (accurate w)
             - flag (inaccurate w)
             - (if seeking w then 0 else target_cover x)
             + base_accuracy b - base_difficulty b
             + (if u is Some _ then 1 else 0))%float
     | Throw e => Throw e
     end, W).
Proof.
  intros Hx Hwr Hw Hbr Hb Htk. unfold AccDiffTarget_total.
  erewrite bind_Ok by (apply deref_Some; exact Hx).
  do 3 (erewrite bind_Ok by (eapply private_weapon_Some; eassumption)).
  do 2 (erewrite bind_Ok by (eapply private_base_Some; eassumption)).
  pose proof (AccDiffTarget_usingLockOn_eval W this x tk Hx Htk) as Hu.
  destruct (usingOf x tk) as [u|e].
  - erewrite bind_Ok by exact Hu. reflexivity.
  - erewrite bind_Throw by exact Hu. reflexivity.
Qed.

End Totals.

(** * Objects as association lists *)

Section Objects.
Context {host : PluginHost}.

Lemma get_set_eq (k : string) (v : value) (o : object) :
  get k (set k v o) = Some v.
Proof.
  induction o as [|[k' v'] o IH]; cbn.
  - now rewrite String.eqb_refl.
  - destruct (String.eqb k k') eqn:E; cbn; rewrite ?String.eqb_refl, ?E; auto.
Qed.

Lemma get_set_ne (k k' : string) (v : value) (o : object) :
  k <> k' -> get k' (set k v o) = get k' o.
Proof.
  intros Hne. induction o as [|[k0 v0] o IH]; cbn.
  - destruct (String.eqb k' k) eqn:E; [|reflexivity].
    apply String.eqb_eq in E. congruence.
  - destruct (String.eqb k k0) eqn:E; cbn.
    + apply String.eqb_eq in E. subst k0.
      destruct (String.eqb k' k) eqn:E'; [|reflexivity].
      apply String.eqb_eq in E'. congruence.
    + now rewrite IH.
Qed.

Lemma prop_set_eq (k : string) (v : value) (o : object) :
  prop k (set k v o) = v.
Proof. unfold prop. now rewrite get_set_eq. Qed.

Lemma prop_set_ne (k k' : string) (v : value) (o : object) :
  k <> k' -> prop k' (set k v o) = prop k' o.
Proof. intros H. unfold prop. now rewrite get_set_ne. Qed.

Lemma get_None (k : string) (o : object) :
  get k o = None <-> ~ In k (keys o).
Proof.
  induction o as [|[k' v'] o IH]; cbn; [tauto|].
  destruct (String.eqb k k') eqn:E.
  - apply String.eqb_eq in E. subst. split; [discriminate|tauto].
  - apply String.eqb_neq in E. rewrite IH.
    split; [intros H [?|?]; [congruence|tauto]|tauto].
Qed.

Lemma get_Some_In (k : string) (v : value) (o : object) :
  get k o = Some v -> In k (keys o).
Proof.
  intros H. destruct (in_dec String.string_dec k (keys o)) as [|Hn]; [assumption|].
  apply get_None in Hn. congruence.
Qed.

Lemma keys_set_In (k : string) (v : value) (o : object) :
  In k (keys o) -> keys (set k v o) = keys o.
Proof.
  induction o as [|[k' v'] o IH]; cbn; [tauto|].
  destruct (String.eqb k k') eqn:E; cbn.
  - apply String.eqb_eq in E. now subst.
  - apply String.eqb_neq in E. intros [?|H]; [congruence|].
    f_equal. now apply IH.
Qed.

Lemma keys_set_notIn (k : string) (v : value) (o : object) :
  ~ In k (keys o) -> keys (set k v o) = keys o ++ [k].
Proof.
  induction o as [|[k' v'] o IH]; cbn; [reflexivity|].
  destruct (String.eqb k k') eqn:E; cbn.
  - apply String.eqb_eq in E. subst. tauto.
  - intros H. f_equal. apply IH. tauto.
Qed.

(** Two objects with the same keys, in the same order and without
    repetition, and the same properties, are the same object. *)
Lemma object_ext (o1 o2 : object) :
  NoDup (keys o1) -> keys o1 = keys o2 ->
  (forall k, In k (keys o1) -> get k o1 = get k o2) -> o1 = o2.
Proof.
  revert o2. induction o1 as [|[k v] o1 IH]; intros [|[k2 v2] o2]; cbn;
    try discriminate; [reflexivity|].
  intros Hnd Hk Hg. inversion Hk; subst k2. apply NoDup_cons in Hnd as [Hk1 Hnd].
  pose proof (Hg k (or_introl eq_refl)) as Hv. rewrite String.eqb_refl in Hv.
  inversion Hv; subst v2. f_equal. apply IH; [assumption|assumption|].
  intros k' Hin. specialize (Hg k' (or_intror Hin)).
  destruct (String.eqb k' k) eqn:E; [|assumption].
  apply String.eqb_eq in E. subst k'. exfalso. apply Hk1.
  now apply list_elem_of_In.
Qed.

(** ** Hydrating a plugin map *)

Lemma hydratePlugins_keys (d : AccDiffData) (h : option Holder) (ks : list string)
    (o : object) :
  (forall k, In k ks -> In k (keys o)) ->
  keys (hydratePlugins d h ks o).2 = keys o.
Proof.
  revert o. induction ks as [|k ks IH]; intros o Hin; cbn; [reflexivity|].
  destruct (prop k o); try reflexivity.
  rewrite IH.
  - apply keys_set_In, Hin. now left.
  - intros k' Hk'. rewrite keys_set_In; apply Hin; [now right|now left].
Qed.

Lemma hydratePlugins_Ok (d : AccDiffData) (h : option Holder) (ks : list string)
    (o : object) :
  forallb (fun k => isData (prop k o)) ks = true ->
  (hydratePlugins d h ks o).1 = Ok tt.
Proof.
  revert o. induction ks as [|k ks IH]; intros o Hall; cbn; [reflexivity|].
  cbn in Hall. apply andb_true_iff in Hall as [Hk Hall].
  destruct (prop k o) eqn:E; try discriminate.
  apply IH. apply forallb_forall. intros k' Hk'.
  rewrite forallb_forall in Hall. specialize (Hall k' Hk').
  destruct (String.string_dec k k') as [->|Hne].
  - now rewrite prop_set_eq.
  - now rewrite prop_set_ne.
Qed.

(** The slots after hydration: data still, hydrated at least once. *)
Lemma hydratePlugins_data (d : AccDiffData) (h : option Holder) (ks : list string)
    (o : object) (k : string) :
  forallb (fun k => isData (prop k o)) ks = true ->
  isData (prop k o) = true ->
  isData (prop k (hydratePlugins d h ks o).2) = true.
Proof.
  revert o. induction ks as [|k0 ks IH]; intros o Hall Hk; cbn; [assumption|].
  cbn in Hall. apply andb_true_iff in Hall as [Hk0 Hall].
  destruct (prop k0 o) eqn:E; try discriminate.
  apply IH.
  - apply forallb_forall. intros k' Hk'.
    rewrite forallb_forall in Hall. specialize (Hall k' Hk').
    destruct (String.string_dec k0 k') as [->|Hne].
    + now rewrite prop_set_eq.
    + now rewrite prop_set_ne.
  - destruct (String.string_dec k0 k) as [->|Hne].
    + now rewrite prop_set_eq.
    + now rewrite prop_set_ne.
Qed.

Lemma allData_hydrated (d : AccDiffData) (h : option Holder) (o : object) :
  allData o = true ->
  allData (hydratePlugins d h (keys o) o).2 = true.
Proof.
  intros Hall. unfold allData. rewrite hydratePlugins_keys by auto.
  apply forallb_forall. intros k Hk.
  apply hydratePlugins_data; [assumption|].
  unfold allData in Hall. rewrite forallb_forall in Hall. now apply Hall.
Qed.

End Objects.

(** * Hydration *)

Section Hydration.
Context {host : PluginHost}.

Lemma hydratePlugins_split (d : AccDiffData) (h : option Holder) (o : object) :
  allData o = true ->
  hydratePlugins d h (keys o) o = (Ok tt, hydratedPlugins d h o).
Proof.
  intros Hall. unfold hydratedPlugins.
  pose proof (hydratePlugins_Ok d h (keys o) o Hall) as H.
  destruct (hydratePlugins d h (keys o) o) as [r o']. cbn in *. now subst.
Qed.

Lemma AccDiffWeapon_hydrate_eval (W : World) (this : ref) (d : AccDiffData)
    (x : AccDiffWeapon) :
  weaponHeap W !! this = Some x -> allData (weapon_plugins x) = true ->
  AccDiffWeapon_hydrate this d W =
    (Ok tt, with_events (events W ++ [HydrateWeapon this])
              (with_weaponHeap (<[this := hydratedWeaponObj d x]> (weaponHeap W)) W)).
Proof.
  intros Hx Hall. unfold AccDiffWeapon_hydrate.
  erewrite bind_Ok by reflexivity.
  erewrite bind_Ok by (apply deref_Some; cbn; exact Hx).
  rewrite hydratePlugins_split by assumption.
  erewrite bind_Ok by reflexivity. reflexivity.
Qed.

Lemma AccDiffBase_hydrate_eval (W : World) (this : ref) (d : AccDiffData)
    (x : AccDiffBase) :
  baseHeap W !! this = Some x -> allData (base_plugins x) = true ->
  AccDiffBase_hydrate this d W =
    (Ok tt, with_events (events W ++ [HydrateBase this; SetBaseWeapon this (weapon d)])
              (with_baseHeap (<[this := hydratedBaseObj d this x]> (baseHeap W)) W)).
Proof.
  intros Hx Hall. unfold AccDiffBase_hydrate.
  erewrite bind_Ok by reflexivity.
  erewrite bind_Ok by (apply deref_Some; cbn; exact Hx).
  erewrite bind_Ok by reflexivity.
  erewrite bind_Ok by reflexivity.
  rewrite hydratePlugins_split by assumption.
  erewrite bind_Ok by reflexivity. cbn.
  unfold ret, with_events, with_baseHeap; cbn.
  rewrite list_insert_insert_eq, <- app_assoc. reflexivity.
Qed.

Lemma AccDiffTarget_hydrate_eval (W : World) (this : ref) (d : AccDiffData)
    (x : AccDiffTarget) :
  targetHeap W !! this = Some x -> allData (target_plugins x) = true ->
  AccDiffTarget_hydrate this d W =
    (Ok tt, with_events (events W ++ [HydrateTarget this; SetTargetWeapon this (weapon d);
                                      SetTargetBase this (base d)])
              (with_targetHeap (<[this := hydratedTargetObj d this x]> (targetHeap W)) W)).
Proof.
  intros Hx Hall. unfold AccDiffTarget_hydrate.
  erewrite bind_Ok by reflexivity.
  erewrite bind_Ok by (apply deref_Some; cbn; exact Hx).
  do 4 (erewrite bind_Ok by reflexivity).
  rewrite hydratePlugins_split by assumption.
  erewrite bind_Ok by reflexivity. cbn.
  unfold ret, with_events, with_targetHeap; cbn.
  rewrite !list_insert_insert_eq, <- !app_assoc. reflexivity.
Qed.

(** The loop over the targets, when they are distinct objects. *)
Lemma forEach_hydrate (d : AccDiffData) (ts : list ref) (W : World) :
  NoDup ts ->
  (forall t, t ∈ ts -> exists x, targetHeap W !! t = Some x
                                 /\ allData (target_plugins x) = true) ->
  exists heap : list AccDiffTarget,
    forEach ts (fun t => AccDiffTarget_hydrate t d) W =
      (Ok tt, with_events (events W ++
                 flat_map (fun t => [HydrateTarget t; SetTargetWeapon t (weapon d);
                                     SetTargetBase t (base d)]) ts)
                (with_targetHeap heap W))
    /\ length heap = length (targetHeap W)
    /\ forall t x, targetHeap W !! t = Some x ->
         heap !! t = Some (if bool_decide (t ∈ ts) then hydratedTargetObj d t x else x).
Proof.
  revert W. induction ts as [|t ts IH]; intros W Hnd Hall.
  - exists (targetHeap W). cbn. split; [|split; [reflexivity|]].
    + unfold ret. rewrite app_nil_r. now destruct W.
    + intros t x Hx. rewrite bool_decide_eq_false_2 by apply not_elem_of_nil.
      assumption.
  - apply NoDup_cons in Hnd as [Hnt Hnd].
    destruct (Hall t (list_elem_of_here t ts)) as (x & Hx & Hd).
    set (W1 := with_events (events W ++ [HydrateTarget t; SetTargetWeapon t (weapon d);
                                          SetTargetBase t (base d)])
                 (with_targetHeap (<[t := hydratedTargetObj d t x]> (targetHeap W)) W)).
    destruct (IH W1 Hnd) as (heap & Hrun & Hlen & Hheap).
    { intros t' Hin. destruct (Hall t' (list_elem_of_further _ t _ Hin)) as (x' & Hx' & Hd').
      exists x'. split; [|assumption]. cbn.
      rewrite list_lookup_insert_ne; [assumption|].
      intros ->. now apply Hnt. }
    exists heap. split; [|split].
    + cbn [forEach]. erewrite bind_Ok by (eapply AccDiffTarget_hydrate_eval; eassumption).
      fold W1. rewrite Hrun. cbn. unfold with_events, with_targetHeap; cbn.
      now rewrite <- app_assoc.
    + rewrite Hlen. cbn. apply length_insert.
    + intros t' x' Hx'. destruct (decide (t' = t)) as [->|Hne].
      * rewrite bool_decide_eq_true_2 by apply list_elem_of_here.
        assert (x' = x) as -> by congruence.
        specialize (Hheap t (hydratedTargetObj d t x)). cbn in Hheap.
        rewrite Hheap.
        -- now rewrite bool_decide_eq_false_2.
        -- apply list_lookup_insert_eq. eapply lookup_lt_Some; eassumption.
      * specialize (Hheap t' x'). cbn in Hheap. rewrite Hheap.
        -- destruct (bool_decide (t' ∈ ts)) eqn:E.
           ++ rewrite bool_decide_eq_true_2; [reflexivity|].
              apply list_elem_of_further. now apply bool_decide_eq_true_1 in E.
           ++ rewrite bool_decide_eq_false_2; [reflexivity|].
              apply bool_decide_eq_false_1 in E.
              intros Hin. apply elem_of_cons in Hin as [?|?]; [congruence|tauto].
        -- rewrite list_lookup_insert_ne by congruence. assumption.
Qed.

End Hydration.

(** * Computations that only read *)

Section ReadOnly.
Context {host : PluginHost}.

Lemma readOnly_ret {A} (a : A) : readOnly (ret a).
Proof. now intros W. Qed.

Lemma readOnly_throw {A} (e : Error) : readOnly (@throw _ A e).
Proof. now intros W. Qed.

Lemma readOnly_gets {A} (f : World -> A) : readOnly (gets f).
Proof. now intros W. Qed.

Lemma readOnly_deref {A} (heap : World -> list A) (r : ref) : readOnly (deref heap r).
Proof. intros W. unfold deref. now destruct (heap W !! r). Qed.

Lemma readOnly_bind {A B} (m : M A) (k : A -> M B) :
  readOnly m -> (forall a, readOnly (k a)) -> readOnly (bind m k).
Proof.
  intros Hm Hk W. unfold bind. specialize (Hm W).
  destruct (m W) as [[a|e] W1]; cbn in *; subst; [apply Hk|reflexivity].
Qed.

Lemma readOnly_liftResult {A} (r : Result A) : readOnly (liftResult r).
Proof. destruct r; [apply readOnly_ret|apply readOnly_throw]. Qed.

Lemma readOnly_private (field : option ref) : readOnly (private field).
Proof. destruct field; [apply readOnly_ret|apply readOnly_throw]. Qed.

Lemma readOnly_readWeapon (r : ref) : readOnly (readWeapon r).
Proof. apply readOnly_deref. Qed.

Lemma readOnly_readBase (r : ref) : readOnly (readBase r).
Proof. apply readOnly_deref. Qed.

Lemma readOnly_readTarget (r : ref) : readOnly (readTarget r).
Proof. apply readOnly_deref. Qed.

Lemma readOnly_readToken (r : ref) : readOnly (readToken r).
Proof. apply readOnly_deref. Qed.

Create HintDb readonly.
#[local] Hint Resolve readOnly_ret readOnly_throw readOnly_gets readOnly_deref
  readOnly_liftResult readOnly_private readOnly_readWeapon readOnly_readBase
  readOnly_readTarget readOnly_readToken : readonly.

Ltac read_only :=
  repeat first
    [ apply readOnly_bind; [|intros ?]
    | solve [auto with readonly]
    | match goal with |- readOnly (if ?b then _ else _) => destruct b end
    | match goal with |- readOnly (match ?x with _ => _ end) => destruct x end ].

Lemma readOnly_AccDiffBase_total (this : ref) : readOnly (AccDiffBase_total this).
Proof. unfold AccDiffBase_total. read_only. Qed.

Lemma readOnly_AccDiffTarget_usingLockOn (this : ref) :
  readOnly (AccDiffTarget_usingLockOn this).
Proof.
  unfold AccDiffTarget_usingLockOn, AccDiffTarget_lockOnAvailable.
  read_only.
Qed.

Lemma readOnly_AccDiffTarget_total (this : ref) : readOnly (AccDiffTarget_total this).
Proof. unfold AccDiffTarget_total. read_only. Qed.

Lemma readOnly_array_encode_loop {A} (item : Codec A) (xs : list A) :
  (forall x, readOnly (encodeWith item x)) ->
  readOnly (array_encode_loop item xs).
Proof.
  intros Hitem. induction xs as [|x xs IH]; cbn; [apply readOnly_ret|].
  read_only; auto.
Qed.

Lemma AccDiffData_toObject_unfold (this : AccDiffData) (W : World) :
  AccDiffData_toObject this W =
    encodeWith (enclass (AccDiffData_schemaCodec (Weapon_pluginSchema W)
                           (Base_pluginSchema W) (Target_pluginSchema W))
                  new_AccDiffData AccDiffData_raw) this W.
Proof. reflexivity. Qed.

Lemma readOnly_encode_AccDiffData (ws bs ts : PluginSchema) (this : AccDiffData) :
  readOnly (encodeWith (enclass (AccDiffData_schemaCodec ws bs ts)
                          new_AccDiffData AccDiffData_raw) this).
Proof.
  cbn. unfold AccDiffData_raw. read_only.
  apply readOnly_array_encode_loop. intros x. cbn.
  unfold AccDiffTarget_raw. read_only.
Qed.

Lemma readOnly_AccDiffData_toObject (this : AccDiffData) :
  readOnly (AccDiffData_toObject this).
Proof.
  intros W. rewrite AccDiffData_toObject_unfold. apply readOnly_encode_AccDiffData.
Qed.

End ReadOnly.

(** * The constructor of the aggregate *)

Section Constructor.
Context {host : PluginHost}.

Lemma new_AccDiffData_eval (W : World) (obj : AccDiffData) (w : AccDiffWeapon)
    (b : AccDiffBase) :
  weaponHeap W !! weapon obj = Some w -> allData (weapon_plugins w) = true ->
  baseHeap W !! base obj = Some b -> allData (base_plugins b) = true ->
  NoDup (targets obj) ->
  (forall t, t ∈ targets obj ->
     exists x, targetHeap W !! t = Some x /\ allData (target_plugins x) = true) ->
  exists heap : list AccDiffTarget,
    new_AccDiffData obj W =
      (Ok obj,
       with_events (events W ++ hydrationLog obj)
         (with_targetHeap heap
            (with_baseHeap (<[base obj := hydratedBaseObj obj (base obj) b]> (baseHeap W))
               (with_weaponHeap (<[weapon obj := hydratedWeaponObj obj w]> (weaponHeap W))
                  W))))
    /\ length heap = length (targetHeap W)
    /\ forall t x, targetHeap W !! t = Some x ->
         heap !! t = Some (if bool_decide (t ∈ targets obj)
                           then hydratedTargetObj obj t x else x).
Proof.
  intros Hw Hwd Hb Hbd Hnd Hts. destruct obj as [ti wr br ts]. cbn in *.
  set (d := mkData ti wr br ts).
  set (W1 := with_events (events W ++ [HydrateWeapon wr])
               (with_weaponHeap (<[wr := hydratedWeaponObj d w]> (weaponHeap W)) W)).
  set (W2 := with_events (events W1 ++ [HydrateBase br; SetBaseWeapon br wr])
               (with_baseHeap (<[br := hydratedBaseObj d br b]> (baseHeap W1)) W1)).
  destruct (forEach_hydrate d ts W2 Hnd Hts) as (heap & Hrun & Hlen & Hheap).
  exists heap. split; [|split; assumption].
  unfold new_AccDiffData. cbn [title weapon base targets]. fold d.
  erewrite bind_Ok by (apply (AccDiffWeapon_hydrate_eval W wr d w); assumption).
  fold W1.
  erewrite bind_Ok by (apply (AccDiffBase_hydrate_eval W1 br d b); assumption).
  fold W2. erewrite bind_Ok by exact Hrun.
  unfold ret, hydrationLog. cbn. unfold with_events, with_targetHeap, with_baseHeap,
    with_weaponHeap; cbn. f_equal. f_equal. now rewrite <- !app_assoc.
Qed.

Lemma NoDup_hydrationLog (d : AccDiffData) :
  NoDup (targets d) -> NoDup (hydrationLog d).
Proof.
  intros Hnd. unfold hydrationLog.
  assert (Hin : forall e, e ∈ flat_map (fun t => [HydrateTarget t;
                 SetTargetWeapon t (weapon d); SetTargetBase t (base d)]) (targets d) ->
               exists t, t ∈ targets d /\
                 (e = HydrateTarget t \/ e = SetTargetWeapon t (weapon d)
                  \/ e = SetTargetBase t (base d))).
  { intros e He. apply list_elem_of_In, in_flat_map in He as (t & Ht & He).
    exists t. split; [now apply list_elem_of_In|]. cbn in He. intuition. }
  assert (Hflat : NoDup (flat_map (fun t => [HydrateTarget t;
                 SetTargetWeapon t (weapon d); SetTargetBase t (base d)]) (targets d))).
  { clear Hin. induction (targets d) as [|t ts IH]; cbn; [constructor|].
    apply NoDup_cons in Hnd as [Hnt Hnd]. specialize (IH Hnd).
    assert (Hout : forall e, (e = HydrateTarget t \/ e = SetTargetWeapon t (weapon d)
                              \/ e = SetTargetBase t (base d)) ->
                   e ∉ flat_map (fun t => [HydrateTarget t;
                     SetTargetWeapon t (weapon d); SetTargetBase t (base d)]) ts).
    { intros e He Hin. apply list_elem_of_In, in_flat_map in Hin as (t' & Ht' & Hin).
      assert (t' = t) as -> by (cbn in Hin; intuition congruence).
      apply Hnt. now apply list_elem_of_In. }
    apply NoDup_cons. split.
    { rewrite !not_elem_of_cons. repeat split; try discriminate. apply Hout; tauto. }
    apply NoDup_cons. split.
    { rewrite !not_elem_of_cons. repeat split; try discriminate. apply Hout; tauto. }
    apply NoDup_cons. split; [apply Hout; tauto | assumption]. }
  assert (Hnot : forall e, (forall t, e <> HydrateTarget t /\
                   e <> SetTargetWeapon t (weapon d) /\ e <> SetTargetBase t (base d)) ->
                 e ∉ flat_map (fun t => [HydrateTarget t;
                     SetTargetWeapon t (weapon d); SetTargetBase t (base d)]) (targets d)).
  { intros e He H. apply Hin in H as (t & _ & H). specialize (He t). intuition. }
  apply NoDup_cons. split.
  { rewrite !not_elem_of_cons. repeat split; try discriminate.
    apply Hnot. intros t. repeat split; discriminate. }
  apply NoDup_cons. split.
  { rewrite !not_elem_of_cons. repeat split; try discriminate.
    apply Hnot. intros t. repeat split; discriminate. }
  apply NoDup_cons. split; [|assumption].
  apply Hnot. intros t. repeat split; discriminate.
Qed.

End Constructor.

(** * Decoding *)

Section Decoding.
Context {host : PluginHost}.

Lemma frame_refl (W : World) : frame W W.
Proof. repeat split. Qed.

Lemma frame_trans (W1 W2 W3 : World) : frame W1 W2 -> frame W2 W3 -> frame W1 W3.
Proof. unfold frame. intuition congruence. Qed.

Lemma tokens_get_frame (id : string) (W W' : World) :
  frame W W' -> tokens_get id W' = tokens_get id W.
Proof. intros (Ht & Hs & _). unfold tokens_get. now rewrite Ht, Hs. Qed.

Lemma bind_assoc {A B C} (m : M A) (f : A -> M B) (g : B -> M C) (W : World) :
  bind (bind m f) g W = bind m (fun x => bind (f x) g) W.
Proof. unfold bind. now destruct (m W) as [[a|e] W1]. Qed.

Lemma AccDiffWeapon_codec_validate (ps : PluginSchema) (u : value) (c : Path)
    (W : World) :
  validate (AccDiffWeapon_codec ps) u c W =
    match AccDiffWeapon_schema_validate ps u c with
    | inl e => (Ok (inl e), W)
    | inr obj => (Ok (inr (length (weaponHeap W))), allocWeapon obj W)
    end.
Proof.
  cbn. unfold liftValidation, bind, ret.
  destruct (AccDiffWeapon_schema_validate ps u c) as [e|[]]; reflexivity.
Qed.

Lemma AccDiffBase_codec_validate (ps : PluginSchema) (u : value) (c : Path)
    (W : World) :
  validate (AccDiffBase_codec ps) u c W =
    match AccDiffBase_schema_validate ps u c with
    | inl e => (Ok (inl e), W)
    | inr obj => (Ok (inr (length (baseHeap W))), allocBase obj W)
    end.
Proof.
  cbn. unfold liftValidation, bind, ret.
  destruct (AccDiffBase_schema_validate ps u c) as [e|[]]; reflexivity.
Qed.

Lemma AccDiffTarget_codec_validate (ps : PluginSchema) (u : value) (c : Path)
    (W : World) :
  validate (AccDiffTarget_codec ps) u c W =
    match AccDiffTarget_schema_validate ps u c with
    | inl e => (Ok (inl e), W)
    | inr obj =>
        match tokens_get (raw_target_id obj) W with
        | None => (Throw TokenNotFound,
                   with_notifications (notifications W ++ [tokenNotFound]) W)
        | Some tk => (Ok (inr (length (targetHeap W))), allocTarget (targetOf tk obj) W)
        end
    end.
Proof.
  cbn. unfold liftValidation, bind, ret, gets.
  destruct (AccDiffTarget_schema_validate ps u c) as [e|obj]; [reflexivity|].
  cbn. destruct (tokens_get (raw_target_id obj) W); reflexivity.
Qed.

Lemma frame_allocWeapon (obj : AccDiffWeapon) (W : World) : frame W (allocWeapon obj W).
Proof. repeat split. Qed.

Lemma frame_allocBase (obj : BaseRaw) (W : World) : frame W (allocBase obj W).
Proof. repeat split. Qed.

Lemma frame_allocTarget (x : AccDiffTarget) (W : World) : frame W (allocTarget x W).
Proof. repeat split. Qed.

(** [AccDiffData.fromObject], the validation of the four properties laid
    out in the order io-ts runs them. *)
Lemma decode_known {A} (input : value) (type : Codec A) :
  unknownKeys type input [] = [] ->
  decode input type =
    (v <- validate type input [] ;;
     match v with
     | inl errors => throw (ValidationError errors)
     | inr x => ret x
     end).
Proof. intros H. unfold decode. now rewrite H. Qed.

Lemma AccDiffData_fromObject_unknown (o : object) (W : World) :
  unknownOf W o <> [] ->
  AccDiffData_fromObject (VObj o) W = (Throw (ValidationError (unknownOf W o)), W).
Proof.
  intros H. unfold AccDiffData_fromObject, AccDiffData_codec, decode, bind, gets.
  cbn -[AccDiffData_schemaCodec]. fold (unknownOf W o).
  destruct (unknownOf W o); [congruence|reflexivity].
Qed.

Lemma AccDiffData_fromObject_unfold (o : object) (W : World) :
  unknownOf W o = [] ->
  AccDiffData_fromObject (VObj o) W =
    (vweapon <- validate (AccDiffWeapon_codec (Weapon_pluginSchema W))
                  (prop "weapon" o) ["weapon"] ;;
     vbase <- validate (AccDiffBase_codec (Base_pluginSchema W))
                (prop "base" o) ["base"] ;;
     vtargets <- validate (t_array (AccDiffTarget_codec (Target_pluginSchema W)))
                   (prop "targets" o) ["targets"] ;;
     match ap (ap (ap (ap (inr mkData) (t_string (prop "title" o) ["title"]))
                 vweapon) vbase) vtargets with
     | inl errors => throw (ValidationError errors)
     | inr obj => new_AccDiffData obj
     end) W.
Proof.
  intros Hun. unfold AccDiffData_fromObject, AccDiffData_codec, bind, gets, ret.
  rewrite decode_known by exact Hun.
  cbn -[AccDiffWeapon_codec AccDiffBase_codec AccDiffTarget_codec t_array
        new_AccDiffData].
  unfold liftValidation, bind, ret.
  destruct (validate (AccDiffWeapon_codec _) _ _ W) as [[vw|?] W1]; [|reflexivity].
  destruct (validate (AccDiffBase_codec _) _ _ W1) as [[vb|?] W2]; [|reflexivity].
  destruct (validate (t_array _) _ _ W2) as [[vt|?] W3]; [|reflexivity].
  destruct (ap _ vt); [reflexivity|].
  destruct (new_AccDiffData _ W3) as [[?|?] ?]; reflexivity.
Qed.

Lemma AccDiffWeapon_codec_frame (ps : PluginSchema) (u : value) (c : Path) (W : World) :
  exists v W1, validate (AccDiffWeapon_codec ps) u c W = (Ok v, W1) /\ frame W W1.
Proof.
  rewrite AccDiffWeapon_codec_validate.
  destruct (AccDiffWeapon_schema_validate ps u c); do 2 eexists;
    (split; [reflexivity|]); [apply frame_refl|apply frame_allocWeapon].
Qed.

Lemma AccDiffBase_codec_frame (ps : PluginSchema) (u : value) (c : Path) (W : World) :
  exists v W1, validate (AccDiffBase_codec ps) u c W = (Ok v, W1) /\ frame W W1.
Proof.
  rewrite AccDiffBase_codec_validate.
  destruct (AccDiffBase_schema_validate ps u c); do 2 eexists;
    (split; [reflexivity|]); [apply frame_refl|apply frame_allocBase].
Qed.

Lemma ap_incl_r {A B} (f : Validation (A -> B)) (e : Errors) :
  exists e', ap f (inl e) = inl e' /\ incl e e'.
Proof.
  destruct f as [e0|f]; cbn; eexists; (split; [reflexivity|]);
    [apply incl_appr|]; apply incl_refl.
Qed.

Lemma ap_incl_l {A B} (e : Errors) (x : Validation A) :
  exists e', @ap A B (inl e) x = inl e' /\ incl e e'.
Proof.
  destruct x as [e0|x]; cbn; eexists; (split; [reflexivity|]);
    [apply incl_appl|]; apply incl_refl.
Qed.

(** The loop of [t.array] over the target records.  Either it ends with a
    validation, having run the constructor of every record that conforms,
    each on a token of the scene; or it stops in the constructor of the
    first record that conforms and names a token the scene does not have. *)
Lemma array_validate_loop_cases (ps : PluginSchema) (us : list value) (i : nat)
    (c : Path) (W : World) :
  (exists v W',
     array_validate_loop (AccDiffTarget_codec ps) us i c W = (Ok v, W')
     /\ frame W W'
     /\ (forall j u e, us !! j = Some u ->
           AccDiffTarget_schema_validate ps u (c ++ [pretty (i + j)%nat]) = inl e ->
           exists errors, v = inl errors /\ incl e errors)
     /\ (forall j u obj, us !! j = Some u ->
           AccDiffTarget_schema_validate ps u (c ++ [pretty (i + j)%nat]) = inr obj ->
           tokens_get (raw_target_id obj) W <> None))
  \/ (exists W',
        array_validate_loop (AccDiffTarget_codec ps) us i c W = (Throw TokenNotFound, W')
        /\ notifications W' = notifications W ++ [tokenNotFound]
        /\ events W' = events W
        /\ exists j u obj, us !! j = Some u
             /\ AccDiffTarget_schema_validate ps u (c ++ [pretty (i + j)%nat]) = inr obj
             /\ tokens_get (raw_target_id obj) W = None).
Proof.
  revert i W. induction us as [|u0 us IH]; intros i W.
  - left. do 2 eexists. split; [reflexivity|]. split; [apply frame_refl|].
    split; intros j u ? Hj; discriminate.
  - cbn [array_validate_loop].
    pose proof (AccDiffTarget_codec_validate ps u0 (c ++ [pretty i]) W) as Hhead.
    destruct (AccDiffTarget_schema_validate ps u0 (c ++ [pretty i])) as [e0|obj0] eqn:E0.
    + destruct (IH (S i) W) as [(v & W' & Hrun & F & Herr & Hres)
                               |(W' & Hrun & Hn & He & j & u & obj & Hj & Hv & Hg)].
      * left. do 2 eexists.
        split; [erewrite bind_Ok by exact Hhead; erewrite bind_Ok by exact Hrun;
                reflexivity|].
        split; [exact F|]. split.
        -- intros [|j] u e Hj Hv.
           ++ cbn in Hj. injection Hj as ->. rewrite Nat.add_0_r, E0 in Hv.
              injection Hv as ->. cbn. apply ap_incl_l.
           ++ cbn in Hj. rewrite <- Nat.add_succ_comm in Hv.
              destruct (Herr j u e Hj Hv) as (errors & -> & Hin).
              destruct (ap_incl_r (ap (inr (@cons ref)) (inl e0)) errors)
                as (e' & -> & Hin').
              exists e'. split; [reflexivity|]. eapply incl_tran; eassumption.
        -- intros [|j] u obj Hj Hv.
           ++ cbn in Hj. injection Hj as ->. rewrite Nat.add_0_r, E0 in Hv. discriminate.
           ++ cbn in Hj. rewrite <- Nat.add_succ_comm in Hv. exact (Hres j u obj Hj Hv).
      * right. exists W'.
        split; [erewrite bind_Ok by exact Hhead; now apply bind_Throw|].
        split; [exact Hn|]. split; [exact He|].
        exists (S j), u, obj. rewrite <- Nat.add_succ_comm. auto.
    + destruct (tokens_get (raw_target_id obj0) W) as [tk|] eqn:Eg.
      2:{ right. eexists. split; [apply bind_Throw; exact Hhead|].
          split; [reflexivity|]. split; [reflexivity|].
          exists 0%nat, u0, obj0. rewrite Nat.add_0_r. auto. }
      destruct (IH (S i) (allocTarget (targetOf tk obj0) W))
        as [(v & W' & Hrun & F & Herr & Hres)
           |(W' & Hrun & Hn & He & j & u & obj & Hj & Hv & Hg)].
      * left. do 2 eexists.
        split; [erewrite bind_Ok by exact Hhead; erewrite bind_Ok by exact Hrun;
                reflexivity|].
        split; [eapply frame_trans; [apply frame_allocTarget|exact F]|]. split.
        -- intros [|j] u e Hj Hv.
           ++ cbn in Hj. injection Hj as ->. rewrite Nat.add_0_r, E0 in Hv. discriminate.
           ++ cbn in Hj. rewrite <- Nat.add_succ_comm in Hv.
              destruct (Herr j u e Hj Hv) as (errors & -> & Hin).
              destruct (ap_incl_r (ap (inr (@cons ref)) (inr (length (targetHeap W)))) errors)
                as (e' & -> & Hin').
              exists e'. split; [reflexivity|]. eapply incl_tran; eassumption.
        -- intros [|j] u obj Hj Hv.
           ++ cbn in Hj. injection Hj as ->. rewrite Nat.add_0_r, E0 in Hv.
              injection Hv as <-. congruence.
           ++ cbn in Hj. rewrite <- Nat.add_succ_comm in Hv.
              rewrite <- (tokens_get_frame _ W _ (frame_allocTarget (targetOf tk obj0) W)).
              exact (Hres j u obj Hj Hv).
      * right. exists W'.
        split; [erewrite bind_Ok by exact Hhead; now apply bind_Throw|].
        split; [exact Hn|]. split; [exact He|].
        exists (S j), u, obj. rewrite <- Nat.add_succ_comm.
        rewrite <- (tokens_get_frame _ W _ (frame_allocTarget (targetOf tk obj0) W)).
        auto.
Qed.

(** [AccDiffData.fromObject] up to the constructor of the aggregate: either
    the four properties are validated, the constructors of the entities
    having only allocated, or the constructor of a target has thrown. *)
Lemma AccDiffData_fromObject_cases (W : World) (o : object) :
  unknownOf W o = [] ->
  (exists vw vb vt W3,
     frame W W3 /\ ~ targetUnresolved W o
     /\ (forall e, AccDiffWeapon_schema_validate (Weapon_pluginSchema W)
                     (prop "weapon" o) ["weapon"] = inl e -> vw = inl e)
     /\ (forall e, AccDiffBase_schema_validate (Base_pluginSchema W)
                     (prop "base" o) ["base"] = inl e -> vb = inl e)
     /\ (forall us j u e,
           prop "targets" o = VArr us -> us !! j = Some u ->
           AccDiffTarget_schema_validate (Target_pluginSchema W) u ["targets"; pretty j]
             = inl e ->
           exists errors, vt = inl errors /\ incl e errors)
     /\ AccDiffData_fromObject (VObj o) W =
          match ap (ap (ap (ap (inr mkData) (t_string (prop "title" o) ["title"]))
                      vw) vb) vt with
          | inl errors => (Throw (ValidationError errors), W3)
          | inr obj => new_AccDiffData obj W3
          end)
  \/ (targetUnresolved W o
      /\ exists W', AccDiffData_fromObject (VObj o) W = (Throw TokenNotFound, W')
                    /\ notifications W' = notifications W ++ [tokenNotFound]
                    /\ events W' = events W).
Proof.
  intros Hun. rewrite AccDiffData_fromObject_unfold by exact Hun.
  assert (Hw : exists vw W1,
             validate (AccDiffWeapon_codec (Weapon_pluginSchema W)) (prop "weapon" o)
               ["weapon"] W = (Ok vw, W1) /\ frame W W1
             /\ forall e, AccDiffWeapon_schema_validate (Weapon_pluginSchema W)
                            (prop "weapon" o) ["weapon"] = inl e -> vw = inl e).
  { rewrite AccDiffWeapon_codec_validate.
    destruct (AccDiffWeapon_schema_validate _ _ _); do 2 eexists;
      (split; [reflexivity|]); (split; [first [apply frame_refl|apply frame_allocWeapon]|]);
      congruence. }
  destruct Hw as (vw & W1 & Hw & F1 & Hwe).
  assert (Hb : exists vb W2,
             validate (AccDiffBase_codec (Base_pluginSchema W)) (prop "base" o)
               ["base"] W1 = (Ok vb, W2) /\ frame W1 W2
             /\ forall e, AccDiffBase_schema_validate (Base_pluginSchema W)
                            (prop "base" o) ["base"] = inl e -> vb = inl e).
  { rewrite AccDiffBase_codec_validate.
    destruct (AccDiffBase_schema_validate _ _ _); do 2 eexists;
      (split; [reflexivity|]); (split; [first [apply frame_refl|apply frame_allocBase]|]);
      congruence. }
  destruct Hb as (vb & W2 & Hb & F2 & Hbe).
  pose proof (frame_trans _ _ _ F1 F2) as F.
  erewrite bind_Ok by exact Hw. erewrite bind_Ok by exact Hb.
  cbn [validate t_array].
  destruct (prop "targets" o) as [| | | | |us| |] eqn:Hus;
    try (left; exists vw, vb, (inl [["targets"]]), W2; split; [exact F|];
         split; [intros (? & ? & ? & ? & ? & _); congruence|];
         split; [exact Hwe|]; split; [exact Hbe|];
         split; [intros; congruence|]; cbn [UnknownArray]; unfold bind, ret, throw;
         destruct (ap (ap (ap (inr mkData) _) vw) vb); reflexivity).
  cbn [UnknownArray].
  destruct (array_validate_loop_cases (Target_pluginSchema W) us 0 ["targets"] W2)
    as [(vt & W3 & Hrun & F3 & Herr & Hres)
       |(W' & Hrun & Hn & He & j & u & obj & Hj & Hv & Hg)].
  - left. exists vw, vb, vt, W3. split; [eapply frame_trans; eassumption|].
    split.
    { intros (us' & j & u & obj & Hus' & Hj & Hv & Hg).
      rewrite Hus in Hus'. injection Hus' as <-.
      apply (Hres j u obj Hj Hv). now rewrite (tokens_get_frame _ _ _ F). }
    split; [exact Hwe|]. split; [exact Hbe|]. split.
    { intros us' j u e [= <-] Hj Hv. exact (Herr j u e Hj Hv). }
    erewrite bind_Ok by exact Hrun. now destruct (ap _ vt).
  - right. split.
    { exists us, j, u, obj. rewrite <- (tokens_get_frame _ _ _ F). auto. }
    exists W'. split; [now apply bind_Throw|].
    destruct F as (_ & _ & Hn2 & He2 & _). rewrite Hn, He, Hn2, He2. auto.
Qed.

Lemma ap_mkData_inl (vt : Validation string) (vw vb : Validation ref)
    (vts : Validation (list ref)) :
  (exists e, vw = inl e) \/ (exists e, vb = inl e) \/ (exists e, vts = inl e) ->
  exists errors,
    ap (ap (ap (ap (inr mkData) vt) vw) vb) vts = inl errors
    /\ (forall e, vw = inl e -> incl e errors)
    /\ (forall e, vb = inl e -> incl e errors)
    /\ (forall e, vts = inl e -> incl e errors).
Proof.
  intros H.
  destruct vt as [e0|ti], vw as [e1|w], vb as [e2|b], vts as [e3|ts]; cbn;
    try (exfalso; destruct H as [[? ?]|[[? ?]|[? ?]]]; discriminate);
    eexists; (split; [reflexivity|]);
    repeat split; intros e [= <-]; auto using incl_refl, incl_appl, incl_appr.
Qed.

Lemma AccDiffTarget_schema_validate_target_id (ps : PluginSchema) (uo : object)
    (c : Path) (obj : TargetRaw) :
  AccDiffTarget_schema_validate ps (VObj uo) c = inr obj ->
  prop "target_id" uo = VStr (raw_target_id obj).
Proof.
  unfold AccDiffTarget_schema_validate. cbn [UnknownRecord].
  destruct (prop "target_id" uo) as [| | | |id| | |]; cbn [t_string];
    try (destruct (t_number _ _), (t_number _ _), (coverSchema _ _), (t_boolean _ _),
           (type_validate _ _ _); discriminate).
  destruct (t_number _ _), (t_number _ _), (coverSchema _ _), (t_boolean _ _),
    (type_validate _ _ _); cbn; try discriminate.
  now intros [= <-].
Qed.

End Decoding.

(** * Validation of the plugin maps *)

Section PluginMaps.
Context {host : PluginHost}.

Lemma type_validate_loop_incl (props : PluginSchema) (c : Path) (a : object)
    (errors : Errors) (p : Path) :
  In p errors -> In p (type_validate_loop props c a errors).2.
Proof.
  revert a errors. induction props as [|[k type] props IH]; intros a errors Hin;
    cbn; [assumption|].
  destruct (plugin_validate type (prop k a)); apply IH; [assumption|].
  apply in_or_app. now left.
Qed.

Lemma type_validate_loop_missing (props : PluginSchema) (c : Path) (a : object)
    (errors : Errors) (k : string) (type : PluginCodec) :
  schemaGet k props = Some type -> get k a = None ->
  plugin_validate type VUndefined = None ->
  In (c ++ [k]) (type_validate_loop props c a errors).2.
Proof.
  revert a errors. induction props as [|[k0 type0] props IH]; intros a errors Hs Hg Hv;
    [discriminate|].
  cbn in Hs |- *. destruct (String.eqb k k0) eqn:E.
  - apply String.eqb_eq in E. subst k0. injection Hs as ->.
    unfold prop at 1. rewrite Hg. cbn. rewrite Hv.
    apply type_validate_loop_incl, in_or_app. right. now left.
  - apply String.eqb_neq in E.
    destruct (plugin_validate type0 (prop k0 a)); apply IH; try assumption.
    rewrite get_set_ne by congruence. assumption.
Qed.

Lemma type_validate_missing (props : PluginSchema) (c : Path) (po : object)
    (k : string) (type : PluginCodec) :
  schemaGet k props = Some type -> get k po = None ->
  plugin_validate type VUndefined = None ->
  exists errors, type_validate props (VObj po) c = inl errors /\ In (c ++ [k]) errors.
Proof.
  intros Hs Hg Hv. unfold type_validate. cbn.
  pose proof (type_validate_loop_missing props c po [] k type Hs Hg Hv) as Hin.
  destruct (type_validate_loop props c po []) as [a [|e errors]]; [contradiction|].
  eexists. split; [reflexivity|assumption].
Qed.

Lemma ap_inl_r {A B} (f : Validation (A -> B)) (e : Errors) (p : Path) :
  In p e -> exists e', ap f (inl e) = inl e' /\ In p e'.
Proof.
  intros Hin. destruct f as [e0|f]; cbn; eexists; (split; [reflexivity|]);
    [apply in_or_app; now right|assumption].
Qed.

Lemma ap_inl_l {A B} (e : Errors) (x : Validation A) (p : Path) :
  In p e -> exists e', @ap A B (inl e) x = inl e' /\ In p e'.
Proof.
  intros Hin. destruct x as [e0|x]; cbn; eexists; (split; [reflexivity|]);
    [apply in_or_app; now left|assumption].
Qed.

Lemma AccDiffWeapon_schema_missing (ps : PluginSchema) (wo po : object) (c : Path)
    (k : string) (type : PluginCodec) :
  prop "plugins" wo = VObj po -> schemaGet k ps = Some type -> get k po = None ->
  plugin_validate type VUndefined = None ->
  exists errors, AccDiffWeapon_schema_validate ps (VObj wo) c = inl errors
                 /\ In (c ++ ["plugins"; k]) errors.
Proof.
  intros Hp Hs Hg Hv. unfold AccDiffWeapon_schema_validate. cbn [UnknownRecord]. rewrite Hp.
  destruct (type_validate_missing ps (c ++ ["plugins"]) po k type Hs Hg Hv)
    as (e & -> & Hin).
  rewrite <- app_assoc in Hin. now apply ap_inl_r.
Qed.

Lemma AccDiffBase_schema_missing (ps : PluginSchema) (bo po : object) (c : Path)
    (k : string) (type : PluginCodec) :
  prop "plugins" bo = VObj po -> schemaGet k ps = Some type -> get k po = None ->
  plugin_validate type VUndefined = None ->
  exists errors, AccDiffBase_schema_validate ps (VObj bo) c = inl errors
                 /\ In (c ++ ["plugins"; k]) errors.
Proof.
  intros Hp Hs Hg Hv. unfold AccDiffBase_schema_validate. cbn [UnknownRecord]. rewrite Hp.
  destruct (type_validate_missing ps (c ++ ["plugins"]) po k type Hs Hg Hv)
    as (e & -> & Hin).
  rewrite <- app_assoc in Hin. now apply ap_inl_r.
Qed.

Lemma AccDiffTarget_schema_missing (ps : PluginSchema) (tobj po : object) (c : Path)
    (k : string) (type : PluginCodec) :
  prop "plugins" tobj = VObj po -> schemaGet k ps = Some type -> get k po = None ->
  plugin_validate type VUndefined = None ->
  exists errors, AccDiffTarget_schema_validate ps (VObj tobj) c = inl errors
                 /\ In (c ++ ["plugins"; k]) errors.
Proof.
  intros Hp Hs Hg Hv. unfold AccDiffTarget_schema_validate. cbn [UnknownRecord]. rewrite Hp.
  destruct (type_validate_missing ps (c ++ ["plugins"]) po k type Hs Hg Hv)
    as (e & -> & Hin).
  rewrite <- app_assoc in Hin. now apply ap_inl_r.
Qed.

(** The loop of [t.type] reads the properties the schema declares and no
    other: two objects that agree on them are rejected alike. *)
Lemma type_validate_loop_declared (props : PluginSchema) (c : Path) (a1 a2 : object)
    (errors : Errors) :
  (forall k, In k (props.*1) -> prop k a2 = prop k a1) ->
  (type_validate_loop props c a2 errors).2 = (type_validate_loop props c a1 errors).2.
Proof.
  revert a1 a2 errors. induction props as [|[k0 type] props IH]; intros a1 a2 errors Hagree;
    cbn; [reflexivity|].
  rewrite (Hagree k0 (or_introl eq_refl)).
  destruct (plugin_validate type (prop k0 a1)) as [vak|].
  - apply IH. intros k Hk. destruct (String.string_dec k0 k) as [->|Hne].
    + now rewrite !prop_set_eq.
    + rewrite !prop_set_ne by assumption. apply Hagree. now right.
  - apply IH. intros k Hk. apply Hagree. now right.
Qed.

(** It leaves the properties the schema does not declare as they are. *)
Lemma type_validate_loop_undeclared (props : PluginSchema) (c : Path) (a : object)
    (errors : Errors) (k : string) :
  ~ In k (props.*1) -> get k (type_validate_loop props c a errors).1 = get k a.
Proof.
  revert a errors. induction props as [|[k0 type] props IH]; intros a errors Hk;
    cbn; [reflexivity|].
  cbn in Hk. destruct (plugin_validate type (prop k0 a)) as [vak|].
  - rewrite IH by tauto. apply get_set_ne. tauto.
  - apply IH. tauto.
Qed.

Lemma schemaGet_None_keys (k : string) (s : PluginSchema) :
  schemaGet k s = None -> ~ In k (s.*1).
Proof.
  induction s as [|[k' c'] s IH]; cbn; [tauto|].
  destruct (String.eqb k k') eqn:E; [discriminate|].
  apply String.eqb_neq in E. intros H [?|?]; [congruence|]. now apply IH.
Qed.

(** An entry under a key the schema does not declare changes nothing in
    the validation of a plugin map, and is kept. *)
Lemma type_validate_undeclared (props : PluginSchema) (po : object) (c : Path)
    (k : string) (v : value) :
  schemaGet k props = None ->
  match type_validate props (VObj (set k v po)) c with
  | inr a => get k a = Some v /\ exists a0, type_validate props (VObj po) c = inr a0
  | inl e => type_validate props (VObj po) c = inl e
  end.
Proof.
  intros Hk. apply schemaGet_None_keys in Hk. unfold type_validate. cbn [UnknownRecord].
  pose proof (type_validate_loop_declared props c po (set k v po) []) as Herr.
  pose proof (type_validate_loop_undeclared props c (set k v po) [] k Hk) as Hkept.
  rewrite get_set_eq in Hkept.
  destruct (type_validate_loop props c (set k v po) []) as [a e].
  destruct (type_validate_loop props c po []) as [a0 e0]. cbn in Herr, Hkept.
  rewrite Herr.
  - destruct e0; [eauto|reflexivity].
  - intros k0 Hk0. apply prop_set_ne. congruence.
Qed.

End PluginMaps.

(** * Successful decoding *)

Section Construction.
Context {host : PluginHost}.

Lemma constructTargets_frame (ps : PluginSchema) (W W' : World) (us : list value)
    (i : nat) (c : Path) :
  frame W W' -> constructTargets ps W' us i c = constructTargets ps W us i c.
Proof.
  intros F. revert i. induction us as [|u us IH]; intros i; cbn; [reflexivity|].
  destruct (AccDiffTarget_schema_validate ps u (c ++ [pretty i])); [reflexivity|].
  rewrite (tokens_get_frame _ _ _ F). now rewrite IH.
Qed.

Lemma ap_cons_inr {A} (r : Validation A) (rs : Validation (list A)) (l : list A) :
  ap (ap (inr cons) r) rs = inr l ->
  exists x l', r = inr x /\ rs = inr l' /\ l = x :: l'.
Proof.
  destruct r as [e|x], rs as [e'|l']; cbn; try discriminate.
  intros [= <-]. eauto.
Qed.

(** The loop of [t.array] over the target records: it ends with the list of
    the targets exactly when every record conforms and resolves. *)
Lemma array_validate_loop_spec (ps : PluginSchema) (c : Path) (us : list value)
    (i : nat) (W : World) :
  match constructTargets ps W us i c with
  | Some objs =>
      array_validate_loop (AccDiffTarget_codec ps) us i c W =
        (Ok (inr (seq (length (targetHeap W)) (length objs))),
         with_targetHeap (targetHeap W ++ objs) W)
  | None =>
      forall refs W', array_validate_loop (AccDiffTarget_codec ps) us i c W
                      <> (Ok (inr refs), W')
  end.
Proof.
  revert i W. induction us as [|u us IH]; intros i W; cbn [constructTargets].
  - cbn. unfold ret. rewrite app_nil_r. now destruct W.
  - pose proof (AccDiffTarget_codec_validate ps u (c ++ [pretty i]) W) as Hhead.
    destruct (AccDiffTarget_schema_validate ps u (c ++ [pretty i])) as [e|obj].
    { intros refs W'. cbn [array_validate_loop]. unfold bind at 1. rewrite Hhead.
      unfold bind.
      destruct (array_validate_loop (AccDiffTarget_codec ps) us (S i) c W)
        as [[[?|?]|?] ?]; cbn; unfold ret; congruence. }
    destruct (tokens_get (raw_target_id obj) W) as [tk|].
    2:{ intros refs W'. cbn [array_validate_loop]. unfold bind at 1. rewrite Hhead.
        congruence. }
    specialize (IH (S i) (allocTarget (targetOf tk obj) W)).
    rewrite (constructTargets_frame ps W _ us (S i) c (frame_allocTarget _ W)) in IH.
    destruct (constructTargets ps W us (S i) c) as [objs|]; cbn [fmap option_fmap option_map].
    + cbn [array_validate_loop]. unfold bind at 1. rewrite Hhead.
      unfold bind. rewrite IH. cbn. unfold ret, with_targetHeap; cbn.
      rewrite length_app, Nat.add_1_r, <- app_assoc. reflexivity.
    + intros refs W'. cbn [array_validate_loop]. unfold bind at 1. rewrite Hhead.
      unfold bind.
      destruct (array_validate_loop (AccDiffTarget_codec ps) us (S i) c _)
        as [[[?|l]|?] W1] eqn:E; cbn; unfold ret; try congruence.
      exfalso. now apply (IH l W1).
Qed.

Lemma ap_mkData_inr (vt : Validation string) (vw vb : Validation ref)
    (vts : Validation (list ref)) (d : AccDiffData) :
  ap (ap (ap (ap (inr mkData) vt) vw) vb) vts = inr d ->
  exists ti w b ts, vt = inr ti /\ vw = inr w /\ vb = inr b /\ vts = inr ts
                    /\ d = mkData ti w b ts.
Proof.
  destruct vt, vw, vb, vts; cbn; try discriminate. intros [= <-]. eauto 10.
Qed.

Lemma bind_Ok_inv {A B} (m : M A) (k : A -> M B) (W W' : World) (b : B) :
  bind m k W = (Ok b, W') -> exists a W1, m W = (Ok a, W1) /\ k a W1 = (Ok b, W').
Proof.
  unfold bind. destruct (m W) as [[a|e] W1]; [eauto|discriminate].
Qed.

(** The validation phase of [fromObject]: with [decodePlain] it allocates the
    entities and runs the constructor of the aggregate; without, it returns
    no roll data. *)
Lemma AccDiffData_fromObject_spec (o : object) (W : World) :
  match decodePlain W o with
  | Some p =>
      AccDiffData_fromObject (VObj o) W = new_AccDiffData (dataOf W p) (allocated W p)
  | None => forall d W', AccDiffData_fromObject (VObj o) W <> (Ok d, W')
  end.
Proof.
  assert (Hinv : forall d W',
    AccDiffData_fromObject (VObj o) W = (Ok d, W') ->
    unknownOf W o = [] /\ exists ti w b us objs,
      t_string (prop "title" o) ["title"] = inr ti
      /\ AccDiffWeapon_schema_validate (Weapon_pluginSchema W) (prop "weapon" o)
           ["weapon"] = inr w
      /\ AccDiffBase_schema_validate (Base_pluginSchema W) (prop "base" o)
           ["base"] = inr b
      /\ prop "targets" o = VArr us
      /\ constructTargets (Target_pluginSchema W) W us 0 ["targets"] = Some objs).
  { intros d W' H. assert (Hun : unknownOf W o = []).
    { destruct (unknownOf W o) eqn:E; [reflexivity|].
      rewrite AccDiffData_fromObject_unknown in H by (rewrite E; discriminate).
      discriminate. }
    split; [exact Hun|].
    rewrite AccDiffData_fromObject_unfold in H by exact Hun.
    apply bind_Ok_inv in H as (vw & W1 & Hw & H).
    apply bind_Ok_inv in H as (vb & W2 & Hb & H).
    apply bind_Ok_inv in H as (vt & W3 & Ht & H).
    destruct (ap _ vt) as [?|obj] eqn:Hap; [discriminate|].
    apply ap_mkData_inr in Hap as (ti & wr & br & ts & Hti & -> & -> & -> & _).
    rewrite AccDiffWeapon_codec_validate in Hw.
    destruct (AccDiffWeapon_schema_validate _ _ _) as [?|w]; [discriminate|].
    injection Hw as _ <-.
    rewrite AccDiffBase_codec_validate in Hb.
    destruct (AccDiffBase_schema_validate _ _ _) as [?|b]; [discriminate|].
    injection Hb as _ <-.
    cbn [validate t_array] in Ht.
    destruct (prop "targets" o) as [| | | | |us| |]; try discriminate.
    cbn [UnknownArray] in Ht.
    pose proof (array_validate_loop_spec (Target_pluginSchema W) ["targets"] us 0
                  (allocBase b (allocWeapon w W))) as Hloop.
    rewrite (constructTargets_frame _ W) in Hloop
      by (eapply frame_trans; [apply frame_allocWeapon|apply frame_allocBase]).
    destruct (constructTargets (Target_pluginSchema W) W us 0 ["targets"])
      as [objs|] eqn:Ho.
    - exists ti, w, b, us, objs. repeat split; auto.
    - exfalso. exact (Hloop _ _ Ht). }
  destruct (decodePlain W o) as [p|] eqn:Hp.
  - unfold decodePlain in Hp.
    destruct (unknownOf W o) eqn:Hun; [|discriminate].
    destruct (t_string _ _) as [?|ti] eqn:Hti; [discriminate|].
    destruct (AccDiffWeapon_schema_validate _ _ _) as [?|w] eqn:Hw; [discriminate|].
    destruct (AccDiffBase_schema_validate _ _ _) as [?|b] eqn:Hb; [discriminate|].
    destruct (prop "targets" o) as [| | | | |us| |] eqn:Hus; try discriminate.
    destruct (constructTargets _ W us 0 _) as [objs|] eqn:Hobjs; [|discriminate].
    injection Hp as <-.
    rewrite AccDiffData_fromObject_unfold by exact Hun.
    erewrite bind_Ok by (rewrite AccDiffWeapon_codec_validate, Hw; reflexivity).
    erewrite bind_Ok by (rewrite AccDiffBase_codec_validate, Hb; reflexivity).
    pose proof (array_validate_loop_spec (Target_pluginSchema W) ["targets"] us 0
                  (allocBase b (allocWeapon w W))) as Hloop.
    rewrite (constructTargets_frame _ W), Hobjs in Hloop
      by (eapply frame_trans; [apply frame_allocWeapon|apply frame_allocBase]).
    erewrite bind_Ok
      by (cbn [validate t_array]; rewrite Hus; cbn [UnknownArray]; exact Hloop).
    rewrite Hti. reflexivity.
  - intros d W' H.
    destruct (Hinv d W' H) as (Hun & ti & w & b & us & objs & Hti & Hw & Hb & Hus & Ho).
    unfold decodePlain in Hp. rewrite Hun, Hti, Hw, Hb, Hus, Ho in Hp. discriminate.
Qed.

Lemma hydratePlugins_Ok_inv (d : AccDiffData) (h : option Holder) (ks : list string)
    (o : object) :
  (hydratePlugins d h ks o).1 = Ok tt ->
  forallb (fun k => isData (prop k o)) ks = true.
Proof.
  revert o. induction ks as [|k ks IH]; intros o H; cbn in *; [reflexivity|].
  destruct (prop k o) eqn:E; try discriminate. cbn.
  specialize (IH _ H). apply forallb_forall. intros k' Hk'.
  rewrite forallb_forall in IH. specialize (IH k' Hk').
  destruct (String.string_dec k k') as [<-|Hne].
  - now rewrite E.
  - now rewrite prop_set_ne in IH.
Qed.

Lemma liftResult_Ok_inv {A} (r : Result A) (W W' : World) (a : A) :
  liftResult r W = (Ok a, W') -> r = Ok a.
Proof. destruct r; cbn; unfold ret, throw; congruence. Qed.

Lemma AccDiffWeapon_hydrate_Ok_inv (W W' : World) (this : ref) (d : AccDiffData)
    (x : AccDiffWeapon) :
  weaponHeap W !! this = Some x ->
  AccDiffWeapon_hydrate this d W = (Ok tt, W') ->
  allData (weapon_plugins x) = true.
Proof.
  intros Hx H. unfold AccDiffWeapon_hydrate in H.
  erewrite bind_Ok in H by reflexivity.
  erewrite bind_Ok in H by (apply deref_Some; cbn; exact Hx).
  destruct (hydratePlugins d None (keys (weapon_plugins x)) (weapon_plugins x))
    as [r o'] eqn:E.
  erewrite bind_Ok in H by reflexivity.
  apply liftResult_Ok_inv in H. subst r.
  apply (hydratePlugins_Ok_inv d None). now rewrite E.
Qed.

Lemma AccDiffBase_hydrate_Ok_inv (W W' : World) (this : ref) (d : AccDiffData)
    (x : AccDiffBase) :
  baseHeap W !! this = Some x ->
  AccDiffBase_hydrate this d W = (Ok tt, W') ->
  allData (base_plugins x) = true.
Proof.
  intros Hx H. unfold AccDiffBase_hydrate in H.
  erewrite bind_Ok in H by reflexivity.
  erewrite bind_Ok in H by (apply deref_Some; cbn; exact Hx).
  do 2 (erewrite bind_Ok in H by reflexivity).
  destruct (hydratePlugins d (Some (OfBase this)) (keys (base_plugins x)) (base_plugins x))
    as [r o'] eqn:E.
  erewrite bind_Ok in H by reflexivity.
  apply liftResult_Ok_inv in H. subst r.
  apply (hydratePlugins_Ok_inv d (Some (OfBase this))). now rewrite E.
Qed.

Lemma AccDiffTarget_hydrate_Ok_inv (W W' : World) (this : ref) (d : AccDiffData)
    (x : AccDiffTarget) :
  targetHeap W !! this = Some x ->
  AccDiffTarget_hydrate this d W = (Ok tt, W') ->
  allData (target_plugins x) = true.
Proof.
  intros Hx H. unfold AccDiffTarget_hydrate in H.
  erewrite bind_Ok in H by reflexivity.
  erewrite bind_Ok in H by (apply deref_Some; cbn; exact Hx).
  do 4 (erewrite bind_Ok in H by reflexivity).
  destruct (hydratePlugins d (Some (OfTarget this)) (keys (target_plugins x))
              (target_plugins x)) as [r o'] eqn:E.
  erewrite bind_Ok in H by reflexivity.
  apply liftResult_Ok_inv in H. subst r.
  apply (hydratePlugins_Ok_inv d (Some (OfTarget this))). now rewrite E.
Qed.

Lemma forEach_hydrate_Ok_inv (d : AccDiffData) (ts : list ref) (W W' : World) :
  NoDup ts ->
  (forall t, t ∈ ts -> is_Some (targetHeap W !! t)) ->
  forEach ts (fun t => AccDiffTarget_hydrate t d) W = (Ok tt, W') ->
  forall t, t ∈ ts -> exists x, targetHeap W !! t = Some x
                                /\ allData (target_plugins x) = true.
Proof.
  revert W. induction ts as [|t ts IH]; intros W Hnd Hall Hrun t' Ht'.
  { now apply elem_of_nil in Ht'. }
  apply NoDup_cons in Hnd as [Hnt Hnd].
  cbn [forEach] in Hrun. apply bind_Ok_inv in Hrun as ([] & W1 & Hhead & Hrun).
  destruct (Hall t (list_elem_of_here t ts)) as [x Hx].
  pose proof (AccDiffTarget_hydrate_Ok_inv W W1 t d x Hx Hhead) as Hd.
  rewrite (AccDiffTarget_hydrate_eval W t d x Hx Hd) in Hhead. injection Hhead as <-.
  apply elem_of_cons in Ht' as [->|Ht']; [eauto|].
  assert (Hall1 : forall t0, t0 ∈ ts ->
            is_Some (targetHeap (with_events
              (events W ++ [HydrateTarget t; SetTargetWeapon t (weapon d);
                            SetTargetBase t (base d)])
              (with_targetHeap (<[t:=hydratedTargetObj d t x]> (targetHeap W)) W)) !! t0)).
  { intros t0 Ht0. cbn. rewrite list_lookup_insert_ne by (intros ->; contradiction).
    apply Hall. now apply list_elem_of_further. }
  destruct (IH _ Hnd Hall1 Hrun t' Ht') as (x' & Hx' & Hd').
  exists x'. split; [|assumption]. cbn in Hx'.
  rewrite list_lookup_insert_ne in Hx' by (intros ->; contradiction). assumption.
Qed.

Ltac simpl_world :=
  cbn [weaponHeap baseHeap targetHeap tokenHeap sceneTokens notifications events
       Weapon_pluginSchema Base_pluginSchema Target_pluginSchema Data_plugins
       Data_targetedPlugins with_weaponHeap with_baseHeap with_targetHeap
       with_notifications with_events allocWeapon allocBase allocTarget allocated
       dataOf title weapon base targets] in *.

Lemma insert_snoc {A} (l : list A) (x y : A) : <[length l := x]> (l ++ [y]) = l ++ [x].
Proof. rewrite insert_app_r_alt by lia. now rewrite Nat.sub_diag. Qed.

Lemma allocated_weapon (W : World) (p : Decoded) :
  weaponHeap (allocated W p) !! length (weaponHeap W) = Some (d_weapon p).
Proof. cbn. apply list_lookup_middle. reflexivity. Qed.

Lemma allocated_base (W : World) (p : Decoded) :
  baseHeap (allocated W p) !! length (baseHeap W) =
    Some (mkBase (raw_accuracy (d_base p)) (raw_difficulty (d_base p))
            (raw_cover (d_base p)) (raw_plugins (d_base p)) None).
Proof. cbn. apply list_lookup_middle. reflexivity. Qed.

Lemma allocated_target (W : World) (p : Decoded) (t : ref) :
  t ∈ seq (length (targetHeap W)) (length (d_targets p)) ->
  exists j x, t = (length (targetHeap W) + j)%nat /\ d_targets p !! j = Some x
              /\ targetHeap (allocated W p) !! t = Some x.
Proof.
  intros Ht. apply elem_of_seq in Ht as [Hle Hlt].
  exists (t - length (targetHeap W))%nat.
  destruct (lookup_lt_is_Some_2 (d_targets p) (t - length (targetHeap W))%nat) as [x Hx];
    [lia|].
  exists x. split; [lia|]. split; [exact Hx|].
  cbn. rewrite lookup_app_r by lia. exact Hx.
Qed.

(** The constructor of the aggregate on freshly allocated entities. *)
Lemma new_AccDiffData_allocated (W : World) (p : Decoded) :
  hydratable p ->
  exists W', new_AccDiffData (dataOf W p) (allocated W p) = (Ok (dataOf W p), W')
             /\ constructed W p (dataOf W p) W'.
Proof.
  intros (Hw & Hb & Ht).
  destruct (new_AccDiffData_eval (allocated W p) (dataOf W p) (d_weapon p)
              (mkBase (raw_accuracy (d_base p)) (raw_difficulty (d_base p))
                 (raw_cover (d_base p)) (raw_plugins (d_base p)) None))
    as (heap & Hrun & Hlen & Hheap).
  - apply allocated_weapon.
  - exact Hw.
  - apply allocated_base.
  - exact Hb.
  - apply NoDup_seq.
  - intros t Hin. destruct (allocated_target W p t Hin) as (j & x & -> & Hj & Hx).
    exists x. split; [exact Hx|]. rewrite Forall_forall in Ht. apply Ht.
    eapply list_elem_of_lookup_2. exact Hj.
  - eexists. split; [exact Hrun|]. unfold constructed. simpl_world.
    split; [reflexivity|]. split.
    { apply insert_snoc. }
    split.
    { apply insert_snoc. }
    split; [rewrite Hlen; apply length_app|].
    split.
    { intros t x Hx.
      pose proof (Hheap t x (lookup_app_l_Some _ _ _ _ Hx)) as H1.
      rewrite bool_decide_eq_false_2 in H1; [exact H1|].
      rewrite elem_of_seq. apply lookup_lt_Some in Hx. lia. }
    split.
    { intros j x Hj.
      assert (H0 : (targetHeap W ++ d_targets p) !! (length (targetHeap W) + j)%nat
                   = Some x).
      { rewrite lookup_app_r by lia.
        now replace (length (targetHeap W) + j - length (targetHeap W))%nat with j by lia. }
      pose proof (Hheap _ x H0) as H1.
      rewrite bool_decide_eq_true_2 in H1; [exact H1|].
      rewrite elem_of_seq. apply lookup_lt_Some in Hj. lia. }
    repeat split.
Qed.

Lemma new_AccDiffData_allocated_inv (W W' : World) (p : Decoded) (d : AccDiffData) :
  new_AccDiffData (dataOf W p) (allocated W p) = (Ok d, W') -> hydratable p.
Proof.
  intros H. unfold new_AccDiffData in H. cbn [title weapon base targets dataOf] in H.
  fold (dataOf W p) in H.
  apply bind_Ok_inv in H as ([] & W1 & Hw & H).
  apply bind_Ok_inv in H as ([] & W2 & Hb & H).
  apply bind_Ok_inv in H as ([] & W3 & Ht & H).
  pose proof (AccDiffWeapon_hydrate_Ok_inv _ _ _ _ _ (allocated_weapon W p) Hw) as Hwd.
  rewrite (AccDiffWeapon_hydrate_eval _ _ _ _ (allocated_weapon W p) Hwd) in Hw.
  injection Hw as <-.
  assert (Hbl : baseHeap (with_events (events (allocated W p) ++
                   [HydrateWeapon (length (weaponHeap W))])
                 (with_weaponHeap (<[length (weaponHeap W) :=
                    hydratedWeaponObj (dataOf W p) (d_weapon p)]>
                    (weaponHeap (allocated W p))) (allocated W p)))
                !! length (baseHeap W)
                = Some (mkBase (raw_accuracy (d_base p)) (raw_difficulty (d_base p))
                          (raw_cover (d_base p)) (raw_plugins (d_base p)) None))
    by apply allocated_base.
  pose proof (AccDiffBase_hydrate_Ok_inv _ _ _ _ _ Hbl Hb) as Hbd.
  rewrite (AccDiffBase_hydrate_eval _ _ _ _ Hbl Hbd) in Hb. injection Hb as <-.
  split; [exact Hwd|]. split; [exact Hbd|].
  apply Forall_forall. intros x Hx. apply list_elem_of_lookup_1 in Hx as [j Hj].
  eapply forEach_hydrate_Ok_inv with (t := (length (targetHeap W) + j)%nat) in Ht
    as (x' & Hx' & Hd').
  - simpl_world. rewrite lookup_app_r in Hx' by lia.
    replace (length (targetHeap W) + j - length (targetHeap W))%nat with j in Hx' by lia.
    congruence.
  - apply NoDup_seq.
  - intros t Hin. destruct (allocated_target W p t Hin) as (j' & x0 & -> & _ & Hx0).
    simpl_world. rewrite Hx0. eauto.
  - rewrite elem_of_seq. apply lookup_lt_Some in Hj. lia.
Qed.

(** Decoding returns roll data exactly when the plain object validates and
    every plugin slot of the result can be hydrated. *)
Lemma AccDiffData_fromObject_Ok_inv (u : value) (W W' : World) (d : AccDiffData) :
  AccDiffData_fromObject u W = (Ok d, W') ->
  exists o p, u = VObj o /\ decodePlain W o = Some p /\ hydratable p
              /\ constructed W p d W'.
Proof.
  intros H. destruct u as [| | | | | |o|]; try (cbn in H; discriminate).
  pose proof (AccDiffData_fromObject_spec o W) as Hspec.
  destruct (decodePlain W o) as [p|] eqn:Hp; [|now apply Hspec in H].
  rewrite Hspec in H. pose proof (new_AccDiffData_allocated_inv _ _ _ _ H) as Hhyd.
  destruct (new_AccDiffData_allocated W p Hhyd) as (W2 & Hrun & Hc).
  rewrite Hrun in H. injection H as <- <-.
  exists o, p. split; [reflexivity|]. split; [exact Hp|]. split; assumption.
Qed.

Lemma AccDiffData_fromObject_Ok (o : object) (W : World) (p : Decoded) :
  decodePlain W o = Some p -> hydratable p ->
  exists W', AccDiffData_fromObject (VObj o) W = (Ok (dataOf W p), W')
             /\ constructed W p (dataOf W p) W'.
Proof.
  intros Hp Hhyd. pose proof (AccDiffData_fromObject_spec o W) as Hspec.
  rewrite Hp in Hspec. rewrite Hspec. now apply new_AccDiffData_allocated.
Qed.

Lemma constructed_NoDup (W W' : World) (p : Decoded) (d : AccDiffData) :
  constructed W p d W' -> NoDup (targets d).
Proof. intros (-> & _). cbn. apply NoDup_seq. Qed.

Lemma constructed_back_references (W W' : World) (p : Decoded) (d : AccDiffData) :
  constructed W p d W' ->
  (base_weapon <$> baseHeap W' !! base d) = Some (Some (weapon d))
  /\ forall t, t ∈ targets d ->
       (target_weapon <$> targetHeap W' !! t) = Some (Some (weapon d))
       /\ (target_base <$> targetHeap W' !! t) = Some (Some (base d)).
Proof.
  intros (Hd & _ & Hb & _ & _ & Ht & _). split.
  - rewrite Hb. rewrite Hd at 1. cbn [base dataOf].
    rewrite list_lookup_middle by reflexivity. reflexivity.
  - intros t Hin. rewrite Hd in Hin. cbn [targets dataOf] in Hin.
    apply elem_of_seq in Hin as [Hle Hlt].
    destruct (lookup_lt_is_Some_2 (d_targets p) (t - length (targetHeap W))%nat) as [x Hx];
      [lia|].
    specialize (Ht _ x Hx).
    replace (length (targetHeap W) + (t - length (targetHeap W)))%nat with t in Ht by lia.
    assert (H : forall (o : option AccDiffTarget) y,
              o = Some (hydratedTargetObj d t y) ->
              (target_weapon <$> o) = Some (Some (weapon d))
              /\ (target_base <$> o) = Some (Some (base d)))
      by (intros o y ->; now cbn).
    exact (H _ _ Ht).
Qed.

End Construction.

(** * The factory *)

Section FactoryLemmas.
Context {host : PluginHost}.

Lemma readOnly_mapM {A B} (f : A -> M B) (l : list A) :
  (forall x, readOnly (f x)) -> readOnly (mapM f l).
Proof.
  intros Hf. induction l as [|x l IH]; cbn; [apply readOnly_ret|].
  apply readOnly_bind; [apply Hf|]. intros y.
  apply readOnly_bind; [apply IH|]. intros ys. apply readOnly_ret.
Qed.

Lemma readOnly_targetRecord (t : ref) : readOnly (targetRecord t).
Proof.
  unfold targetRecord.
  apply readOnly_bind; [apply readOnly_readToken|]. intros tk.
  apply readOnly_bind; [apply readOnly_gets|]. intros ps.
  apply readOnly_bind; [apply readOnly_liftResult|]. intros o. apply readOnly_ret.
Qed.

(** The loop over the tags only ever raises flags. *)
Lemma fold_tagCase (tags : list TagInstance) (a i s : bool) (plugins : object) :
  fold_left tagCase tags (mkWeapon a i s plugins) =
    mkWeapon (a || existsb (hasLID "tg_accurate") tags)
      (i || existsb (hasLID "tg_inaccurate") tags)
      (s || existsb (hasLID "tg_seeking") tags) plugins.
Proof.
  revert a i s. induction tags as [|tag tags IH]; intros a i s; cbn [fold_left existsb].
  - now rewrite !orb_false_r.
  - unfold tagCase at 2, hasLID at 1 3 5. cbn [accurate inaccurate seeking weapon_plugins].
    destruct (String.eqb (LID (Tag tag)) "tg_accurate") eqn:E1.
    { apply String.eqb_eq in E1. rewrite E1. cbn. rewrite IH.
      now rewrite orb_true_r, !orb_true_l. }
    destruct (String.eqb (LID (Tag tag)) "tg_inaccurate") eqn:E2.
    { apply String.eqb_eq in E2. rewrite E2. cbn. rewrite IH.
      now rewrite orb_true_r, !orb_true_l. }
    destruct (String.eqb (LID (Tag tag)) "tg_seeking") eqn:E3.
    { rewrite IH. now rewrite orb_true_r, !orb_true_l. }
    rewrite IH. reflexivity.
Qed.

Lemma decodePlain_Some_inv (W : World) (o : object) (p : Decoded) :
  decodePlain W o = Some p ->
  t_string (prop "title" o) ["title"] = inr (d_title p)
  /\ AccDiffWeapon_schema_validate (Weapon_pluginSchema W) (prop "weapon" o) ["weapon"]
     = inr (d_weapon p)
  /\ AccDiffBase_schema_validate (Base_pluginSchema W) (prop "base" o) ["base"]
     = inr (d_base p)
  /\ exists us, prop "targets" o = VArr us
                /\ constructTargets (Target_pluginSchema W) W us 0 ["targets"]
                   = Some (d_targets p).
Proof.
  unfold decodePlain. intros H.
  destruct (unknownOf W o); [|discriminate].
  destruct (t_string _ _) as [?|ti]; [discriminate|].
  destruct (AccDiffWeapon_schema_validate _ _ _) as [?|w]; [discriminate|].
  destruct (AccDiffBase_schema_validate _ _ _) as [?|b]; [discriminate|].
  destruct (prop "targets" o) as [| | | | |us| |]; try discriminate.
  destruct (constructTargets _ W us 0 _) as [objs|] eqn:E; [|discriminate].
  injection H as <-. cbn. eauto 10.
Qed.

Lemma AccDiffWeapon_schema_validate_inv (ps : PluginSchema) (wo : object) (c : Path)
    (w : AccDiffWeapon) :
  AccDiffWeapon_schema_validate ps (VObj wo) c = inr w ->
  prop "accurate" wo = VBool (accurate w)
  /\ prop "inaccurate" wo = VBool (inaccurate w)
  /\ prop "seeking" wo = VBool (seeking w)
  /\ type_validate ps (prop "plugins" wo) (c ++ ["plugins"]) = inr (weapon_plugins w).
Proof.
  unfold AccDiffWeapon_schema_validate. cbn [UnknownRecord].
  destruct (prop "accurate" wo); cbn; try (repeat (destruct (t_boolean _ _)); destruct (type_validate _ _ _); cbn; discriminate).
  destruct (prop "inaccurate" wo); cbn; try (repeat (destruct (t_boolean _ _)); destruct (type_validate _ _ _); cbn; discriminate).
  destruct (prop "seeking" wo); cbn; try (destruct (type_validate _ _ _); cbn; discriminate).
  destruct (type_validate _ _ _); cbn; [discriminate|].
  intros [= <-]. cbn. auto.
Qed.

(** What [fromParams] returns, it decoded from the plain object it built. *)
Lemma AccDiffData_fromParams_Ok_inv (W W' : World) (item : option LancerItem)
    (tags : option (list TagInstance)) (supplied : option string)
    (targets : option (list ref)) (starting : option (number * number)) (d : AccDiffData) :
  AccDiffData_fromParams item tags supplied targets starting W = (Ok d, W') ->
  exists p wo,
    constructed W p d W'
    /\ d_title p = rollTitle supplied
    /\ AccDiffWeapon_schema_validate (Weapon_pluginSchema W) (VObj wo) ["weapon"]
       = inr (d_weapon p)
    /\ prop "accurate" wo = VBool (existsb (hasLID "tg_accurate") (default [] tags))
    /\ prop "inaccurate" wo = VBool (existsb (hasLID "tg_inaccurate") (default [] tags))
    /\ prop "seeking" wo = VBool (existsb (hasLID "tg_seeking") (default [] tags)).
Proof.
  unfold AccDiffData_fromParams. intros H.
  apply bind_Ok_inv in H as (ots & W1 & Hts & H).
  assert (W1 = W) as ->.
  { pose proof (readOnly_mapM targetRecord (default [] targets) readOnly_targetRecord W)
      as Hro. now rewrite Hts in Hro. }
  apply bind_Ok_inv in H as (ps & W1 & Hps & H). injection Hps as <- <-.
  apply AccDiffData_fromObject_Ok_inv in H as (o & p & Ho & Hp & _ & Hc).
  injection Ho as <-.
  apply decodePlain_Some_inv in Hp as (Hti & Hw & _ & _).
  cbn in Hti. injection Hti as Hti.
  eexists p, _. split; [exact Hc|]. split; [now symmetry|].
  split; [exact Hw|].
  rewrite fold_tagCase. cbn. auto.
Qed.

Lemma length_append (s1 s2 : string) :
  String.length (s1 +:+ s2) = (String.length s1 + String.length s2)%nat.
Proof. induction s1 as [|a s1 IH]; simpl; [reflexivity|now f_equal]. Qed.

End FactoryLemmas.

(** * Round trip of a plugin map *)

Section PluginRoundTrip.
Context {host : PluginHost}.

Lemma schemaGet_None (k : string) (s : PluginSchema) :
  schemaGet k s = None <-> ~ In k (s.*1).
Proof.
  induction s as [|[k' c'] s IH]; cbn; [tauto|].
  destruct (String.eqb k k') eqn:E.
  - apply String.eqb_eq in E. subst. split; [discriminate|tauto].
  - apply String.eqb_neq in E. rewrite IH.
    split; [intros H [?|?]; [congruence|tauto]|tauto].
Qed.

Lemma schemaGet_In (k : string) (type : PluginCodec) (s : PluginSchema) :
  schemaGet k s = Some type -> In (k, type) s.
Proof.
  induction s as [|[k' c'] s IH]; cbn; [discriminate|].
  destruct (String.eqb k k') eqn:E.
  - apply String.eqb_eq in E. intros [= ->]. subst. now left.
  - intros H. right. now apply IH.
Qed.

Lemma schemaGet_Some (k : string) (s : PluginSchema) :
  In k (s.*1) -> exists type, schemaGet k s = Some type.
Proof.
  intros Hin. destruct (schemaGet k s) eqn:E; [eauto|].
  now apply schemaGet_None in E.
Qed.

Lemma NoDup_cons_inv {A} (x : A) (l : list A) :
  NoDup (x :: l) -> ~ In x l /\ NoDup l.
Proof.
  intros H. apply NoDup_cons in H as [H1 H2]. split; [|assumption].
  intros Hin. apply H1. now apply list_elem_of_In.
Qed.

Lemma In_schemaGet (k : string) (type : PluginCodec) (s : PluginSchema) :
  NoDup (s.*1) -> In (k, type) s -> schemaGet k s = Some type.
Proof.
  induction s as [|[k' c'] s IH]; cbn; [tauto|].
  intros Hnd Hin. apply NoDup_cons_inv in Hnd as [Hk' Hnd].
  destruct Hin as [[= -> ->]|Hin].
  - now rewrite String.eqb_refl.
  - destruct (String.eqb k k') eqn:E; [|now apply IH].
    apply String.eqb_eq in E. subst k'. exfalso. apply Hk'.
    apply (in_map fst) in Hin. exact Hin.
Qed.

Lemma allData_spec (o : object) :
  allData o = true <-> forall k, In k (keys o) -> isData (prop k o) = true.
Proof. unfold allData. apply forallb_forall. Qed.

(** ** The encoder *)

Lemma type_encode_loop_spec (props : PluginSchema) (a s : object) :
  NoDup (props.*1) ->
  (forall k, In k (props.*1) -> isData (prop k a) = true) ->
  (forall k, In k (props.*1) -> In k (keys s)) ->
  exists p, type_encode_loop props a s = Ok p
            /\ keys p = keys s
            /\ forall k, get k p =
                 match schemaGet k props, prop k a with
                 | Some type, VData d => Some (plugin_encode type d)
                 | _, _ => get k s
                 end.
Proof.
  revert s. induction props as [|[k0 c0] props IH]; intros s Hnd Hdata Hkeys.
  - exists s. cbn. auto.
  - cbn in Hnd. apply NoDup_cons_inv in Hnd as [Hk0 Hnd].
    cbn [type_encode_loop].
    pose proof (Hdata k0 (or_introl eq_refl)) as Hd0.
    destruct (prop k0 a) as [| | | | | | |d0] eqn:E0; try discriminate.
    destruct (IH (set k0 (plugin_encode c0 d0) s) Hnd) as (p & Hrun & Hkp & Hget).
    + intros k Hk. apply Hdata. now right.
    + intros k Hk. rewrite keys_set_In by (apply Hkeys; now left).
      apply Hkeys. now right.
    + exists p. split; [exact Hrun|]. split.
      { rewrite Hkp. apply keys_set_In, Hkeys. now left. }
      intros k. rewrite Hget. cbn [schemaGet].
      destruct (String.eqb k k0) eqn:E.
      * apply String.eqb_eq in E. subst k.
        apply schemaGet_None in Hk0. rewrite Hk0, E0. apply get_set_eq.
      * apply String.eqb_neq in E.
        destruct (schemaGet k props); [destruct (prop k a)|];
          try reflexivity; apply get_set_ne; congruence.
Qed.

Lemma type_encode_spec (s : PluginSchema) (a : object) :
  NoDup (s.*1) -> slotsOK s a ->
  exists p, type_encode s a = Ok p
            /\ keys p = keys a
            /\ forall k, get k p =
                 match schemaGet k s, prop k a with
                 | Some type, VData d => Some (plugin_encode type d)
                 | _, _ => get k a
                 end.
Proof.
  intros Hnd (Hna & Hkeys & Hdata). apply type_encode_loop_spec; [assumption| |].
  - intros k Hk. apply Hdata, Hkeys, Hk.
  - intros k Hk. apply Hkeys, Hk.
Qed.

(** ** The validation *)

Lemma type_validate_loop_spec (props : PluginSchema) (c : Path) (a : object)
    (errors : Errors) :
  NoDup (props.*1) ->
  (forall k type, In (k, type) props -> is_Some (plugin_validate type (prop k a))) ->
  (forall k, In k (props.*1) -> In k (keys a)) ->
  exists a', type_validate_loop props c a errors = (a', errors)
             /\ keys a' = keys a
             /\ forall k, get k a' =
                  match schemaGet k props with
                  | Some type => VData <$> plugin_validate type (prop k a)
                  | None => get k a
                  end.
Proof.
  revert a. induction props as [|[k0 c0] props IH]; intros a Hnd Hval Hkeys.
  - exists a. cbn. auto.
  - cbn in Hnd. apply NoDup_cons_inv in Hnd as [Hk0 Hnd].
    cbn [type_validate_loop].
    destruct (Hval k0 c0 (or_introl eq_refl)) as [d0 E0]. rewrite E0.
    destruct (IH (set k0 (VData d0) a) Hnd) as (a' & Hrun & Hka & Hget).
    + intros k type Hin. rewrite prop_set_ne.
      * apply Hval. now right.
      * intros <-. apply Hk0. apply (in_map fst) in Hin. exact Hin.
    + intros k Hk. rewrite keys_set_In by (apply Hkeys; now left).
      apply Hkeys. now right.
    + exists a'. split; [exact Hrun|]. split.
      { rewrite Hka. apply keys_set_In, Hkeys. now left. }
      intros k. rewrite Hget. cbn [schemaGet].
      destruct (String.eqb k k0) eqn:E.
      * apply String.eqb_eq in E. subst k.
        apply schemaGet_None in Hk0. rewrite Hk0, E0. apply get_set_eq.
      * apply String.eqb_neq in E.
        destruct (schemaGet k props).
        -- rewrite prop_set_ne by congruence. reflexivity.
        -- apply get_set_ne. congruence.
Qed.

Lemma prop_get (k : string) (v : value) (o : object) :
  get k o = Some v -> prop k o = v.
Proof. unfold prop. now intros ->. Qed.

(** Decoding what the encoder produced gives a plugin map of the same
    shape that encodes to the same plain map. *)
Lemma type_validate_encoded (s : PluginSchema) (a p : object) (c : Path) :
  lawfulSchema s -> slotsOK s a -> type_encode s a = Ok p ->
  exists a', type_validate s (VObj p) c = inr a'
             /\ slotsOK s a' /\ type_encode s a' = Ok p.
Proof.
  intros [Hnd Hlaw] Hok Henc. pose proof Hok as (Hna & Hkeys & Hdata).
  destruct (type_encode_spec s a Hnd Hok) as (p0 & Henc0 & Hkp & Hgp).
  rewrite Henc in Henc0. injection Henc0 as <-.
  assert (Hslot : forall k type, In (k, type) s ->
            exists d, prop k a = VData d /\ prop k p = plugin_encode type d).
  { intros k type Hin.
    assert (Hk : In k (s.*1)) by (apply (in_map fst) in Hin; exact Hin).
    pose proof (In_schemaGet k type s Hnd Hin) as Hs.
    pose proof (Hdata k (proj2 (Hkeys k) Hk)) as Hd.
    destruct (prop k a) as [| | | | | | |d] eqn:E; try discriminate.
    exists d. split; [reflexivity|]. apply prop_get. now rewrite Hgp, Hs, E. }
  destruct (type_validate_loop_spec s c p [] Hnd) as (a' & Hrun & Hka & Hga).
  { intros k type Hin. destruct (Hslot k type Hin) as (d & _ & ->).
    destruct (proj1 (Hlaw k type Hin) d) as (y & -> & _). eauto. }
  { intros k Hk. rewrite Hkp. now apply Hkeys. }
  assert (Hslot' : forall k type, In (k, type) s ->
            exists d y, prop k a = VData d /\ prop k a' = VData y
                        /\ plugin_encode type y = plugin_encode type d).
  { intros k type Hin. destruct (Hslot k type Hin) as (d & Ha & Hp).
    destruct (proj1 (Hlaw k type Hin) d) as (y & Hv & Hy).
    exists d, y. split; [exact Ha|]. split; [|exact Hy].
    apply prop_get. rewrite Hga.
    rewrite (In_schemaGet k type s Hnd Hin), Hp, Hv. reflexivity. }
  assert (Hok' : slotsOK s a').
  { split; [now rewrite Hka, Hkp|]. split.
    - intros k. rewrite Hka, Hkp. apply Hkeys.
    - intros k Hk. rewrite Hka, Hkp in Hk. apply Hkeys in Hk.
      destruct (schemaGet_Some k s Hk) as [type Hs].
      destruct (Hslot' k type (schemaGet_In _ _ _ Hs)) as (d & y & _ & -> & _).
      reflexivity. }
  exists a'. split.
  { unfold type_validate. cbn [UnknownRecord]. now rewrite Hrun. }
  split; [exact Hok'|].
  destruct (type_encode_spec s a' Hnd Hok') as (p' & Henc' & Hkp' & Hgp').
  rewrite Henc'. f_equal. apply object_ext.
  - now rewrite Hkp', Hka, Hkp.
  - now rewrite Hkp', Hka.
  - intros k Hk. rewrite Hkp', Hka, Hkp in Hk. apply Hkeys in Hk.
    destruct (schemaGet_Some k s Hk) as [type Hs].
    destruct (Hslot' k type (schemaGet_In _ _ _ Hs)) as (d & y & Ha & Ha' & Hy).
    rewrite Hgp', Hgp, Hs, Ha, Ha', Hy. reflexivity.
Qed.

(** ** Hydration *)

Lemma hydratePlugins_encode (type : PluginCodec) (d : AccDiffData) (h : option Holder)
    (ks : list string) (o : object) (k : string) (x : PluginData) :
  (forall d h x, plugin_encode type (pluginHydrate d h x) = plugin_encode type x) ->
  prop k o = VData x ->
  exists y, prop k (hydratePlugins d h ks o).2 = VData y
            /\ plugin_encode type y = plugin_encode type x.
Proof.
  intros Hlaw. revert o x. induction ks as [|k0 ks IH]; intros o x Hx; cbn.
  - eauto.
  - destruct (prop k0 o) as [| | | | | | |x0] eqn:E0; cbn; eauto.
    destruct (String.string_dec k0 k) as [->|Hne].
    + assert (x0 = x) as -> by congruence.
      destruct (IH (set k (VData (pluginHydrate d h x)) o) (pluginHydrate d h x))
        as (y & Hy & He).
      { apply prop_set_eq. }
      exists y. split; [exact Hy|]. now rewrite He.
    + apply IH. now rewrite prop_set_ne.
Qed.

Lemma slotsOK_allData (s : PluginSchema) (a : object) : slotsOK s a -> allData a = true.
Proof. intros (_ & _ & H). now apply allData_spec. Qed.

Lemma slotsOK_hydrated (s : PluginSchema) (d : AccDiffData) (h : option Holder)
    (a : object) :
  slotsOK s a -> slotsOK s (hydratedPlugins d h a).
Proof.
  intros Hok. pose proof (slotsOK_allData s a Hok) as Hall.
  destruct Hok as (Hnd & Hkeys & Hdata). unfold hydratedPlugins.
  assert (Hk : keys (hydratePlugins d h (keys a) a).2 = keys a)
    by (apply hydratePlugins_keys; auto).
  split; [now rewrite Hk|]. split.
  - intros k. rewrite Hk. apply Hkeys.
  - apply allData_spec. now apply allData_hydrated.
Qed.

Lemma type_encode_hydrated (s : PluginSchema) (d : AccDiffData) (h : option Holder)
    (a : object) :
  lawfulSchema s -> slotsOK s a ->
  type_encode s (hydratedPlugins d h a) = type_encode s a.
Proof.
  intros [Hnd Hlaw] Hok. pose proof (slotsOK_hydrated s d h a Hok) as Hok'.
  destruct (type_encode_spec s a Hnd Hok) as (p & -> & Hkp & Hgp).
  destruct (type_encode_spec s _ Hnd Hok') as (p' & -> & Hkp' & Hgp').
  f_equal. pose proof Hok as (Hna & Hkeys & Hdata).
  assert (Hk : keys (hydratedPlugins d h a) = keys a)
    by (apply hydratePlugins_keys; auto).
  apply object_ext.
  - now rewrite Hkp', Hk.
  - now rewrite Hkp', Hkp, Hk.
  - intros k Hin. rewrite Hkp', Hk in Hin.
    destruct (schemaGet_Some k s (proj1 (Hkeys k) Hin)) as [type Hs].
    pose proof (Hdata k Hin) as Hd.
    destruct (prop k a) as [| | | | | | |x] eqn:E; try discriminate.
    destruct (hydratePlugins_encode type d h (keys a) a k x) as (y & Hy & He).
    { apply (Hlaw k type (schemaGet_In _ _ _ Hs)). }
    { exact E. }
    rewrite Hgp', Hgp, Hs, E. unfold hydratedPlugins. rewrite Hy, He. reflexivity.
Qed.

(** ** A plugin map decoded from a plain object *)

Lemma NoDup_keys_set (k : string) (v : value) (o : object) :
  NoDup (keys o) -> NoDup (keys (set k v o)).
Proof.
  intros Hnd. destruct (in_dec String.string_dec k (keys o)) as [Hin|Hn].
  - now rewrite keys_set_In.
  - rewrite keys_set_notIn by assumption. apply NoDup_app. split; [assumption|].
    split; [|apply NoDup_singleton].
    intros x Hx Hx'. apply list_elem_of_In in Hx. apply list_elem_of_singleton in Hx'.
    now subst.
Qed.

Lemma In_keys_set (k k' : string) (v : value) (o : object) :
  In k' (keys (set k v o)) <-> k' = k \/ In k' (keys o).
Proof.
  destruct (in_dec String.string_dec k (keys o)) as [Hin|Hn].
  - rewrite keys_set_In by assumption. split; [tauto|]. intros [->|]; assumption.
  - rewrite keys_set_notIn by assumption. rewrite in_app_iff. cbn. intuition.
Qed.

Lemma type_validate_loop_length (props : PluginSchema) (c : Path) (a : object)
    (errors : Errors) :
  (length errors <= length (type_validate_loop props c a errors).2)%nat.
Proof.
  revert a errors. induction props as [|[k0 c0] props IH]; intros a errors; cbn;
    [lia|].
  destruct (plugin_validate c0 (prop k0 a)); [apply IH|].
  etransitivity; [|apply IH]. rewrite length_app. lia.
Qed.

Lemma type_validate_loop_inv (props : PluginSchema) (c : Path) (a : object)
    (errors : Errors) :
  let a' := (type_validate_loop props c a errors).1 in
  (NoDup (keys a) -> NoDup (keys a'))
  /\ (forall k, In k (keys a') -> In k (keys a) \/ In k (props.*1))
  /\ (forall k, ~ In k (props.*1) -> get k a' = get k a)
  /\ ((type_validate_loop props c a errors).2 = errors ->
      forall k, In k (props.*1) -> In k (keys a')).
Proof.
  revert a errors. induction props as [|[k0 c0] props IH]; intros a errors; cbn.
  - repeat split; auto. intros _ k [].
  - destruct (plugin_validate c0 (prop k0 a)) as [d0|] eqn:E0.
    + destruct (IH (set k0 (VData d0) a) errors) as (H1 & H2 & H3 & H4).
      split; [intros Hnd; now apply H1, NoDup_keys_set|]. split.
      { intros k Hk. apply H2 in Hk as [Hk|Hk]; [|tauto].
        apply In_keys_set in Hk as [->|Hk]; tauto. }
      split.
      { intros k Hk. rewrite H3 by tauto. apply get_set_ne. intros ->. tauto. }
      intros He k [<-|Hk]; [|now apply H4].
      destruct (in_dec String.string_dec k0 (props.*1)) as [Hin|Hn]; [now apply H4|].
      eapply get_Some_In. rewrite H3 by assumption. apply get_set_eq.
    + destruct (IH a (errors ++ [c ++ [k0]])) as (H1 & H2 & H3 & H4).
      split; [assumption|]. split; [intros k Hk; apply H2 in Hk; tauto|].
      split; [intros k Hk; apply H3; tauto|].
      intros He. exfalso.
      pose proof (type_validate_loop_length props c a (errors ++ [c ++ [k0]])) as Hlen.
      rewrite He, length_app in Hlen. cbn in Hlen. lia.
Qed.

Lemma slotsOK_validated (s : PluginSchema) (o a : object) (c : Path) :
  NoDup (keys o) ->
  (forall k v, get k o = Some v -> isData v = false) ->
  type_validate s (VObj o) c = inr a ->
  allData a = true ->
  slotsOK s a.
Proof.
  intros Hnd Hplain Hval Hall. unfold type_validate in Hval. cbn [UnknownRecord] in Hval.
  pose proof (type_validate_loop_inv s c o []) as (H1 & H2 & H3 & H4).
  destruct (type_validate_loop s c o []) as [a0 [|e errors]] eqn:E; [|discriminate].
  injection Hval as ->. cbn in *.
  pose proof (proj1 (allData_spec a) Hall) as Hdata.
  split; [auto|]. split; [|assumption].
  intros k. split; [|now apply H4].
  intros Hk. destruct (in_dec String.string_dec k (s.*1)) as [Hin|Hn]; [assumption|].
  exfalso. specialize (Hdata k Hk). unfold prop in Hdata. rewrite H3 in Hdata by assumption.
  destruct (get k o) as [v|] eqn:Eg; [|discriminate].
  cbn in Hdata. rewrite (Hplain k v Eg) in Hdata. discriminate.
Qed.

(** ** Registration keeps the registry lawful *)

Lemma schemaSet_keys_In (k : string) (c : PluginCodec) (s : PluginSchema) :
  In k (s.*1) -> (schemaSet k c s).*1 = s.*1.
Proof.
  induction s as [|[k' c'] s IH]; cbn; [tauto|].
  destruct (String.eqb k k') eqn:E; cbn.
  - apply String.eqb_eq in E. now subst.
  - apply String.eqb_neq in E. intros [?|H]; [congruence|]. f_equal. now apply IH.
Qed.

Lemma schemaSet_keys_notIn (k : string) (c : PluginCodec) (s : PluginSchema) :
  ~ In k (s.*1) -> (schemaSet k c s).*1 = s.*1 ++ [k].
Proof.
  induction s as [|[k' c'] s IH]; cbn; [reflexivity|].
  destruct (String.eqb k k') eqn:E; cbn.
  - apply String.eqb_eq in E. subst. tauto.
  - intros H. f_equal. apply IH. tauto.
Qed.

Lemma In_schemaSet (k k0 : string) (c c0 : PluginCodec) (s : PluginSchema) :
  In (k, c) (schemaSet k0 c0 s) -> (k, c) = (k0, c0) \/ In (k, c) s.
Proof.
  induction s as [|[k' c'] s IH]; cbn.
  - intros [H|[]]. now left.
  - destruct (String.eqb k0 k'); cbn; intros [H|H]; auto.
    destruct (IH H); auto.
Qed.

Lemma lawfulSchema_schemaSet (k : string) (c : PluginCodec) (s : PluginSchema) :
  lawfulCodec c -> lawfulSchema s -> lawfulSchema (schemaSet k c s).
Proof.
  intros Hc [Hnd Hs]. split.
  - destruct (in_dec String.string_dec k (s.*1)) as [Hin|Hout].
    + now rewrite schemaSet_keys_In.
    + rewrite schemaSet_keys_notIn by assumption.
      apply NoDup_app. split; [assumption|]. split; [|apply NoDup_singleton].
      intros x Hx Hx'. apply list_elem_of_singleton in Hx'. subst x.
      apply Hout. now apply list_elem_of_In.
  - intros k' c' Hin. apply In_schemaSet in Hin as [[= -> ->]|Hin]; [assumption|].
    now apply (Hs k' c').
Qed.

(** The registry is lawful as long as the plugins that register are. *)
Lemma AccDiffData_registerPlugin_lawful (plugin : AccDiffPlugin) (W : World) :
  lawfulCodec (codec plugin) -> lawfulRegistry W ->
  lawfulRegistry (AccDiffData_registerPlugin plugin W).2.
Proof.
  intros Hc (Hw & Hb & Ht).
  unfold AccDiffData_registerPlugin, lawfulRegistry, when, bind, modify, ret.
  destruct (bool_decide (is_Some (perRoll plugin)));
    destruct (bool_decide (is_Some (perUnknownTarget plugin)));
    destruct (bool_decide (is_Some (perTarget plugin))); cbn;
    (split; [|split]); first [assumption | now apply lawfulSchema_schemaSet].
Qed.

End PluginRoundTrip.

(** * Round trip of the roll data *)

Section RoundTrip.
Context {host : PluginHost}.

Lemma liftResult_eval {A} (r : Result A) (W : World) : liftResult r W = (r, W).
Proof. now destruct r. Qed.

Lemma encode_weapon_eval (ws : PluginSchema) (r : ref) (x : AccDiffWeapon) (W : World) :
  weaponHeap W !! r = Some x ->
  encodeWith (AccDiffWeapon_codec ws) r W = (AccDiffWeapon_schema_encode ws x, W).
Proof.
  intros Hx. cbn. unfold AccDiffWeapon_raw.
  rewrite bind_assoc. erewrite bind_Ok by (apply deref_Some; exact Hx).
  erewrite bind_Ok by reflexivity. destruct x. apply liftResult_eval.
Qed.

Lemma encode_base_eval (bs : PluginSchema) (r : ref) (x : AccDiffBase) (W : World) :
  baseHeap W !! r = Some x ->
  encodeWith (AccDiffBase_codec bs) r W =
    (AccDiffBase_schema_encode bs
       (mkBaseRaw (base_accuracy x) (base_difficulty x) (base_cover x) (base_plugins x)),
     W).
Proof.
  intros Hx. cbn. unfold AccDiffBase_raw.
  rewrite bind_assoc. erewrite bind_Ok by (apply deref_Some; exact Hx).
  erewrite bind_Ok by reflexivity. apply liftResult_eval.
Qed.

Lemma encode_target_eval (r : ref) (x : AccDiffTarget) (W : World) :
  targetHeap W !! r = Some x -> is_Some (tokenHeap W !! target x) ->
  encodeWith (AccDiffTarget_codec (Target_pluginSchema W)) r W = (rawTarget W x, W).
Proof.
  intros Hx [tk Htk]. cbn. unfold AccDiffTarget_raw, rawTarget.
  rewrite bind_assoc. erewrite bind_Ok by (apply deref_Some; exact Hx).
  rewrite bind_assoc. erewrite bind_Ok by (apply (deref_Some tokenHeap); exact Htk).
  erewrite bind_Ok by reflexivity. rewrite Htk. apply liftResult_eval.
Qed.

Lemma AccDiffData_toObject_steps (d : AccDiffData) (W : World) :
  AccDiffData_toObject d W =
    (vweapon <- encodeWith (AccDiffWeapon_codec (Weapon_pluginSchema W)) (weapon d) ;;
     vbase <- encodeWith (AccDiffBase_codec (Base_pluginSchema W)) (base d) ;;
     vs <- array_encode_loop (AccDiffTarget_codec (Target_pluginSchema W)) (targets d) ;;
     ret (VObj [("title", VStr (title d)); ("weapon", vweapon); ("base", vbase);
                ("targets", VArr vs)])) W.
Proof.
  rewrite AccDiffData_toObject_unfold.
  cbn -[AccDiffWeapon_codec AccDiffBase_codec AccDiffTarget_codec array_encode_loop].
  unfold AccDiffData_raw, bind, ret.
  cbn -[AccDiffWeapon_codec AccDiffBase_codec AccDiffTarget_codec array_encode_loop].
  destruct (encodeWith (AccDiffWeapon_codec _) _ W) as [[?|?] W1]; [|reflexivity].
  destruct (encodeWith (AccDiffBase_codec _) _ W1) as [[?|?] W2]; [|reflexivity].
  destruct (array_encode_loop (AccDiffTarget_codec _) _ W2) as [[?|?] W3]; reflexivity.
Qed.

Lemma array_encode_loop_eval {A} (item : Codec A) (xs : list A) (vs : list value)
    (W : World) :
  Forall2 (fun x v => encodeWith item x W = (Ok v, W)) xs vs ->
  array_encode_loop item xs W = (Ok vs, W).
Proof.
  induction 1 as [|x v xs vs Hx _ IH]; cbn; [reflexivity|].
  erewrite bind_Ok by exact Hx. erewrite bind_Ok by exact IH. reflexivity.
Qed.

Lemma mapResult_Ok {A B} (f : A -> Result B) (l : list A) (ys : list B) :
  mapResult f l = Ok ys <-> Forall2 (fun x y => f x = Ok y) l ys.
Proof.
  revert ys. induction l as [|x l IH]; intros ys; cbn.
  - split; [intros [= <-]; constructor|intros H; now inversion H].
  - split.
    + destruct (f x) as [y|] eqn:E; [|discriminate].
      destruct (mapResult f l) as [ys'|]; [|discriminate].
      intros [= <-]. constructor; [assumption|now apply IH].
    + intros H. inversion H as [|? y ? ys' Hy Hys]; subst.
      rewrite Hy. apply IH in Hys. now rewrite Hys.
Qed.

Lemma AccDiffWeapon_schema_encode_hydrated (s : PluginSchema) (d : AccDiffData)
    (w : AccDiffWeapon) :
  lawfulSchema s -> slotsOK s (weapon_plugins w) ->
  AccDiffWeapon_schema_encode s (hydratedWeaponObj d w) = AccDiffWeapon_schema_encode s w.
Proof.
  intros Hs Hok. unfold AccDiffWeapon_schema_encode, hydratedWeaponObj. cbn.
  now rewrite type_encode_hydrated.
Qed.

Lemma rawTarget_hydrated (W W' : World) (d : AccDiffData) (r : ref) (x : AccDiffTarget) :
  tokenHeap W' = tokenHeap W -> Target_pluginSchema W' = Target_pluginSchema W ->
  lawfulSchema (Target_pluginSchema W) -> slotsOK (Target_pluginSchema W) (target_plugins x) ->
  rawTarget W' (hydratedTargetObj d r x) = rawTarget W x.
Proof.
  intros Htk Hs Hlaw Hok. unfold rawTarget, hydratedTargetObj. cbn. rewrite Htk, Hs.
  destruct (tokenHeap W !! target x); [|reflexivity].
  unfold AccDiffTarget_schema_encode. cbn. now rewrite type_encode_hydrated.
Qed.

(** Encoding roll data that was just decoded gives their plain form. *)
Lemma AccDiffData_toObject_constructed (W W' : World) (p : Decoded) (d : AccDiffData)
    (v : value) :
  lawfulRegistry W -> decodedOK W p -> constructed W p d W' ->
  plainOf W p = Ok v ->
  AccDiffData_toObject d W' = (Ok v, W').
Proof.
  intros (Lw & Lb & Lt) (Hw & Hb & Hcv & Ht) Hc Hv.
  destruct Hc as (-> & Hwh & Hbh & Hlen & _ & Hth & _ & Htok & _ & _ & Hws & Hbs & Hts & _).
  unfold plainOf in Hv.
  destruct (AccDiffWeapon_schema_encode _ (d_weapon p)) as [vw|] eqn:Ew; [|discriminate].
  destruct (AccDiffBase_schema_encode _ (d_base p)) as [vb|] eqn:Eb; [|discriminate].
  destruct (mapResult (rawTarget W) (d_targets p)) as [vts|] eqn:Et; [|discriminate].
  injection Hv as <-.
  rewrite AccDiffData_toObject_steps. rewrite Hws, Hbs, Hts.
  erewrite bind_Ok.
  2:{ rewrite (encode_weapon_eval _ _ (hydratedWeaponObj (dataOf W p) (d_weapon p))).
      - rewrite AccDiffWeapon_schema_encode_hydrated by assumption. now rewrite Ew.
      - rewrite Hwh. apply list_lookup_middle. reflexivity. }
  erewrite bind_Ok.
  2:{ erewrite encode_base_eval.
      2:{ rewrite Hbh. apply list_lookup_middle. reflexivity. }
      cbn. rewrite <- Eb. unfold AccDiffBase_schema_encode. cbn.
      rewrite type_encode_hydrated by assumption. reflexivity. }
  erewrite bind_Ok; [reflexivity|].
  apply array_encode_loop_eval. cbn [targets dataOf].
  apply mapResult_Ok in Et.
  apply Forall2_same_length_lookup_2.
  { rewrite length_seq. now apply Forall2_length in Et. }
  intros j r vj Hr Hvj. apply lookup_seq in Hr as [-> Hj].
  destruct (lookup_lt_is_Some_2 (d_targets p) j Hj) as [x Hx].
  pose proof (Forall2_lookup_lr _ _ _ _ _ _ Et Hx Hvj) as Hraw.
  rewrite Forall_forall in Ht.
  destruct (Ht x (list_elem_of_lookup_2 _ _ _ Hx)) as (Hok & _ & tk & Htk & _).
  rewrite <- Hts. rewrite (encode_target_eval _ _ W' (Hth j x Hx)).
  - rewrite (rawTarget_hydrated W) by assumption. now rewrite Hraw.
  - cbn. rewrite Htok. eauto.
Qed.

Lemma coverSchema_value (n : number) (c : Path) :
  isCover n = true -> coverSchema (VNum n) c = inr n.
Proof. unfold coverSchema. fold (isCover n). now intros ->. Qed.

Lemma coverSchema_inr (u : value) (c : Path) (n : number) :
  coverSchema u c = inr n -> u = VNum n /\ isCover n = true.
Proof.
  destruct u as [| | |m| | | |]; try discriminate.
  unfold coverSchema. fold (isCover m).
  destruct (isCover m) eqn:E; [|discriminate]. intros H.
  assert (m = n) as <- by congruence. auto.
Qed.

Lemma AccDiffWeapon_schema_roundtrip (s : PluginSchema) (w : AccDiffWeapon) (v : value)
    (c : Path) :
  lawfulSchema s -> slotsOK s (weapon_plugins w) ->
  AccDiffWeapon_schema_encode s w = Ok v ->
  exists w', AccDiffWeapon_schema_validate s v c = inr w'
             /\ slotsOK s (weapon_plugins w')
             /\ AccDiffWeapon_schema_encode s w' = Ok v.
Proof.
  intros Hlaw Hok Henc. unfold AccDiffWeapon_schema_encode in Henc.
  destruct (type_encode s (weapon_plugins w)) as [pw|] eqn:E; [|discriminate].
  injection Henc as <-.
  destruct (type_validate_encoded s _ pw (c ++ ["plugins"]) Hlaw Hok E)
    as (a' & Hval & Hok' & Henc').
  exists (mkWeapon (accurate w) (inaccurate w) (seeking w) a').
  split; [|split; [exact Hok'|]].
  - unfold AccDiffWeapon_schema_validate. cbn -[type_validate].
    now rewrite Hval.
  - unfold AccDiffWeapon_schema_encode. cbn. now rewrite Henc'.
Qed.

Lemma AccDiffBase_schema_roundtrip (s : PluginSchema) (b : BaseRaw) (v : value)
    (c : Path) :
  lawfulSchema s -> slotsOK s (raw_plugins b) -> isCover (raw_cover b) = true ->
  AccDiffBase_schema_encode s b = Ok v ->
  exists b', AccDiffBase_schema_validate s v c = inr b'
             /\ slotsOK s (raw_plugins b')
             /\ raw_cover b' = raw_cover b
             /\ AccDiffBase_schema_encode s b' = Ok v.
Proof.
  intros Hlaw Hok Hcov Henc. unfold AccDiffBase_schema_encode in Henc.
  destruct (type_encode s (raw_plugins b)) as [pb|] eqn:E; [|discriminate].
  injection Henc as <-.
  destruct (type_validate_encoded s _ pb (c ++ ["plugins"]) Hlaw Hok E)
    as (a' & Hval & Hok' & Henc').
  exists (mkBaseRaw (raw_accuracy b) (raw_difficulty b) (raw_cover b) a').
  split; [|split; [exact Hok'|split; [reflexivity|]]].
  - unfold AccDiffBase_schema_validate. cbn -[type_validate coverSchema].
    rewrite coverSchema_value, Hval by exact Hcov. reflexivity.
  - unfold AccDiffBase_schema_encode. cbn. now rewrite Henc'.
Qed.

Lemma rawTarget_roundtrip (W : World) (x : AccDiffTarget) (v : value) (c : Path) :
  lawfulSchema (Target_pluginSchema W) -> targetOK W x -> rawTarget W x = Ok v ->
  exists obj,
    AccDiffTarget_schema_validate (Target_pluginSchema W) v c = inr obj
    /\ tokens_get (raw_target_id obj) W = Some (target x)
    /\ targetOK W (targetOf (target x) obj)
    /\ rawTarget W (targetOf (target x) obj) = Ok v.
Proof.
  intros Hlaw (Hok & Hcov & tk & Htk & Hget) Hraw. unfold rawTarget in Hraw.
  rewrite Htk in Hraw.
  unfold AccDiffTarget_schema_encode in Hraw. cbn in Hraw.
  destruct (type_encode _ (target_plugins x)) as [pt|] eqn:E; [|discriminate].
  injection Hraw as <-.
  destruct (type_validate_encoded _ _ pt (c ++ ["plugins"]) Hlaw Hok E)
    as (a' & Hval & Hok' & Henc').
  exists (mkTargetRaw (token_id tk) (target_accuracy x) (target_difficulty x)
            (target_cover x) (consumeLockOn x) a').
  split; [|split; [exact Hget|split]].
  - unfold AccDiffTarget_schema_validate. cbn -[type_validate coverSchema].
    rewrite coverSchema_value, Hval by exact Hcov. reflexivity.
  - split; [exact Hok'|]. split; [exact Hcov|]. exists tk. cbn. auto.
  - unfold rawTarget, targetOf. cbn. rewrite Htk.
    unfold AccDiffTarget_schema_encode. cbn. now rewrite Henc'.
Qed.

Lemma constructTargets_roundtrip (W : World) (objs : list AccDiffTarget)
    (vs : list value) (i : nat) (c : Path) :
  lawfulSchema (Target_pluginSchema W) -> Forall (targetOK W) objs ->
  mapResult (rawTarget W) objs = Ok vs ->
  exists objs', constructTargets (Target_pluginSchema W) W vs i c = Some objs'
                /\ Forall (targetOK W) objs'
                /\ mapResult (rawTarget W) objs' = Ok vs.
Proof.
  intros Hlaw Hok Hraw. apply mapResult_Ok in Hraw. revert i.
  induction Hraw as [|x v objs vs Hx _ IH]; intros i.
  - exists []. cbn. auto.
  - apply Forall_cons in Hok as [Hx0 Hok].
    destruct (rawTarget_roundtrip W x v (c ++ [pretty i]) Hlaw Hx0 Hx)
      as (obj & Hval & Hget & Hok' & Hraw').
    destruct (IH Hok (S i)) as (objs' & Hc & Hoks & Hraws).
    exists (targetOf (target x) obj :: objs'). cbn [constructTargets].
    rewrite Hval, Hget, Hc. split; [reflexivity|]. split; [now constructor|].
    cbn [mapResult]. now rewrite Hraw', Hraws.
Qed.

Lemma slotsOK_hydratable (W : World) (p : Decoded) : decodedOK W p -> hydratable p.
Proof.
  intros (Hw & Hb & Hcv & Ht). split; [|split].
  - eapply slotsOK_allData, Hw.
  - eapply slotsOK_allData, Hb.
  - eapply Forall_impl; [exact Ht|]. intros x [Hok _]. eapply slotsOK_allData, Hok.
Qed.

(** ** Unknown keys *)

Lemma undeclared_nil (declared : list string) (o : object) (c : Path) :
  (forall k, In k (keys o) -> In k declared) -> undeclared declared o c = [].
Proof.
  intros H. unfold undeclared.
  replace (List.filter _ (keys o)) with (@nil string); [reflexivity|].
  symmetry. induction (keys o) as [|k ks IH]; [reflexivity|]. cbn.
  assert (Hk : existsb (String.eqb k) declared = true).
  { apply existsb_exists. exists k. split; [apply H; now left|apply String.eqb_refl]. }
  rewrite Hk. cbn. apply IH. intros k' Hk'. apply H. now right.
Qed.

Lemma undeclared_In (declared : list string) (o : object) (c : Path) (k : string) :
  In k (keys o) -> ~ In k declared -> In (c ++ [k]) (undeclared declared o c).
Proof.
  intros Hk Hno. unfold undeclared. apply (in_map (fun k => c ++ [k])).
  apply List.filter_In. split; [exact Hk|].
  apply negb_true_iff. destruct (existsb (String.eqb k) declared) eqn:E; [|reflexivity].
  apply existsb_exists in E as (k' & Hin & Heq). apply String.eqb_eq in Heq.
  subst k'. contradiction.
Qed.

Lemma type_unknownKeys_encoded (s : PluginSchema) (a p : object) (c : Path) :
  NoDup (s.*1) -> slotsOK s a -> type_encode s a = Ok p ->
  type_unknownKeys s (VObj p) c = [].
Proof.
  intros Hnd Hok Henc.
  destruct (type_encode_spec s a Hnd Hok) as (p' & Hp' & Hkeys & _).
  rewrite Henc in Hp'. injection Hp' as <-.
  apply undeclared_nil. intros k Hk. rewrite Hkeys in Hk. now apply Hok.
Qed.

Lemma AccDiffWeapon_unknownKeys_encoded (s : PluginSchema) (w : AccDiffWeapon)
    (v : value) (c : Path) :
  lawfulSchema s -> slotsOK s (weapon_plugins w) ->
  AccDiffWeapon_schema_encode s w = Ok v ->
  unknownKeys (AccDiffWeapon_codec s) v c = [].
Proof.
  intros [Hnd _] Hok Henc. unfold AccDiffWeapon_schema_encode in Henc.
  destruct (type_encode s (weapon_plugins w)) as [pw|] eqn:E; [|discriminate].
  injection Henc as <-. cbn -[type_unknownKeys].
  now rewrite (type_unknownKeys_encoded s _ pw _ Hnd Hok E).
Qed.

Lemma AccDiffBase_unknownKeys_encoded (s : PluginSchema) (b : BaseRaw)
    (v : value) (c : Path) :
  lawfulSchema s -> slotsOK s (raw_plugins b) ->
  AccDiffBase_schema_encode s b = Ok v ->
  unknownKeys (AccDiffBase_codec s) v c = [].
Proof.
  intros [Hnd _] Hok Henc. unfold AccDiffBase_schema_encode in Henc.
  destruct (type_encode s (raw_plugins b)) as [pb|] eqn:E; [|discriminate].
  injection Henc as <-. cbn -[type_unknownKeys].
  now rewrite (type_unknownKeys_encoded s _ pb _ Hnd Hok E).
Qed.

Lemma rawTarget_unknownKeys (W : World) (x : AccDiffTarget) (v : value) (c : Path) :
  lawfulSchema (Target_pluginSchema W) -> targetOK W x -> rawTarget W x = Ok v ->
  unknownKeys (AccDiffTarget_codec (Target_pluginSchema W)) v c = [].
Proof.
  intros [Hnd _] (Hok & _ & tk & Htk & _) Hraw. unfold rawTarget in Hraw.
  rewrite Htk in Hraw. unfold AccDiffTarget_schema_encode in Hraw. cbn in Hraw.
  destruct (type_encode _ (target_plugins x)) as [pt|] eqn:E; [|discriminate].
  injection Hraw as <-. cbn -[type_unknownKeys].
  now rewrite (type_unknownKeys_encoded _ _ pt _ Hnd Hok E).
Qed.

Lemma array_unknownKeys_raw (W : World) (objs : list AccDiffTarget) (vs : list value)
    (i : nat) (c : Path) :
  lawfulSchema (Target_pluginSchema W) -> Forall (targetOK W) objs ->
  mapResult (rawTarget W) objs = Ok vs ->
  array_unknownKeys (AccDiffTarget_codec (Target_pluginSchema W)) vs i c = [].
Proof.
  intros Hlaw Hok Hraw. apply mapResult_Ok in Hraw. revert i.
  induction Hraw as [|x v objs vs Hx _ IH]; intros i; [reflexivity|].
  apply Forall_cons in Hok as [Hx0 Hok]. cbn [array_unknownKeys].
  rewrite (rawTarget_unknownKeys W x v _ Hlaw Hx0 Hx). now apply IH.
Qed.

(** Decoding the plain form of decoded roll data gives decoded roll data
    with the same plain form. *)
Lemma decodePlain_plainOf (W : World) (p : Decoded) (v : value) :
  lawfulRegistry W -> decodedOK W p -> plainOf W p = Ok v ->
  exists o p', v = VObj o /\ decodePlain W o = Some p' /\ decodedOK W p'
               /\ plainOf W p' = Ok v.
Proof.
  intros (Lw & Lb & Lt) (Hw & Hb & Hcv & Ht) Hv. unfold plainOf in Hv.
  destruct (AccDiffWeapon_schema_encode _ (d_weapon p)) as [vw|] eqn:Ew; [|discriminate].
  destruct (AccDiffBase_schema_encode _ (d_base p)) as [vb|] eqn:Eb; [|discriminate].
  destruct (mapResult (rawTarget W) (d_targets p)) as [vts|] eqn:Et; [|discriminate].
  injection Hv as <-.
  destruct (AccDiffWeapon_schema_roundtrip _ _ vw ["weapon"] Lw Hw Ew) as (w' & Hvw & Hokw & Hew).
  destruct (AccDiffBase_schema_roundtrip _ _ vb ["base"] Lb Hb Hcv Eb)
    as (b' & Hvb & Hokb & Hcvb & Heb).
  destruct (constructTargets_roundtrip W _ vts 0 ["targets"] Lt Ht Et)
    as (objs' & Hc & Hoks & Hraws).
  eexists _, (mkDecoded (d_title p) w' b' objs'). split; [reflexivity|].
  split; [|split].
  - unfold decodePlain.
    replace (unknownOf W _) with (@nil Path).
    + cbn -[AccDiffWeapon_schema_validate AccDiffBase_schema_validate constructTargets].
      rewrite Hvw, Hvb, Hc. reflexivity.
    + unfold unknownOf. cbn [unknownKeys AccDiffData_schemaCodec].
      change (prop "weapon" _) with vw. change (prop "base" _) with vb.
      change (prop "targets" _) with (VArr vts).
      rewrite (AccDiffWeapon_unknownKeys_encoded _ _ vw _ Lw Hw Ew),
        (AccDiffBase_unknownKeys_encoded _ _ vb _ Lb Hb Eb).
      cbn [unknownKeys t_array].
      rewrite (array_unknownKeys_raw W _ vts 0 _ Lt Ht Et). reflexivity.
  - split; [|split; [|split]]; try assumption. cbn. now rewrite Hcvb.
  - unfold plainOf. cbn [d_weapon d_base d_targets d_title].
    now rewrite Hew, Heb, Hraws.
Qed.

(** ** What decoding a plain object establishes *)

Lemma isPlain_VObj (o : object) :
  isPlain (VObj o) = true ->
  NoDup (keys o) /\ forall k v, get k o = Some v -> isPlain v = true.
Proof.
  cbn [isPlain]. intros H. apply andb_true_iff in H as [Hnd Hall].
  apply bool_decide_eq_true_1 in Hnd. split; [exact Hnd|].
  clear Hnd. induction o as [|[k0 v0] o IH]; intros k v; cbn in *; [discriminate|].
  apply andb_true_iff in Hall as [H0 Hall].
  destruct (String.eqb k k0); [intros [= <-]; exact H0|now apply IH].
Qed.

Lemma isPlain_prop (k : string) (o : object) :
  isPlain (VObj o) = true -> isPlain (prop k o) = true.
Proof.
  intros H. apply isPlain_VObj in H as [_ H]. unfold prop.
  destruct (get k o) as [v|] eqn:E; [now apply (H k)|reflexivity].
Qed.

Lemma isPlain_isData (v : value) : isPlain v = true -> isData v = false.
Proof. now destruct v. Qed.

Lemma slotsOK_type_validate (s : PluginSchema) (u : value) (c : Path) (a : object) :
  isPlain u = true -> type_validate s u c = inr a -> allData a = true -> slotsOK s a.
Proof.
  intros Hplain Hval Hall. destruct u as [| | | | | |o|]; try discriminate.
  apply isPlain_VObj in Hplain as [Hnd Hvals].
  apply (slotsOK_validated s o a c); auto.
  intros k v Hk. apply isPlain_isData. now apply (Hvals k).
Qed.

Lemma AccDiffWeapon_schema_validate_plugins (s : PluginSchema) (u : value) (c : Path)
    (w : AccDiffWeapon) :
  AccDiffWeapon_schema_validate s u c = inr w ->
  exists o, u = VObj o
            /\ type_validate s (prop "plugins" o) (c ++ ["plugins"]) = inr (weapon_plugins w).
Proof.
  intros H. destruct u as [| | | | | |o|]; try discriminate.
  exists o. split; [reflexivity|]. now apply AccDiffWeapon_schema_validate_inv in H.
Qed.

Lemma ap_inr_inv {A B} (f : Validation (A -> B)) (x : Validation A) (b : B) :
  ap f x = inr b -> exists g a, f = inr g /\ x = inr a /\ b = g a.
Proof. destruct f, x; cbn; try discriminate. intros [= <-]. eauto. Qed.

Lemma AccDiffBase_schema_validate_plugins (s : PluginSchema) (u : value) (c : Path)
    (b : BaseRaw) :
  AccDiffBase_schema_validate s u c = inr b ->
  exists o, u = VObj o
            /\ type_validate s (prop "plugins" o) (c ++ ["plugins"]) = inr (raw_plugins b).
Proof.
  intros H. destruct u as [| | | | | |o|]; try discriminate.
  exists o. split; [reflexivity|]. unfold AccDiffBase_schema_validate in H.
  cbn [UnknownRecord] in H.
  apply ap_inr_inv in H as (g & a & Hg & Ha & ->). rewrite Ha.
  apply ap_inr_inv in Hg as (g1 & a1 & Hg1 & _ & ->).
  apply ap_inr_inv in Hg1 as (g2 & a2 & Hg2 & _ & ->).
  apply ap_inr_inv in Hg2 as (g3 & a3 & [= <-] & _ & ->). reflexivity.
Qed.

Lemma AccDiffTarget_schema_validate_plugins (s : PluginSchema) (u : value) (c : Path)
    (obj : TargetRaw) :
  AccDiffTarget_schema_validate s u c = inr obj ->
  exists o, u = VObj o
            /\ type_validate s (prop "plugins" o) (c ++ ["plugins"])
               = inr (raw_target_plugins obj).
Proof.
  intros H. destruct u as [| | | | | |o|]; try discriminate.
  exists o. split; [reflexivity|]. unfold AccDiffTarget_schema_validate in H.
  cbn [UnknownRecord] in H.
  apply ap_inr_inv in H as (g & a & Hg & Ha & ->). rewrite Ha.
  apply ap_inr_inv in Hg as (g1 & a1 & Hg1 & _ & ->).
  apply ap_inr_inv in Hg1 as (g2 & a2 & Hg2 & _ & ->).
  apply ap_inr_inv in Hg2 as (g3 & a3 & Hg3 & _ & ->).
  apply ap_inr_inv in Hg3 as (g4 & a4 & Hg4 & _ & ->).
  apply ap_inr_inv in Hg4 as (g5 & a5 & [= <-] & _ & ->). reflexivity.
Qed.

Lemma tokens_get_Some (id : string) (W : World) (r : ref) :
  tokens_get id W = Some r ->
  exists tk, tokenHeap W !! r = Some tk /\ token_id tk = id.
Proof.
  unfold tokens_get. intros H. apply List.find_some in H as [_ H].
  destruct (tokenHeap W !! r) as [tk|]; [|discriminate].
  exists tk. split; [reflexivity|]. now apply String.eqb_eq.
Qed.

Lemma AccDiffBase_schema_validate_cover (ps : PluginSchema) (u : value) (c : Path)
    (b : BaseRaw) :
  AccDiffBase_schema_validate ps u c = inr b -> isCover (raw_cover b) = true.
Proof.
  unfold AccDiffBase_schema_validate. destruct u as [| | | | | |o|]; try discriminate.
  cbn [UnknownRecord]. intros H.
  apply ap_inr_inv in H as (g & a & Hg & _ & ->).
  apply ap_inr_inv in Hg as (g1 & a1 & Hg1 & Ha1 & ->).
  apply ap_inr_inv in Hg1 as (g2 & a2 & Hg2 & _ & ->).
  apply ap_inr_inv in Hg2 as (g3 & a3 & [= <-] & _ & ->).
  now apply coverSchema_inr in Ha1 as [_ Ha1].
Qed.

Lemma AccDiffTarget_schema_validate_cover (ps : PluginSchema) (u : value) (c : Path)
    (obj : TargetRaw) :
  AccDiffTarget_schema_validate ps u c = inr obj ->
  isCover (raw_target_cover obj) = true.
Proof.
  unfold AccDiffTarget_schema_validate. destruct u as [| | | | | |o|]; try discriminate.
  cbn [UnknownRecord]. intros H.
  apply ap_inr_inv in H as (g & a & Hg & _ & ->).
  apply ap_inr_inv in Hg as (g1 & a1 & Hg1 & _ & ->).
  apply ap_inr_inv in Hg1 as (g2 & a2 & Hg2 & Ha2 & ->).
  apply ap_inr_inv in Hg2 as (g3 & a3 & Hg3 & _ & ->).
  apply ap_inr_inv in Hg3 as (g4 & a4 & Hg4 & _ & ->).
  apply ap_inr_inv in Hg4 as (g5 & a5 & [= <-] & _ & ->).
  now apply coverSchema_inr in Ha2 as [_ Ha2].
Qed.

Lemma constructTargets_OK (W : World) (us : list value) (i : nat) (c : Path)
    (objs : list AccDiffTarget) :
  constructTargets (Target_pluginSchema W) W us i c = Some objs ->
  forallb isPlain us = true ->
  Forall (fun x => allData (target_plugins x) = true) objs ->
  Forall (targetOK W) objs.
Proof.
  revert i objs. induction us as [|u us IH]; intros i objs Hc Hplain Hall;
    cbn [constructTargets] in Hc.
  - injection Hc as <-. constructor.
  - cbn in Hplain. apply andb_true_iff in Hplain as [Hu Hus].
    destruct (AccDiffTarget_schema_validate _ u _) as [?|obj] eqn:Ev; [discriminate|].
    destruct (tokens_get (raw_target_id obj) W) as [tk|] eqn:Eg; [|discriminate].
    destruct (constructTargets _ W us (S i) c) as [objs'|] eqn:Ec; [|discriminate].
    injection Hc as <-. apply Forall_cons in Hall as [Hx Hall].
    constructor; [|now apply (IH (S i))].
    pose proof (AccDiffTarget_schema_validate_cover _ _ _ _ Ev) as Hcv.
    apply AccDiffTarget_schema_validate_plugins in Ev as (o & -> & Hval).
    split; [|split; [exact Hcv|]].
    + apply (slotsOK_type_validate _ (prop "plugins" o) _ _ (isPlain_prop _ _ Hu) Hval Hx).
    + apply tokens_get_Some in Eg as Htk. destruct Htk as (t & Ht & Hid).
      exists t. cbn. split; [exact Ht|]. now rewrite Hid.
Qed.

Lemma decodePlain_OK (W : World) (o : object) (p : Decoded) :
  isPlain (VObj o) = true -> decodePlain W o = Some p -> hydratable p ->
  decodedOK W p.
Proof.
  intros Hplain Hp (Hw & Hb & Ht).
  apply decodePlain_Some_inv in Hp as (_ & Hvw & Hvb & us & Hus & Hc).
  pose proof (AccDiffBase_schema_validate_cover _ _ _ _ Hvb) as Hcv.
  apply AccDiffWeapon_schema_validate_plugins in Hvw as (wo & Hwo & Hvw).
  apply AccDiffBase_schema_validate_plugins in Hvb as (bo & Hbo & Hvb).
  split; [|split; [|split; [exact Hcv|]]].
  - apply (slotsOK_type_validate _ (prop "plugins" wo) _ _) with (2 := Hvw); [|exact Hw].
    apply isPlain_prop. rewrite <- Hwo. now apply isPlain_prop.
  - apply (slotsOK_type_validate _ (prop "plugins" bo) _ _) with (2 := Hvb); [|exact Hb].
    apply isPlain_prop. rewrite <- Hbo. now apply isPlain_prop.
  - apply (constructTargets_OK W us 0 ["targets"]); [exact Hc| |exact Ht].
    pose proof (isPlain_prop "targets" o Hplain) as Hpl. now rewrite Hus in Hpl.
Qed.

Lemma plainOf_Ok (W : World) (p : Decoded) :
  lawfulRegistry W -> decodedOK W p -> exists v, plainOf W p = Ok v.
Proof.
  intros ([Nw _] & [Nb _] & [Nt _]) (Hw & Hb & Hcv & Ht). unfold plainOf.
  destruct (type_encode_spec _ _ Nw Hw) as (pw & Ew & _).
  destruct (type_encode_spec _ _ Nb Hb) as (pb & Eb & _).
  unfold AccDiffWeapon_schema_encode, AccDiffBase_schema_encode. rewrite Ew, Eb.
  assert (Hts : exists vts, mapResult (rawTarget W) (d_targets p) = Ok vts).
  { induction Ht as [|x objs (Hok & _ & tk & Htk & _) _ IH]; [now exists []|].
    destruct IH as (vts & Hvts).
    destruct (type_encode_spec _ _ Nt Hok) as (pt & Et & _).
    eexists. cbn [mapResult]. unfold rawTarget at 1. rewrite Htk.
    unfold AccDiffTarget_schema_encode. cbn. rewrite Et, Hvts. reflexivity. }
  destruct Hts as (vts & ->). eauto.
Qed.

Lemma constructed_sameStatics (W W' : World) (p : Decoded) (d : AccDiffData) :
  constructed W p d W' -> sameStatics W W'.
Proof. unfold constructed, sameStatics. intuition. Qed.

Lemma tokens_get_sameStatics (W W' : World) (id : string) :
  sameStatics W W' -> tokens_get id W' = tokens_get id W.
Proof. intros (Ht & Hs & _). unfold tokens_get. now rewrite Ht, Hs. Qed.

Lemma constructTargets_sameStatics (W W' : World) (us : list value) (i : nat) (c : Path) :
  sameStatics W W' ->
  constructTargets (Target_pluginSchema W') W' us i c
  = constructTargets (Target_pluginSchema W) W us i c.
Proof.
  intros S. pose proof S as (_ & _ & _ & _ & Hts). rewrite Hts. revert i.
  induction us as [|u us IH]; intros i; cbn; [reflexivity|].
  destruct (AccDiffTarget_schema_validate _ u _); [reflexivity|].
  rewrite (tokens_get_sameStatics _ _ _ S). now rewrite IH.
Qed.

Lemma decodePlain_sameStatics (W W' : World) (o : object) :
  sameStatics W W' -> decodePlain W' o = decodePlain W o.
Proof.
  intros S. unfold decodePlain, unknownOf. pose proof S as (_ & _ & Hws & Hbs & Hts).
  rewrite Hws, Hbs, Hts.
  destruct (unknownKeys _ _ _); [|reflexivity].
  destruct (t_string _ _); [reflexivity|].
  destruct (AccDiffWeapon_schema_validate _ _ _); [reflexivity|].
  destruct (AccDiffBase_schema_validate _ _ _); [reflexivity|].
  destruct (prop "targets" o); try reflexivity.
  pose proof (constructTargets_sameStatics W W' l 0 ["targets"] S) as Hc.
  rewrite Hts in Hc. now rewrite Hc.
Qed.

Lemma rawTarget_sameStatics (W W' : World) (x : AccDiffTarget) :
  sameStatics W W' -> rawTarget W' x = rawTarget W x.
Proof. intros (Ht & _ & _ & _ & Hs). unfold rawTarget. now rewrite Ht, Hs. Qed.

Lemma mapResult_ext {A B} (f g : A -> Result B) (l : list A) :
  (forall x, f x = g x) -> mapResult f l = mapResult g l.
Proof. intros H. induction l as [|x l IH]; cbn; [reflexivity|]. now rewrite H, IH. Qed.

Lemma plainOf_sameStatics (W W' : World) (p : Decoded) :
  sameStatics W W' -> plainOf W' p = plainOf W p.
Proof.
  intros S. unfold plainOf.
  rewrite (mapResult_ext (rawTarget W') (rawTarget W))
    by (intros x; now apply rawTarget_sameStatics).
  destruct S as (_ & _ & -> & -> & _). reflexivity.
Qed.

Lemma decodedOK_sameStatics (W W' : World) (p : Decoded) :
  sameStatics W W' -> decodedOK W p -> decodedOK W' p.
Proof.
  intros S (Hw & Hb & Hcv & Ht). pose proof S as (Htk & _ & Hws & Hbs & Hts).
  unfold decodedOK. rewrite Hws, Hbs. split; [exact Hw|]. split; [exact Hb|].
  split; [exact Hcv|].
  eapply Forall_impl; [exact Ht|]. intros x (Hok & Hcx & tk & Hx & Hg).
  unfold targetOK. rewrite Hts, Htk. split; [exact Hok|]. split; [exact Hcx|].
  exists tk. split; [exact Hx|]. now rewrite (tokens_get_sameStatics _ _ _ S).
Qed.

Lemma lawfulRegistry_sameStatics (W W' : World) :
  sameStatics W W' -> lawfulRegistry W -> lawfulRegistry W'.
Proof. intros (_ & _ & Hws & Hbs & Hts). unfold lawfulRegistry. now rewrite Hws, Hbs, Hts. Qed.

Lemma deref_None {A} (heap : World -> list A) (r : ref) (W : World) :
  heap W !! r = None -> deref heap r W = (Throw Dangling, W).
Proof. intros H. unfold deref. now rewrite H. Qed.

Lemma encode_weapon_inv (ws : PluginSchema) (r : ref) (v : value) (W W1 : World) :
  encodeWith (AccDiffWeapon_codec ws) r W = (Ok v, W1) ->
  W1 = W /\ exists x, weaponHeap W !! r = Some x /\ AccDiffWeapon_schema_encode ws x = Ok v.
Proof.
  intros H. destruct (weaponHeap W !! r) as [x|] eqn:Hx.
  - rewrite (encode_weapon_eval ws r x W Hx) in H. injection H as H <-. eauto.
  - cbn in H. unfold AccDiffWeapon_raw in H. rewrite bind_assoc in H.
    erewrite bind_Throw in H by (apply deref_None; exact Hx). discriminate.
Qed.

Lemma encode_base_inv (bs : PluginSchema) (r : ref) (v : value) (W W1 : World) :
  encodeWith (AccDiffBase_codec bs) r W = (Ok v, W1) ->
  W1 = W /\ exists x, baseHeap W !! r = Some x
                      /\ AccDiffBase_schema_encode bs
                           (mkBaseRaw (base_accuracy x) (base_difficulty x) (base_cover x)
                              (base_plugins x)) = Ok v.
Proof.
  intros H. destruct (baseHeap W !! r) as [x|] eqn:Hx.
  - rewrite (encode_base_eval bs r x W Hx) in H. injection H as H <-. eauto.
  - cbn in H. unfold AccDiffBase_raw in H. rewrite bind_assoc in H.
    erewrite bind_Throw in H by (apply deref_None; exact Hx). discriminate.
Qed.

Lemma encode_target_inv (r : ref) (v : value) (W W1 : World) :
  encodeWith (AccDiffTarget_codec (Target_pluginSchema W)) r W = (Ok v, W1) ->
  W1 = W /\ exists x, targetHeap W !! r = Some x /\ rawTarget W x = Ok v.
Proof.
  intros H. destruct (targetHeap W !! r) as [x|] eqn:Hx.
  - destruct (tokenHeap W !! target x) as [tk|] eqn:Htk.
    + rewrite (encode_target_eval r x W Hx) in H by eauto. injection H as H <-. eauto.
    + cbn in H. unfold AccDiffTarget_raw in H. rewrite bind_assoc in H.
      erewrite bind_Ok in H by (apply deref_Some; exact Hx).
      rewrite bind_assoc in H.
      erewrite bind_Throw in H by (apply (deref_None tokenHeap); exact Htk).
      discriminate.
  - cbn in H. unfold AccDiffTarget_raw in H. rewrite bind_assoc in H.
    erewrite bind_Throw in H by (apply deref_None; exact Hx). discriminate.
Qed.

Lemma array_encode_loop_inv (ts : list ref) (vs : list value) (W W1 : World) :
  array_encode_loop (AccDiffTarget_codec (Target_pluginSchema W)) ts W = (Ok vs, W1) ->
  W1 = W
  /\ Forall2 (fun t v => exists x, targetHeap W !! t = Some x /\ rawTarget W x = Ok v) ts vs.
Proof.
  revert vs W1. induction ts as [|t ts IH]; intros vs W1 H; cbn in H.
  - injection H as <- <-. split; [reflexivity|constructor].
  - apply bind_Ok_inv in H as (v & W2 & Hv & H).
    apply encode_target_inv in Hv as (-> & Hx).
    apply bind_Ok_inv in H as (vs' & W3 & Hvs & H).
    apply IH in Hvs as (-> & Hall). injection H as <- <-.
    split; [reflexivity|]. now constructor.
Qed.

(** What the plain object of [toObject] lists. *)
Lemma AccDiffData_toObject_inv (d : AccDiffData) (v : value) (W W1 : World) :
  AccDiffData_toObject d W = (Ok v, W1) ->
  exists w b vw vb vts,
    weaponHeap W !! weapon d = Some w
    /\ AccDiffWeapon_schema_encode (Weapon_pluginSchema W) w = Ok vw
    /\ baseHeap W !! base d = Some b
    /\ AccDiffBase_schema_encode (Base_pluginSchema W)
         (mkBaseRaw (base_accuracy b) (base_difficulty b) (base_cover b) (base_plugins b))
       = Ok vb
    /\ Forall2 (fun t vt => exists x, targetHeap W !! t = Some x /\ rawTarget W x = Ok vt)
         (targets d) vts
    /\ v = VObj [("title", VStr (title d)); ("weapon", vw); ("base", vb);
                 ("targets", VArr vts)].
Proof.
  rewrite AccDiffData_toObject_steps. intros H.
  apply bind_Ok_inv in H as (vw & W2 & Hw & H). apply encode_weapon_inv in Hw as (-> & w & Hw & Hvw).
  apply bind_Ok_inv in H as (vb & W2 & Hb & H). apply encode_base_inv in Hb as (-> & b & Hb & Hvb).
  apply bind_Ok_inv in H as (vts & W2 & Ht & H). apply array_encode_loop_inv in Ht as (-> & Ht).
  injection H as <- _. exists w, b, vw, vb, vts. auto 10.
Qed.

Lemma Forall2_common {A B C} (P : A -> C -> Prop) (Q : B -> C -> Prop)
    (l : list A) (l' : list B) (k : list C) :
  Forall2 P l k -> Forall2 Q l' k ->
  Forall2 (fun a b => exists c, P a c /\ Q b c) l l'.
Proof.
  intros H. revert l'. induction H as [|a c l k Hac _ IH]; intros l' H'.
  - inversion H'. constructor.
  - inversion H' as [|b ? l0 ? Hbc Hrest]; subst. constructor; eauto.
Qed.

(** Roll data that encode to the same plain object hold the same raw field
    values. *)
Lemma sameRawFields_toObject (W W' W1 W1' : World) (x x' : AccDiffData) (v : value) :
  AccDiffData_toObject x W = (Ok v, W1) -> AccDiffData_toObject x' W' = (Ok v, W1') ->
  sameRawFields W x W' x'.
Proof.
  intros H H'.
  apply AccDiffData_toObject_inv in H as (w & b & vw & vb & vts & Hw & Hvw & Hb & Hvb & Ht & ->).
  apply AccDiffData_toObject_inv in H'
    as (w' & b' & vw' & vb' & vts' & Hw' & Hvw' & Hb' & Hvb' & Ht' & Hv).
  injection Hv as Hti <- <- <-.
  split; [now symmetry|]. split; [|split].
  - unfold AccDiffWeapon_schema_encode in Hvw, Hvw'.
    destruct (type_encode _ (weapon_plugins w)) as [pw|] eqn:E; [|discriminate].
    destruct (type_encode _ (weapon_plugins w')) as [pw'|] eqn:E'; [|discriminate].
    injection Hvw as <-. injection Hvw' as Ha Hi Hs Hp.
    exists w, w', pw. rewrite Hp in E'. auto 10.
  - unfold AccDiffBase_schema_encode in Hvb, Hvb'. cbn in Hvb, Hvb'.
    destruct (type_encode _ (base_plugins b)) as [pb|] eqn:E; [|discriminate].
    destruct (type_encode _ (base_plugins b')) as [pb'|] eqn:E'; [|discriminate].
    injection Hvb as <-. injection Hvb' as Ha Hd Hc Hp.
    exists b, b', pb. rewrite Hp in E'. auto 10.
  - eapply Forall2_impl; [exact (Forall2_common _ _ _ _ _ Ht Ht')|].
    intros t t' (vt & (y & Hy & Hraw) & (y' & Hy' & Hraw')).
    unfold rawTarget in Hraw, Hraw'.
    destruct (tokenHeap W !! target y) as [tk|] eqn:Htk; [|discriminate].
    destruct (tokenHeap W' !! target y') as [tk'|] eqn:Htk'; [|discriminate].
    unfold AccDiffTarget_schema_encode in Hraw, Hraw'. cbn in Hraw, Hraw'.
    destruct (type_encode _ (target_plugins y)) as [pt|] eqn:E; [|discriminate].
    destruct (type_encode _ (target_plugins y')) as [pt'|] eqn:E'; [|discriminate].
    injection Hraw as <-. injection Hraw' as Hid Ha Hd Hc Hl Hp.
    exists y, y', tk, tk', pt. rewrite Hp in E'. auto 15.
Qed.

End RoundTrip.

(** * The registry of the examples *)

Section RegistryExample.
#[local] Existing Instance demoHost.

Lemma demoCodec_lawful : lawfulCodec demoCodec.
Proof.
  split.
  - intros [n h]. exists (demoDatum n false). split; reflexivity.
  - intros d h [n b]. reflexivity.
Qed.

Lemma registeredWorld_lawful : lawfulRegistry registeredWorld.
Proof.
  apply AccDiffData_registerPlugin_lawful; [apply demoCodec_lawful|].
  assert (H : lawfulSchema []) by (split; [apply NoDup_nil_2|intros k type []]).
  split; [|split]; exact H.
Qed.

End RegistryExample.

(** * The registry *)

Section RegistryLemmas.
Context {host : PluginHost}.

Lemma schemaGet_schemaSet (k k0 : string) (c : PluginCodec) (s : PluginSchema) :
  schemaGet k (schemaSet k0 c s) = if String.eqb k0 k then Some c else schemaGet k s.
Proof.
  induction s as [|[k' c'] s IH]; cbn.
  - rewrite (String.eqb_sym k k0). reflexivity.
  - destruct (String.eqb k0 k') eqn:E0; cbn.
    + apply String.eqb_eq in E0. subst k'. rewrite (String.eqb_sym k k0).
      now destruct (String.eqb k0 k).
    + destruct (String.eqb k k') eqn:E.
      * apply String.eqb_eq in E. subst k'. now rewrite E0.
      * exact IH.
Qed.

Lemma schemaSet_schemaSet (k : string) (c : PluginCodec) (s : PluginSchema) :
  schemaSet k c (schemaSet k c s) = schemaSet k c s.
Proof.
  induction s as [|[k' c'] s IH]; cbn.
  - now rewrite String.eqb_refl.
  - destruct (String.eqb k k') eqn:E; cbn.
    + now rewrite String.eqb_refl.
    + now rewrite E, IH.
Qed.

Lemma NoDup_schemaSet (k : string) (c : PluginCodec) (s : PluginSchema) :
  NoDup (s.*1) -> NoDup ((schemaSet k c s).*1).
Proof.
  intros Hnd. destruct (in_dec String.string_dec k (s.*1)) as [Hin|Hout].
  - now rewrite schemaSet_keys_In.
  - rewrite schemaSet_keys_notIn by assumption.
    apply NoDup_app. split; [assumption|]. split; [|apply NoDup_singleton].
    intros x Hx Hx'. apply list_elem_of_singleton in Hx'. subst x.
    apply Hout. now apply list_elem_of_In.
Qed.

Lemma schemaOf_snoc (produces : AccDiffPlugin -> bool) (ps : list AccDiffPlugin)
    (p : AccDiffPlugin) :
  schemaOf produces (ps ++ [p]) =
    if produces p then schemaSet (slug p) (codec p) (schemaOf produces ps)
    else schemaOf produces ps.
Proof. unfold schemaOf. now rewrite fold_left_app. Qed.

Lemma NoDup_schemaOf (produces : AccDiffPlugin -> bool) (ps : list AccDiffPlugin) :
  NoDup ((schemaOf produces ps).*1).
Proof.
  induction ps as [|p ps IH] using rev_ind; [apply NoDup_nil_2|].
  rewrite schemaOf_snoc. destruct (produces p); [now apply NoDup_schemaSet|exact IH].
Qed.

Lemma AccDiffData_registerPlugin_eval (plugin : AccDiffPlugin) (W : World) :
  AccDiffData_registerPlugin plugin W =
    (Ok tt,
     mkWorld (weaponHeap W) (baseHeap W) (targetHeap W) (tokenHeap W) (sceneTokens W)
       (notifications W) (events W)
       (if hasPerRoll plugin
        then schemaSet (slug plugin) (codec plugin) (Weapon_pluginSchema W)
        else Weapon_pluginSchema W)
       (if hasPerUnknownTarget plugin
        then schemaSet (slug plugin) (codec plugin) (Base_pluginSchema W)
        else Base_pluginSchema W)
       (if hasPerTarget plugin
        then schemaSet (slug plugin) (codec plugin) (Target_pluginSchema W)
        else Target_pluginSchema W)
       (Data_plugins W ++ [plugin])
       (if hasPerTarget plugin then Data_targetedPlugins W ++ [plugin]
        else Data_targetedPlugins W)).
Proof.
  unfold AccDiffData_registerPlugin, hasPerRoll, hasPerUnknownTarget, hasPerTarget,
    when, bind, modify, ret.
  destruct W.
  destruct (bool_decide (is_Some (perRoll plugin)));
    destruct (bool_decide (is_Some (perUnknownTarget plugin)));
    destruct (bool_decide (is_Some (perTarget plugin))); reflexivity.
Qed.

End RegistryLemmas.

(** * The getters of a target *)

Section GetterLemmas.
Context {host : PluginHost}.

Lemma isLockOn_true (eff : Effect) :
  isLockOn eff = Ok true <-> flags_core eff = Some (Some "lockon").
Proof.
  unfold isLockOn. destruct (flags_core eff) as [[s|]|]; split; try discriminate.
  - intros [= H]. apply String.eqb_eq in H. now subst.
  - intros [= ->]. reflexivity.
Qed.

Lemma isLockOn_false (eff : Effect) :
  isLockOn eff = Ok false <-> otherEffect eff.
Proof.
  unfold isLockOn, otherEffect. destruct (flags_core eff) as [[s|]|]; split.
  - intros [= H]. apply String.eqb_neq in H. exists (Some s). split; congruence.
  - intros (core & [= <-] & Hne). f_equal. apply String.eqb_neq. congruence.
  - intros _. exists None. split; [reflexivity|discriminate].
  - reflexivity.
  - discriminate.
  - intros (core & H & _). discriminate.
Qed.

Lemma isLockOn_Throw (eff : Effect) (e : Error) :
  isLockOn eff = Throw e <-> flags_core eff = None /\ e = TypeError.
Proof.
  unfold isLockOn. destruct (flags_core eff) as [[s|]|]; split;
    try discriminate; try (intros [? _]; discriminate).
  - now intros [= <-].
  - now intros [_ ->].
Qed.

Lemma findLockOn_Some (effects : list Effect) (eff : Effect) :
  findLockOn effects = Ok (Some eff) <->
  exists before after,
    effects = before ++ eff :: after /\ isLockOn eff = Ok true
    /\ Forall (fun e => isLockOn e = Ok false) before.
Proof.
  induction effects as [|e0 l IH]; cbn.
  - split; [discriminate|]. intros ([|? ?] & ? & ? & _); discriminate.
  - destruct (isLockOn e0) as [[|]|err] eqn:E.
    + split.
      * intros [= <-]. exists [], l. auto.
      * intros ([|y before] & after & Heq & He & Hb); injection Heq as -> ->.
        -- reflexivity.
        -- apply Forall_cons in Hb as [Hy _]. congruence.
    + rewrite IH. split.
      * intros (before & after & -> & He & Hb). exists (e0 :: before), after. auto.
      * intros ([|y before] & after & Heq & He & Hb); injection Heq as -> ->.
        -- congruence.
        -- apply Forall_cons in Hb as [_ Hb]. eauto.
    + split; [discriminate|].
      intros ([|y before] & after & Heq & He & Hb); injection Heq as -> ->.
      * congruence.
      * apply Forall_cons in Hb as [Hy _]. congruence.
Qed.

Lemma findLockOn_Throw (effects : list Effect) (err : Error) :
  findLockOn effects = Throw err <->
  exists before eff after,
    effects = before ++ eff :: after /\ isLockOn eff = Throw err
    /\ Forall (fun e => isLockOn e = Ok false) before.
Proof.
  induction effects as [|e0 l IH]; cbn.
  - split; [discriminate|]. intros ([|? ?] & ? & ? & ? & _); discriminate.
  - destruct (isLockOn e0) as [[|]|err0] eqn:E.
    + split; [discriminate|].
      intros ([|y before] & eff & after & Heq & He & Hb); injection Heq as -> ->.
      * congruence.
      * apply Forall_cons in Hb as [Hy _]. congruence.
    + rewrite IH. split.
      * intros (before & eff & after & -> & He & Hb).
        exists (e0 :: before), eff, after. auto.
      * intros ([|y before] & eff & after & Heq & He & Hb); injection Heq as -> ->.
        -- congruence.
        -- apply Forall_cons in Hb as [_ Hb]. exists before, eff, after. auto.
    + split.
      * intros [= <-]. exists [], e0, l. auto.
      * intros ([|y before] & eff & after & Heq & He & Hb); injection Heq as -> ->.
        -- congruence.
        -- apply Forall_cons in Hb as [Hy _]. congruence.
Qed.

Lemma findLockOn_None (effects : list Effect) :
  findLockOn effects = Ok None <-> Forall (fun e => isLockOn e = Ok false) effects.
Proof.
  induction effects as [|e0 l IH]; cbn; [split; [constructor|reflexivity]|].
  rewrite Forall_cons. destruct (isLockOn e0) as [[|]|err]; rewrite <- ?IH;
    split; try discriminate; try tauto; intros [? _]; discriminate.
Qed.

End GetterLemmas.

(** * The plugin slots under hydration *)

Section HydrationLemmas.
Context {host : PluginHost}.

Lemma get_prop_data (k : string) (o : object) (y : PluginData) :
  get k o = Some (VData y) -> prop k o = VData y.
Proof. intros H. unfold prop. now rewrite H. Qed.

(** Each key of the loop is hydrated once; the other slots stay. *)
Lemma hydratePlugins_once (d : AccDiffData) (h : option Holder) (ks : list string)
    (o : object) (k : string) (y : PluginData) :
  NoDup ks -> forallb (fun k => isData (prop k o)) ks = true ->
  get k o = Some (VData y) ->
  get k (hydratePlugins d h ks o).2 =
    Some (VData (if bool_decide (k ∈ ks) then pluginHydrate d h y else y)).
Proof.
  revert o y. induction ks as [|k0 ks IH]; intros o y Hnd Hall Hk; cbn.
  - now rewrite bool_decide_eq_false_2 by apply not_elem_of_nil.
  - apply NoDup_cons in Hnd as [Hk0 Hnd]. cbn in Hall.
    apply andb_true_iff in Hall as [Hd0 Hall].
    destruct (prop k0 o) as [| | | | | | |x0] eqn:E0; try discriminate.
    assert (Hall' : forallb (fun k1 => isData (prop k1 (set k0 (VData (pluginHydrate d h x0)) o)))
                      ks = true).
    { apply forallb_forall. intros k' Hk'. rewrite forallb_forall in Hall.
      destruct (String.string_dec k0 k') as [->|Hne].
      - now rewrite prop_set_eq.
      - rewrite prop_set_ne by assumption. now apply Hall. }
    destruct (String.string_dec k0 k) as [->|Hne].
    + rewrite (IH _ (pluginHydrate d h x0) Hnd Hall') by apply get_set_eq.
      rewrite bool_decide_eq_false_2 by assumption.
      rewrite bool_decide_eq_true_2 by apply list_elem_of_here.
      apply get_prop_data in Hk. congruence.
    + rewrite (IH _ y Hnd Hall') by (rewrite get_set_ne by assumption; exact Hk).
      destruct (bool_decide (k ∈ ks)) eqn:E.
      * rewrite bool_decide_eq_true_2; [reflexivity|].
        apply list_elem_of_further. now apply bool_decide_eq_true_1 in E.
      * rewrite bool_decide_eq_false_2; [reflexivity|].
        apply bool_decide_eq_false_1 in E.
        intros Hin. apply elem_of_cons in Hin as [?|?]; [congruence|tauto].
Qed.

Lemma slotsHydrated_hydratedPlugins (d : AccDiffData) (h : option Holder) (o : object) :
  NoDup (keys o) -> allData o = true -> slotsHydrated d h o (hydratedPlugins d h o).
Proof.
  intros Hnd Hall. split.
  - apply hydratePlugins_keys. auto.
  - intros k y Hk. unfold hydratedPlugins.
    rewrite (hydratePlugins_once d h (keys o) o k y Hnd Hall Hk).
    rewrite bool_decide_eq_true_2; [reflexivity|].
    apply list_elem_of_In. eapply get_Some_In. exact Hk.
Qed.

(** The loop over the slots throws nothing but the type error of a slot
    without a [hydrate] method. *)
Lemma hydratePlugins_result (d : AccDiffData) (h : option Holder) (ks : list string)
    (o : object) :
  (hydratePlugins d h ks o).1 = Ok tt \/ (hydratePlugins d h ks o).1 = Throw TypeError.
Proof.
  revert o. induction ks as [|k ks IH]; intros o; cbn; [now left|].
  destruct (prop k o); try (now right). apply IH.
Qed.

Lemma hydratePlugins_throws (d : AccDiffData) (h : option Holder) (o : object) :
  allData o = false ->
  exists o', hydratePlugins d h (keys o) o = (Throw TypeError, o').
Proof.
  intros Hall. destruct (hydratePlugins_result d h (keys o) o) as [H|H].
  - apply hydratePlugins_Ok_inv in H. unfold allData in Hall. congruence.
  - destruct (hydratePlugins d h (keys o) o) as [r o']. cbn in H. subst. eauto.
Qed.

End HydrationLemmas.

(** * What a decoding has validated *)

Section DecodingLemmas.
Context {host : PluginHost}.

Lemma t_boolean_inv (u : value) (c : Path) (b : bool) :
  t_boolean u c = inr b -> u = VBool b.
Proof. destruct u; cbn; congruence. Qed.

Lemma t_number_inv (u : value) (c : Path) (n : number) :
  t_number u c = inr n -> u = VNum n.
Proof. destruct u; cbn; congruence. Qed.

Lemma t_string_inv (u : value) (c : Path) (s : string) :
  t_string u c = inr s -> u = VStr s.
Proof. destruct u; cbn; congruence. Qed.

Lemma coverSchema_inv (u : value) (c : Path) (n : number) :
  coverSchema u c = inr n -> u = VNum n.
Proof. intros H. now apply coverSchema_inr in H as [H _]. Qed.

Lemma AccDiffBase_schema_validate_inv (ps : PluginSchema) (bo : object) (c : Path)
    (b : BaseRaw) :
  AccDiffBase_schema_validate ps (VObj bo) c = inr b ->
  prop "accuracy" bo = VNum (raw_accuracy b)
  /\ prop "difficulty" bo = VNum (raw_difficulty b)
  /\ prop "cover" bo = VNum (raw_cover b)
  /\ type_validate ps (prop "plugins" bo) (c ++ ["plugins"]) = inr (raw_plugins b).
Proof.
  unfold AccDiffBase_schema_validate. cbn [UnknownRecord]. intros H.
  apply ap_inr_inv in H as (g & a & Hg & Ha & ->).
  apply ap_inr_inv in Hg as (g1 & a1 & Hg1 & Ha1 & ->).
  apply ap_inr_inv in Hg1 as (g2 & a2 & Hg2 & Ha2 & ->).
  apply ap_inr_inv in Hg2 as (g3 & a3 & [= <-] & Ha3 & ->). cbn.
  apply t_number_inv in Ha3, Ha2. apply coverSchema_inv in Ha1. auto.
Qed.

Lemma AccDiffTarget_schema_validate_inv (ps : PluginSchema) (uo : object) (c : Path)
    (obj : TargetRaw) :
  AccDiffTarget_schema_validate ps (VObj uo) c = inr obj ->
  prop "target_id" uo = VStr (raw_target_id obj)
  /\ prop "accuracy" uo = VNum (raw_target_accuracy obj)
  /\ prop "difficulty" uo = VNum (raw_target_difficulty obj)
  /\ prop "cover" uo = VNum (raw_target_cover obj)
  /\ prop "consumeLockOn" uo = VBool (raw_consumeLockOn obj)
  /\ type_validate ps (prop "plugins" uo) (c ++ ["plugins"]) = inr (raw_target_plugins obj).
Proof.
  unfold AccDiffTarget_schema_validate. cbn [UnknownRecord]. intros H.
  apply ap_inr_inv in H as (g & a & Hg & Ha & ->).
  apply ap_inr_inv in Hg as (g1 & a1 & Hg1 & Ha1 & ->).
  apply ap_inr_inv in Hg1 as (g2 & a2 & Hg2 & Ha2 & ->).
  apply ap_inr_inv in Hg2 as (g3 & a3 & Hg3 & Ha3 & ->).
  apply ap_inr_inv in Hg3 as (g4 & a4 & Hg4 & Ha4 & ->).
  apply ap_inr_inv in Hg4 as (g5 & a5 & [= <-] & Ha5 & ->). cbn.
  apply t_string_inv in Ha5. apply t_number_inv in Ha4, Ha3.
  apply coverSchema_inv in Ha2. apply t_boolean_inv in Ha1. auto 10.
Qed.

Lemma AccDiffTarget_schema_validate_VObj (ps : PluginSchema) (u : value) (c : Path)
    (obj : TargetRaw) :
  AccDiffTarget_schema_validate ps u c = inr obj -> exists uo, u = VObj uo.
Proof. destruct u; try discriminate. eauto. Qed.

(** The targets [t.array] constructs, record by record. *)
Lemma constructTargets_lookup (ps : PluginSchema) (W : World) (us : list value) (i : nat)
    (c : Path) (objs : list AccDiffTarget) :
  constructTargets ps W us i c = Some objs ->
  Forall2 (fun u x => exists (j : nat) obj tk,
             AccDiffTarget_schema_validate ps u (c ++ [pretty j]) = inr obj
             /\ tokens_get (raw_target_id obj) W = Some tk
             /\ x = targetOf tk obj) us objs.
Proof.
  revert i objs. induction us as [|u us IH]; intros i objs H; cbn in H.
  - injection H as <-. constructor.
  - destruct (AccDiffTarget_schema_validate ps u (c ++ [pretty i])) as [?|obj] eqn:Ev;
      [discriminate|].
    destruct (tokens_get (raw_target_id obj) W) as [tk|] eqn:Eg; [|discriminate].
    destruct (constructTargets ps W us (S i) c) as [objs'|] eqn:Ec; [|discriminate].
    injection H as <-. constructor; [eauto 10|]. now apply (IH (S i)).
Qed.

Lemma constructTargets_at (ps : PluginSchema) (W : World) (us : list value) (i : nat)
    (c : Path) (objs : list AccDiffTarget) (j : nat) (u : value) :
  constructTargets ps W us i c = Some objs -> us !! j = Some u ->
  exists obj tk,
    AccDiffTarget_schema_validate ps u (c ++ [pretty (i + j)%nat]) = inr obj
    /\ tokens_get (raw_target_id obj) W = Some tk
    /\ objs !! j = Some (targetOf tk obj).
Proof.
  revert i objs j. induction us as [|u0 us IH]; intros i objs j H Hj; [discriminate|].
  cbn in H.
  destruct (AccDiffTarget_schema_validate ps u0 (c ++ [pretty i])) as [?|obj] eqn:Ev;
    [discriminate|].
  destruct (tokens_get (raw_target_id obj) W) as [tk|] eqn:Eg; [|discriminate].
  destruct (constructTargets ps W us (S i) c) as [objs'|] eqn:Ec; [|discriminate].
  injection H as <-. destruct j as [|j].
  - injection Hj as <-. rewrite Nat.add_0_r. eauto.
  - cbn in Hj. destruct (IH (S i) objs' j Ec Hj) as (obj' & tk' & Hv & Hg & Ho).
    rewrite <- Nat.add_succ_comm. eauto.
Qed.

Lemma tokens_get_scene (id : string) (W : World) (r : ref) :
  tokens_get id W = Some r -> In r (sceneTokens W).
Proof. unfold tokens_get. intros H. now apply List.find_some in H as [H _]. Qed.

(** The validation of a plugin map keeps the keys of the map. *)
Lemma type_validate_keys (s : PluginSchema) (po a : object) (c : Path) (k : string) :
  type_validate s (VObj po) c = inr a -> In k (keys po) -> In k (keys a).
Proof.
  unfold type_validate. cbn [UnknownRecord]. intros H Hk.
  pose proof (type_validate_loop_inv s c po []) as (_ & _ & Hkeep & Hdecl).
  destruct (type_validate_loop s c po []) as [a' e] eqn:E. cbn in *.
  destruct e; [|discriminate]. injection H as <-.
  destruct (in_dec String.string_dec k (s.*1)) as [Hin|Hout].
  - now apply Hdecl.
  - destruct (get k a') eqn:G; [eapply get_Some_In; eassumption|].
    rewrite Hkeep in G by assumption. apply get_None in G. contradiction.
Qed.

(** The totals read the entities and the token; a store that keeps them
    keeps the totals. *)
Lemma AccDiffBase_total_kept (W W' : World) (this : ref) (v : number) :
  (forall (r : ref) x, weaponHeap W !! r = Some x -> weaponHeap W' !! r = Some x) ->
  (forall (r : ref) x, baseHeap W !! r = Some x -> baseHeap W' !! r = Some x) ->
  AccDiffBase_total this W = (Ok v, W) -> AccDiffBase_total this W' = (Ok v, W').
Proof.
  intros Hw Hb. unfold AccDiffBase_total, bind, readBase, readWeapon, deref, private.
  destruct (baseHeap W !! this) as [x|] eqn:Ex; [|discriminate].
  rewrite (Hb _ _ Ex). destruct (base_weapon x) as [wr|]; cbn; [|discriminate].
  destruct (weaponHeap W !! wr) as [w|] eqn:Ew; [|discriminate].
  repeat (rewrite ?Ew, ?(Hw _ _ Ew); cbn). unfold ret. now intros [= <-].
Qed.

Lemma AccDiffTarget_total_kept (W W' : World) (this : ref) (v : number) :
  (forall (r : ref) x, weaponHeap W !! r = Some x -> weaponHeap W' !! r = Some x) ->
  (forall (r : ref) x, baseHeap W !! r = Some x -> baseHeap W' !! r = Some x) ->
  (forall (r : ref) x, targetHeap W !! r = Some x -> targetHeap W' !! r = Some x) ->
  tokenHeap W' = tokenHeap W ->
  AccDiffTarget_total this W = (Ok v, W) -> AccDiffTarget_total this W' = (Ok v, W').
Proof.
  intros Hw Hb Ht Hk.
  unfold AccDiffTarget_total, AccDiffTarget_usingLockOn, AccDiffTarget_lockOnAvailable,
    bind, readTarget, readBase, readWeapon, readToken, deref, private.
  destruct (targetHeap W !! this) as [x|] eqn:Ex; [|discriminate].
  rewrite (Ht _ _ Ex). destruct (target_weapon x) as [wr|]; cbn; [|discriminate].
  destruct (weaponHeap W !! wr) as [w|] eqn:Ew; [|discriminate].
  repeat (rewrite ?Ew, ?(Hw _ _ Ew); cbn).
  destruct (target_base x) as [br|]; cbn; [|discriminate].
  destruct (baseHeap W !! br) as [b|] eqn:Eb; [|discriminate].
  repeat (rewrite ?Eb, ?(Hb _ _ Eb); cbn). rewrite Ex, (Ht _ _ Ex).
  destruct (consumeLockOn x); cbn; unfold ret; [|now intros [= <-]].
  rewrite Ex, (Ht _ _ Ex), Hk.
  destruct (tokenHeap W !! target x) as [tk|]; cbn; [|discriminate].
  destruct (token_actor tk) as [actor|]; [|discriminate].
  unfold liftResult, throw.
  destruct (findLockOn (actor_effects actor)); cbn; [|discriminate]. now intros [= <-].
Qed.

End DecodingLemmas.

(** * The defaults of the factory *)

Section FactoryDefaults.
Context {host : PluginHost}.

Lemma mapM_targetRecord_Ok_inv (l : list ref) (W W1 : World) (ots : list value) :
  mapM targetRecord l W = (Ok ots, W1) -> W1 = W /\ Forall2 (recordOf W) l ots.
Proof.
  intros H. split.
  { pose proof (readOnly_mapM targetRecord l readOnly_targetRecord W) as Hro.
    now rewrite H in Hro. }
  revert ots W1 H. induction l as [|r l IH]; intros ots W1 H; cbn in H.
  - injection H as <- <-. constructor.
  - apply bind_Ok_inv in H as (u & W2 & Hu & H).
    assert (W2 = W) as ->.
    { pose proof (readOnly_targetRecord r W) as Hro. now rewrite Hu in Hro. }
    apply bind_Ok_inv in H as (us & W3 & Hus & H). injection H as <- <-.
    constructor; [|eapply IH; eassumption].
    unfold targetRecord, bind, readToken, deref, gets, liftResult, ret, throw in Hu.
    destruct (tokenHeap W !! r) as [tk|] eqn:Etk; [|discriminate].
    destruct (targetDefaults (Data_targetedPlugins W) tk []) as [m|] eqn:Em;
      [|discriminate].
    injection Hu as <-. exists tk, m. auto.
Qed.

Lemma mapM_targetRecord_Ok (l : list ref) (W : World) :
  (forall r, In r l -> exists tk m, tokenHeap W !! r = Some tk
       /\ targetDefaults (Data_targetedPlugins W) tk [] = Ok m) ->
  exists ots, mapM targetRecord l W = (Ok ots, W) /\ Forall2 (recordOf W) l ots.
Proof.
  induction l as [|r l IH]; intros Hl; cbn [mapM].
  - exists []. split; [reflexivity|constructor].
  - destruct (Hl r (or_introl eq_refl)) as (tk & m & Htk & Hm).
    destruct IH as (ots & Hrun & Hrec); [intros; apply Hl; now right|].
    eexists (_ :: ots). split.
    + erewrite bind_Ok.
      2:{ unfold targetRecord. erewrite bind_Ok by (apply (deref_Some tokenHeap); exact Htk).
          unfold bind, gets, liftResult. rewrite Hm. reflexivity. }
      erewrite bind_Ok by exact Hrun. reflexivity.
    + constructor; [|exact Hrec]. exists tk, m. auto.
Qed.

Lemma In_schemaSet_keys (k k0 : string) (c : PluginCodec) (s : PluginSchema) :
  In k ((schemaSet k0 c s).*1) <-> k = k0 \/ In k (s.*1).
Proof.
  destruct (in_dec String.string_dec k0 (s.*1)) as [Hin|Hout].
  - rewrite schemaSet_keys_In by assumption. split; [tauto|].
    intros [->|H]; assumption.
  - rewrite schemaSet_keys_notIn by assumption. rewrite in_app_iff. cbn.
    split; [intros [H|[H|[]]]|intros [H|H]]; auto.
Qed.

Lemma filledBy_nil : filledBy [] [] [].
Proof.
  split; [apply NoDup_nil_2|]. split; [reflexivity|]. intros k type H. discriminate.
Qed.

Lemma filledBy_skip (ps : list AccDiffPlugin) (p : AccDiffPlugin) (s : PluginSchema)
    (m : object) :
  filledBy ps s m -> filledBy (ps ++ [p]) s m.
Proof.
  intros (Hnd & Hk & Hc). split; [exact Hnd|]. split; [exact Hk|].
  intros k type Hs. destruct (Hc k type Hs) as (q & x & Hq & -> & Hg).
  exists q, x. rewrite in_app_iff. auto.
Qed.

Lemma filledBy_set (ps : list AccDiffPlugin) (p : AccDiffPlugin) (s : PluginSchema)
    (m : object) (x : PluginData) :
  filledBy ps s m ->
  filledBy (ps ++ [p]) (schemaSet (slug p) (codec p) s)
    (set (slug p) (plugin_encode (codec p) x) m).
Proof.
  intros (Hnd & Hk & Hc). split; [now apply NoDup_keys_set|]. split.
  - intros k. rewrite In_keys_set, In_schemaSet_keys, Hk. reflexivity.
  - intros k type. rewrite schemaGet_schemaSet.
    destruct (String.eqb (slug p) k) eqn:E.
    + apply String.eqb_eq in E. subst k. intros [= <-].
      exists p, x. rewrite in_app_iff, get_set_eq. cbn. auto.
    + apply String.eqb_neq in E. intros Hs.
      destruct (Hc k type Hs) as (q & y & Hq & -> & Hg).
      exists q, y. rewrite in_app_iff, get_set_ne by assumption. auto.
Qed.

(** The loop of [fromParams] over the plugins fills the two plugin maps as
    registration has filled the schemas of the weapon and of the base. *)
Lemma fold_rollDefaults_filled (item : option LancerItem) (ps : list AccDiffPlugin) :
  filledBy ps (schemaOf hasPerRoll ps) (fold_left (rollDefaults item) ps ([], [])).1
  /\ filledBy ps (schemaOf hasPerUnknownTarget ps)
       (fold_left (rollDefaults item) ps ([], [])).2.
Proof.
  induction ps as [|p ps [IH1 IH2]] using rev_ind; [split; apply filledBy_nil|].
  rewrite fold_left_app, !schemaOf_snoc. cbn [fold_left].
  unfold rollDefaults at 1 3, hasPerRoll, hasPerUnknownTarget. cbn [fst snd].
  split.
  - destruct (perRoll p) as [f|]; cbn;
      [now apply filledBy_set|now apply filledBy_skip].
  - destruct (perUnknownTarget p) as [f|]; cbn;
      [now apply filledBy_set|now apply filledBy_skip].
Qed.

Lemma targetDefaults_snoc (ps : list AccDiffPlugin) (p : AccDiffPlugin) (t : Token)
    (acc : object) :
  targetDefaults (ps ++ [p]) t acc =
    match targetDefaults ps t acc with
    | Ok m =>
        match perTarget p with
        | Some f => Ok (set (slug p) (plugin_encode (codec p) (f t)) m)
        | None => Throw TypeError
        end
    | Throw e => Throw e
    end.
Proof.
  revert acc. induction ps as [|q ps IH]; intros acc; cbn.
  - now destruct (perTarget p).
  - destruct (perTarget q); [apply IH|reflexivity].
Qed.

(** The loop over the targeted plugins fills the plugin map of a target as
    registration has filled the schema of the targets. *)
Lemma targetDefaults_filled (ps : list AccDiffPlugin) (tk : Token) :
  exists m, targetDefaults (List.filter hasPerTarget ps) tk [] = Ok m
            /\ filledBy ps (schemaOf hasPerTarget ps) m.
Proof.
  induction ps as [|p ps (m & Hm & IH)] using rev_ind.
  - exists []. split; [reflexivity|apply filledBy_nil].
  - rewrite List.filter_app, schemaOf_snoc. cbn [List.filter].
    unfold hasPerTarget at 2 3. destruct (perTarget p) as [f|] eqn:Ef; cbn.
    + rewrite targetDefaults_snoc, Hm, Ef. eexists. split; [reflexivity|].
      now apply filledBy_set.
    + rewrite app_nil_r. exists m. split; [exact Hm|now apply filledBy_skip].
Qed.

(** A plugin map filled by codecs that accept their own encodings
    validates, and every slot of the result holds plugin data. *)
Lemma type_validate_filled (ps : list AccDiffPlugin) (s : PluginSchema) (m : object)
    (c : Path) :
  NoDup (s.*1) -> filledBy ps s m -> (forall p, In p ps -> acceptsOwn (codec p)) ->
  exists a, type_validate s (VObj m) c = inr a /\ allData a = true.
Proof.
  intros Hnd (Hndm & Hk & Hc) Hps.
  destruct (type_validate_loop_spec s c m [] Hnd) as (a & Hrun & Hkeys & Hget).
  { intros k type Hin. apply In_schemaGet in Hin; [|exact Hnd].
    destruct (Hc k type Hin) as (p & x & Hp & -> & Hg).
    unfold prop. rewrite Hg. apply Hps, Hp. }
  { intros k. apply Hk. }
  exists a. unfold type_validate. cbn [UnknownRecord]. rewrite Hrun.
  split; [reflexivity|]. unfold allData. apply forallb_forall. intros k Hin.
  rewrite Hkeys in Hin. apply Hk in Hin.
  destruct (schemaGet_Some k s Hin) as (type & Hs).
  destruct (Hc k type Hs) as (p & x & Hp & -> & Hg).
  unfold prop at 1. rewrite Hget, Hs. unfold prop. rewrite Hg.
  destruct (Hps p Hp x) as (y & Hy). cbn. rewrite Hy. reflexivity.
Qed.

End FactoryDefaults.

Section FactoryRuns.
Context {host : PluginHost}.

(** [fromParams] decodes the plain object it builds from its arguments. *)
Lemma AccDiffData_fromParams_unfold (W : World) (item : option LancerItem)
    (tags : option (list TagInstance)) (supplied : option string)
    (targets : option (list ref)) (starting : option (number * number)) (ots : list value) :
  mapM targetRecord (default [] targets) W = (Ok ots, W) ->
  AccDiffData_fromParams item tags supplied targets starting W =
    AccDiffData_fromObject
      (VObj [("title", VStr (rollTitle supplied));
             ("weapon",
              VObj [("accurate", VBool (existsb (hasLID "tg_accurate") (default [] tags)));
                    ("inaccurate",
                     VBool (existsb (hasLID "tg_inaccurate") (default [] tags)));
                    ("seeking", VBool (existsb (hasLID "tg_seeking") (default [] tags)));
                    ("plugins",
                     VObj (fold_left (rollDefaults item) (Data_plugins W) ([], [])).1)]);
             ("base",
              VObj [("cover", VNum (Cover.value Cover.None));
                    ("accuracy", VNum (if starting is Some s then s.1 else 0)%float);
                    ("difficulty", VNum (if starting is Some s then s.2 else 0)%float);
                    ("plugins",
                     VObj (fold_left (rollDefaults item) (Data_plugins W) ([], [])).2)]);
             ("targets", VArr ots)]) W.
Proof.
  intros Hts. unfold AccDiffData_fromParams.
  erewrite bind_Ok by exact Hts. erewrite bind_Ok by reflexivity.
  rewrite fold_tagCase. reflexivity.
Qed.

Lemma AccDiffData_fromParams_decoded (W W' : World) (item : option LancerItem)
    (tags : option (list TagInstance)) (supplied : option string)
    (targets : option (list ref)) (starting : option (number * number)) (d : AccDiffData) :
  AccDiffData_fromParams item tags supplied targets starting W = (Ok d, W') ->
  exists p ots,
    constructed W p d W'
    /\ Forall2 (recordOf W) (default [] targets) ots
    /\ constructTargets (Target_pluginSchema W) W ots 0 ["targets"] = Some (d_targets p)
    /\ raw_accuracy (d_base p) = (if starting is Some s then s.1 else 0)%float
    /\ raw_difficulty (d_base p) = (if starting is Some s then s.2 else 0)%float
    /\ raw_cover (d_base p) = Cover.value Cover.None
    /\ accurate (d_weapon p) = existsb (hasLID "tg_accurate") (default [] tags)
    /\ inaccurate (d_weapon p) = existsb (hasLID "tg_inaccurate") (default [] tags)
    /\ seeking (d_weapon p) = existsb (hasLID "tg_seeking") (default [] tags).
Proof.
  intros H.
  assert (Hts : exists ots, mapM targetRecord (default [] targets) W = (Ok ots, W)).
  { unfold AccDiffData_fromParams in H. apply bind_Ok_inv in H as (ots & W1 & Hts & _).
    destruct (mapM_targetRecord_Ok_inv _ _ _ _ Hts) as [-> _]. eauto. }
  destruct Hts as (ots & Hts).
  rewrite (AccDiffData_fromParams_unfold _ _ _ _ _ _ _ Hts) in H.
  apply mapM_targetRecord_Ok_inv in Hts as [_ Hrec].
  apply AccDiffData_fromObject_Ok_inv in H as (o & p & [= <-] & Hp & _ & Hc).
  apply decodePlain_Some_inv in Hp as (_ & Hvw & Hvb & us & Hus & Hct).
  injection Hus as <-.
  apply AccDiffWeapon_schema_validate_inv in Hvw as (Hac & Hin & Hse & _).
  injection Hac as Hac. injection Hin as Hin. injection Hse as Hse.
  apply AccDiffBase_schema_validate_inv in Hvb as (Ha & Hd & Hcv & _).
  injection Ha as Ha. injection Hd as Hd. injection Hcv as Hcv.
  exists p, ots. split; [exact Hc|]. split; [exact Hrec|]. split; [exact Hct|].
  split; [now symmetry|]. split; [now symmetry|].
  split; [now symmetry|]. auto.
Qed.

Lemma AccDiffData_fromParams_length (W W' : World) (item : option LancerItem)
    (tags : option (list TagInstance)) (supplied : option string)
    (targets0 : option (list ref)) (starting : option (number * number)) (d : AccDiffData) :
  AccDiffData_fromParams item tags supplied targets0 starting W = (Ok d, W') ->
  length (targets d) = length (default [] targets0).
Proof.
  intros H. apply AccDiffData_fromParams_decoded in H
    as (p & ots & (-> & _) & Hrec & Hct & _).
  apply Forall2_length in Hrec. apply constructTargets_lookup, Forall2_length in Hct.
  cbn. rewrite length_seq. congruence.
Qed.

(** With a registry as registration builds it, whose codecs accept their
    own encodings, the record of a token validates. *)
Lemma recordOf_validate (W : World) (r : ref) (u : value) (c : Path) :
  registryOK W -> (forall p, In p (Data_plugins W) -> acceptsOwn (codec p)) ->
  recordOf W r u ->
  exists tk a,
    tokenHeap W !! r = Some tk
    /\ AccDiffTarget_schema_validate (Target_pluginSchema W) u c
       = inr (mkTargetRaw (token_id tk) 0 0 (Cover.value Cover.None) true a)
    /\ allData a = true.
Proof.
  intros (_ & _ & Hs & Hl) Hps (tk & m & Htk & Hm & ->).
  destruct (targetDefaults_filled (Data_plugins W) tk) as (m' & Hm' & Hf).
  rewrite Hl, Hm' in Hm. injection Hm as ->.
  destruct (type_validate_filled (Data_plugins W) (Target_pluginSchema W) m
              (c ++ ["plugins"])) as (a & Ha & Hall).
  { rewrite Hs. apply NoDup_schemaOf. }
  { now rewrite Hs. }
  { exact Hps. }
  exists tk, a. split; [exact Htk|]. split; [|exact Hall].
  unfold AccDiffTarget_schema_validate. cbn -[type_validate]. rewrite Ha. reflexivity.
Qed.

Lemma constructTargets_records (W : World) (l : list ref) (ots : list value) (i : nat)
    (c : Path) :
  registryOK W -> (forall p, In p (Data_plugins W) -> acceptsOwn (codec p)) ->
  Forall2 (recordOf W) l ots ->
  (forall r tk, In r l -> tokenHeap W !! r = Some tk ->
     is_Some (tokens_get (token_id tk) W)) ->
  exists objs, constructTargets (Target_pluginSchema W) W ots i c = Some objs
               /\ Forall (fun x => allData (target_plugins x) = true) objs.
Proof.
  intros Hreg Hps Hrec. revert i.
  induction Hrec as [|r u l ots Hr Hrec IH]; intros i Hscene; cbn [constructTargets].
  - exists []. split; [reflexivity|constructor].
  - destruct (recordOf_validate W r u (c ++ [pretty i]) Hreg Hps Hr)
      as (tk & a & Htk & Hv & Hall).
    rewrite Hv. cbn [raw_target_id].
    destruct (Hscene r tk (or_introl eq_refl) Htk) as (r' & ->).
    destruct (IH (S i)) as (objs & -> & Hobjs).
    { intros r0 tk0 Hin. apply Hscene. now right. }
    eexists. split; [reflexivity|]. constructor; [exact Hall|exact Hobjs].
Qed.

End FactoryRuns.

(** * The properties of the roll data *)

Section UnknownKeys.

Context {host : PluginHost}.

Lemma type_unknownKeys_In (props : PluginSchema) (po : object) (c : Path) (k : string) :
  In k (keys po) -> schemaGet k props = None ->
  In (c ++ [k]) (type_unknownKeys props (VObj po) c).
Proof.
  intros Hk Hs. cbn. apply undeclared_In; [exact Hk|].
  now apply schemaGet_None_keys.
Qed.

Lemma array_unknownKeys_In {A} (item : Codec A) (us : list value) (j : nat)
    (u : value) (i : nat) (c path : Path) :
  us !! j = Some u -> In path (unknownKeys item u (c ++ [pretty (i + j)%nat])) ->
  In path (array_unknownKeys item us i c).
Proof.
  revert i j. induction us as [|u0 us IH]; intros i j Hj Hin; [discriminate|].
  cbn [array_unknownKeys]. apply in_or_app. destruct j as [|j]; cbn in Hj.
  - injection Hj as ->. rewrite Nat.add_0_r in Hin. now left.
  - right. apply (IH (S i) j Hj). now rewrite <- Nat.add_succ_comm in Hin.
Qed.

(** A key of a plugin map that its schema does not have is among the
    unknown keys of the plain object, under its path. *)
Lemma unknownKeyAt_In (W : World) (o : object) (path : Path) :
  unknownKeyAt W o path -> In path (unknownOf W o).
Proof.
  intros [wo po k Hwo Hpo Hk Hs | bo po k Hbo Hpo Hk Hs
         | us j tobj po k Hus Hj Hpo Hk Hs];
    unfold unknownOf; cbn [unknownKeys AccDiffData_schemaCodec];
    apply in_or_app; right.
  - apply in_or_app; left. rewrite Hwo. cbn -[type_unknownKeys undeclared].
    apply in_or_app; right. rewrite Hpo.
    exact (type_unknownKeys_In _ po ["weapon"; "plugins"] k Hk Hs).
  - apply in_or_app; right. apply in_or_app; left.
    rewrite Hbo. cbn -[type_unknownKeys undeclared].
    apply in_or_app; right. rewrite Hpo.
    exact (type_unknownKeys_In _ po ["base"; "plugins"] k Hk Hs).
  - apply in_or_app; right. apply in_or_app; right.
    rewrite Hus. cbn [unknownKeys t_array].
    apply (array_unknownKeys_In _ us j (VObj tobj) 0 _ _ Hj).
    cbn -[type_unknownKeys undeclared].
    apply in_or_app; right. rewrite Hpo.
    exact (type_unknownKeys_In _ po ["targets"; pretty j; "plugins"] k Hk Hs).
Qed.


(** The plain object [fromParams] builds has no unknown key. *)
Lemma filledBy_unknownKeys (ps : list AccDiffPlugin) (s : PluginSchema) (m : object)
    (c : Path) :
  filledBy ps s m -> type_unknownKeys s (VObj m) c = [].
Proof.
  intros (_ & Hk & _). cbn. apply undeclared_nil. intros k Hin. now apply Hk.
Qed.

Lemma records_unknownKeys (W : World) (l : list ref) (ots : list value) (i : nat)
    (c : Path) :
  registryOK W -> Forall2 (recordOf W) l ots ->
  array_unknownKeys (AccDiffTarget_codec (Target_pluginSchema W)) ots i c = [].
Proof.
  intros Hreg Hrec. revert i.
  induction Hrec as [|r u l ots (tk & m & Htk & Hm & ->) Hrec IH]; intros i;
    [reflexivity|].
  cbn [array_unknownKeys]. rewrite IH, app_nil_r.
  destruct (targetDefaults_filled (Data_plugins W) tk) as (m' & Hm' & Hf).
  destruct Hreg as (_ & _ & Hs & Hl). rewrite Hl, Hm' in Hm. injection Hm as <-.
  cbn -[type_unknownKeys]. rewrite Hs.
  exact (filledBy_unknownKeys _ _ _ _ Hf).
Qed.

Lemma built_object_known (W : World) (l : list ref) (ots : list value)
    (ti a i s cv ac df : value) (m1 m2 : object) :
  registryOK W -> Forall2 (recordOf W) l ots ->
  filledBy (Data_plugins W) (Weapon_pluginSchema W) m1 ->
  filledBy (Data_plugins W) (Base_pluginSchema W) m2 ->
  unknownOf W
    [("title", ti);
     ("weapon", VObj [("accurate", a); ("inaccurate", i); ("seeking", s);
                      ("plugins", VObj m1)]);
     ("base", VObj [("cover", cv); ("accuracy", ac); ("difficulty", df);
                    ("plugins", VObj m2)]);
     ("targets", VArr ots)] = [].
Proof.
  intros Hreg Hrec H1 H2. unfold unknownOf.
  cbn -[type_unknownKeys array_unknownKeys].
  rewrite (filledBy_unknownKeys _ _ _ _ H1), (filledBy_unknownKeys _ _ _ _ H2).
  now rewrite (records_unknownKeys W l ots 0 _ Hreg Hrec).
Qed.

End UnknownKeys.

Section Properties.
Context {host : PluginHost}.

(** C1, as the code has it.  Roll data decoded from a plain object, under
    a registry of lawful plugin codecs, encode to a plain object [v] that
    decodes again, in the same store, to roll data that hold the same raw
    field values: the title, the flags of the weapon, the accuracy,
    difficulty and cover of the base, the fields of each target, and every
    entry of every plugin map in its plain form.  They encode to [v] once
    more. *)
Theorem AccDiffData_roundtrip (W0 W : World) (obj : value) (x : AccDiffData) :
  lawfulRegistry W0 ->
  isPlain obj = true ->
  AccDiffData_fromObject obj W0 = (Ok x, W) ->
  exists (v : value) (x' : AccDiffData) (W' : World),
    AccDiffData_toObject x W = (Ok v, W)
    /\ AccDiffData_fromObject v W = (Ok x', W')
    /\ sameRawFields W x W' x'
    /\ AccDiffData_toObject x' W' = (Ok v, W').
Proof.
  intros Hlaw Hplain Hdec.
  apply AccDiffData_fromObject_Ok_inv in Hdec as (o & p & -> & Hp & Hhyd & Hc).
  pose proof (decodePlain_OK W0 o p Hplain Hp Hhyd) as Hok.
  destruct (plainOf_Ok W0 p Hlaw Hok) as (v & Hv).
  pose proof (AccDiffData_toObject_constructed W0 W p x v Hlaw Hok Hc Hv) as Henc.
  destruct (decodePlain_plainOf W0 p v Hlaw Hok Hv) as (o' & p' & -> & Hp' & Hok' & Hv').
  pose proof (constructed_sameStatics _ _ _ _ Hc) as S.
  rewrite <- (decodePlain_sameStatics W0 W o' S) in Hp'.
  rewrite <- (plainOf_sameStatics W0 W p' S) in Hv'.
  pose proof (decodedOK_sameStatics _ _ _ S Hok') as HokW.
  pose proof (lawfulRegistry_sameStatics _ _ S Hlaw) as HlawW.
  destruct (AccDiffData_fromObject_Ok o' W p' Hp' (slotsOK_hydratable W p' HokW))
    as (W' & Hdec' & Hc').
  pose proof (AccDiffData_toObject_constructed W W' p' _ _ HlawW HokW Hc' Hv') as Henc'.
  exists (VObj o'), (dataOf W p'), W'. split; [exact Henc|]. split; [exact Hdec'|].
  split; [exact (sameRawFields_toObject _ _ _ _ _ _ _ Henc Henc')|exact Henc'].
Qed.

(** C2, as the code has it.  The total of a hydrated base is
    [accuracy - difficulty + (accurate ? 1 : 0) - (inaccurate ? 1 : 0)
     - (seeking ? 0 : cover)], computed on doubles from left to right; the
    cover counts for its ordinal (None 0, Soft 1, Hard 2).  The cover comes
    last: whatever cover is assigned, the total is the one sum [uncovered] of
    the other terms, less the ordinal of the cover when the weapon is not
    seeking, less 0 when it is. *)
Theorem AccDiffBase_total_formula (W : World) (this : ref) (x : AccDiffBase)
    (wr : ref) (w : AccDiffWeapon) :
  baseHeap W !! this = Some x -> base_weapon x = Some wr ->
  weaponHeap W !! wr = Some w ->
  let uncovered := (base_accuracy x - base_difficulty x
                    + (if accurate w then 1 else 0)
                    - (if inaccurate w then 1 else 0))%float in
  AccDiffBase_total this W =
    (Ok (uncovered - (if seeking w then 0 else base_cover x))%float, W)
  /\ (Cover.value Cover.None = 0%float /\ Cover.value Cover.Soft = 1%float
      /\ Cover.value Cover.Hard = 2%float)
  /\ forall c : Cover.t, exists Wc : World,
       AccDiffBase_setCover this c W = (Ok tt, Wc)
       /\ AccDiffBase_total this Wc =
            (Ok (uncovered - (if seeking w then 0 else Cover.value c))%float, Wc).
Proof.
  intros Hx Hr Hw uncovered. split; [|split].
  - subst uncovered. erewrite AccDiffBase_total_eval by eassumption. reflexivity.
  - now cbn.
  - intros c. eexists. split; [exact (AccDiffBase_setCover_eval W this x c Hx)|].
    assert (Hlt : (this < length (baseHeap W))%nat) by (eapply lookup_lt_Some; eauto).
    erewrite AccDiffBase_total_eval;
      [| cbn; now apply list_lookup_insert_eq | cbn; eassumption | cbn; eassumption].
    reflexivity.
Qed.


(** C4, as the code has it.  With [consumeLockOn] set and a lock-on effect
    that the search of the token's effects reaches, [usingLockOn] yields
    that effect and the total adds one to the sum of the other terms;
    evaluating the total deletes nothing, so an evaluation that follows it
    over the same state returns the same total, bonus included.  The bonus is
    gone (the total adds 0 to the same sum) only once the token carries no
    lock-on effect any more, which is not the doing of the total. *)
Theorem AccDiffTarget_total_keeps_lockOn (W : World) (this : ref)
    (x : AccDiffTarget) (wr : ref) (w : AccDiffWeapon) (br : ref)
    (b : AccDiffBase) (tk : Token) (eff : Effect) :
  targetHeap W !! this = Some x ->
  target_weapon x = Some wr -> weaponHeap W !! wr = Some w ->
  target_base x = Some br -> baseHeap W !! br = Some b ->
  tokenHeap W !! target x = Some tk ->
  consumeLockOn x = true ->
  lockOnOf tk = Ok (Some eff) ->
  let raw := (target_accuracy x - target_difficulty x
              + (if accurate w then 1 else 0) - (if inaccurate w then 1 else 0)
              - (if seeking w then 0 else target_cover x)
              + base_accuracy b - base_difficulty b)%float in
  AccDiffTarget_usingLockOn this W = (Ok (Some eff), W)
  /\ flags_core eff = Some (Some "lockon")
  /\ (first <- AccDiffTarget_total this ;;
      second <- AccDiffTarget_total this ;;
      ret (first, second)) W = (Ok (raw + 1, raw + 1)%float, W)
  /\ forall tk' : Token,
       lockOnOf tk' = Ok None ->
       AccDiffTarget_total this (with_token (target x) tk' W)
       = (Ok (raw + 0)%float, with_token (target x) tk' W).
Proof.
  intros Hx Hwr Hw Hbr Hb Htk Hc Hf raw. split; [|split; [|split]].
  - erewrite AccDiffTarget_usingLockOn_eval by eassumption.
    unfold usingOf. now rewrite Hc, Hf.
  - unfold lockOnOf in Hf. destruct (token_actor tk) as [actor|]; [|discriminate].
    apply findLockOn_Some in Hf as (before & after & _ & Hf & _).
    now apply isLockOn_true in Hf.
  - pose proof (AccDiffTarget_total_eval W this x wr w br b tk Hx Hwr Hw Hbr Hb Htk)
      as Ht.
    unfold usingOf in Ht. rewrite Hc, Hf in Ht.
    do 2 (erewrite bind_Ok by exact Ht). reflexivity.
  - intros tk' Hf'.
    erewrite (AccDiffTarget_total_eval (with_token (target x) tk' W) this x wr w br b tk')
      by first [eassumption
               | cbn; apply list_lookup_insert_eq; eapply lookup_lt_Some; eassumption].
    unfold usingOf. rewrite Hc, Hf'. reflexivity.
Qed.

(** C5, as the code has it.  A plain object one of whose plugin maps has a
    key that the registered schema of its entity does not have is not
    decoded: [fromObject] throws a validation error that lists the path of
    the key, and the store is as it was, nothing constructed, nothing
    hydrated, nothing notified.  When a plugin map lacks a key of the
    registered schema of its entity, and the codec of that key rejects
    [undefined], decoding throws as well and hydration does not begin: it
    throws a validation error, without any notification, that lists the
    path of the key or else the unknown keys of the object, unless a target
    record that conforms names a token the scene does not have, whose
    constructor then threw "Token not found". *)
Theorem AccDiffData_fromObject_plugin_keys (W : World) (o : object) (path : Path) :
  (unknownKeyAt W o path ->
   AccDiffData_fromObject (VObj o) W = (Throw (ValidationError (unknownOf W o)), W)
   /\ In path (unknownOf W o))
  /\ (registeredKeyMissing W o path ->
      exists (e : Error) (W' : World),
        AccDiffData_fromObject (VObj o) W = (Throw e, W')
        /\ events W' = events W
        /\ ((exists errors,
               e = ValidationError errors
               /\ (In path errors \/ (errors = unknownOf W o /\ errors <> []))
               /\ notifications W' = notifications W)
            \/ (e = TokenNotFound /\ targetUnresolved W o))).
Proof.
  split.
  { intros Hk. apply unknownKeyAt_In in Hk. split; [|exact Hk].
    apply AccDiffData_fromObject_unknown. intros E. now rewrite E in Hk. }
  intros Hmiss.
  destruct (unknownOf W o) as [|p0 l] eqn:Hnil.
  2:{ exists (ValidationError (p0 :: l)), W. rewrite <- Hnil.
      split; [apply AccDiffData_fromObject_unknown; now rewrite Hnil|].
      split; [reflexivity|]. left. eexists. split; [reflexivity|].
      split; [right; split; [reflexivity|now rewrite Hnil]|reflexivity]. }
  destruct (AccDiffData_fromObject_cases W o Hnil)
    as [(vw & vb & vt & W3 & F & _ & Hwe & Hbe & Hte & Hrun)
       |(Hun & W' & Hrun & _ & He)].
  2:{ exists TokenNotFound, W'. split; [exact Hrun|]. split; [exact He|]. now right. }
  assert (Hap : exists errors,
             ap (ap (ap (ap (inr mkData) (t_string (prop "title" o) ["title"])) vw) vb) vt
               = inl errors /\ In path errors).
  { destruct Hmiss as [wo po k c Hwo Hpo Hs Hg Hv | bo po k c Hbo Hpo Hs Hg Hv
                      | us j tobj po k c Hus Hj Hpo Hs Hg Hv].
    - destruct (AccDiffWeapon_schema_missing (Weapon_pluginSchema W) wo po ["weapon"] k c
                  Hpo Hs Hg Hv) as (e & He & Hin).
      rewrite <- Hwo in He. apply Hwe in He.
      destruct (ap_mkData_inl (t_string (prop "title" o) ["title"]) vw vb vt)
        as (errors & Hap & Hincl & _); [eauto|].
      exists errors. split; [exact Hap|]. now apply (Hincl e He).
    - destruct (AccDiffBase_schema_missing (Base_pluginSchema W) bo po ["base"] k c
                  Hpo Hs Hg Hv) as (e & He & Hin).
      rewrite <- Hbo in He. apply Hbe in He.
      destruct (ap_mkData_inl (t_string (prop "title" o) ["title"]) vw vb vt)
        as (errors & Hap & _ & Hincl & _); [eauto|].
      exists errors. split; [exact Hap|]. now apply (Hincl e He).
    - destruct (AccDiffTarget_schema_missing (Target_pluginSchema W) tobj po
                  ["targets"; pretty j] k c Hpo Hs Hg Hv) as (e & He & Hin).
      destruct (Hte us j (VObj tobj) e Hus Hj He) as (e3 & Hvt & Hin3).
      destruct (ap_mkData_inl (t_string (prop "title" o) ["title"]) vw vb vt)
        as (errors & Hap & _ & _ & Hincl); [eauto|].
      exists errors. split; [exact Hap|]. apply (Hincl e3 Hvt). now apply Hin3. }
  destruct Hap as (errors & Hap & Hin). rewrite Hap in Hrun.
  exists (ValidationError errors), W3. destruct F as (_ & _ & Hn & He & _).
  split; [exact Hrun|]. split; [exact He|]. left. eauto.
Qed.

(** C6, as the code has it.  The flags of the weapon of the roll data
    [fromParams] returns follow the logical identifiers of the tags: the
    weapon is accurate exactly when some tag is ["tg_accurate"], inaccurate
    exactly when some tag is ["tg_inaccurate"], seeking exactly when some
    tag is ["tg_seeking"].  Other tags change nothing, and a tag that comes
    again changes nothing more. *)
Theorem AccDiffData_fromParams_flags (W W' : World) (item : option LancerItem)
    (tags : option (list TagInstance)) (supplied : option string)
    (targets : option (list ref)) (starting : option (number * number)) (d : AccDiffData) :
  AccDiffData_fromParams item tags supplied targets starting W = (Ok d, W') ->
  exists w : AccDiffWeapon,
    weaponHeap W' !! weapon d = Some w
    /\ accurate w = existsb (hasLID "tg_accurate") (default [] tags)
    /\ inaccurate w = existsb (hasLID "tg_inaccurate") (default [] tags)
    /\ seeking w = existsb (hasLID "tg_seeking") (default [] tags).
Proof.
  intros H.
  apply AccDiffData_fromParams_Ok_inv in H as (p & wo & Hc & _ & Hw & Ha & Hi & Hs).
  apply AccDiffWeapon_schema_validate_inv in Hw as (Ha' & Hi' & Hs' & _).
  destruct Hc as (-> & Hheap & _).
  exists (hydratedWeaponObj (dataOf W p) (d_weapon p)).
  split.
  - rewrite Hheap. cbn [weapon dataOf]. apply list_lookup_middle. reflexivity.
  - cbn. split; [|split]; congruence.
Qed.


(** C8, as the code has it.  When the [target_id] of a target record of the
    plain object names no token of the scene, decoding throws and returns no
    roll data, and hydration has not begun.  When the record conforms to the
    schema of the targets and the object has no unknown key, the constructor
    of a target has notified the user and thrown "Token not found".
    Otherwise the error may be a validation error, and then nobody was
    notified: the object has unknown keys, or the record itself is among
    those the validation rejects. *)
Theorem AccDiffData_fromObject_token_not_found (W : World) (o : object)
    (us : list value) (j : nat) (uo : object) (id : string) :
  prop "targets" o = VArr us ->
  us !! j = Some (VObj uo) ->
  prop "target_id" uo = VStr id ->
  tokens_get id W = None ->
  exists (e : Error) (W' : World),
    AccDiffData_fromObject (VObj o) W = (Throw e, W')
    /\ events W' = events W
    /\ ((e = TokenNotFound
         /\ notifications W' =
              notifications W ++ ["Trying to access tokens from a different scene!"])
        \/ (exists errors,
              e = ValidationError errors
              /\ notifications W' = notifications W
              /\ ((errors = unknownOf W o /\ errors <> [])
                  \/ exists rejected,
                       AccDiffTarget_schema_validate (Target_pluginSchema W) (VObj uo)
                         ["targets"; pretty j] = inl rejected
                       /\ incl rejected errors)))
    /\ (unknownOf W o = [] ->
        (exists obj : TargetRaw,
           AccDiffTarget_schema_validate (Target_pluginSchema W) (VObj uo)
             ["targets"; pretty j] = inr obj) ->
        e = TokenNotFound
        /\ notifications W' =
             notifications W ++ ["Trying to access tokens from a different scene!"]).
Proof.
  intros Hus Hj Hid Hget.
  destruct (unknownOf W o) as [|p0 l] eqn:Hnil.
  2:{ exists (ValidationError (p0 :: l)), W. rewrite <- Hnil.
      split; [apply AccDiffData_fromObject_unknown; now rewrite Hnil|].
      split; [reflexivity|]. split.
      - right. eexists. split; [reflexivity|]. split; [reflexivity|].
        left. split; [reflexivity|now rewrite Hnil].
      - rewrite Hnil. discriminate. }
  destruct (AccDiffData_fromObject_cases W o Hnil)
    as [(vw & vb & vt & W3 & F & Hno & _ & _ & Hte & Hrun)
       |(_ & W' & Hrun & Hn & He)].
  - destruct (AccDiffTarget_schema_validate (Target_pluginSchema W) (VObj uo)
                ["targets"; pretty j]) as [rejected|obj] eqn:Hv.
    + destruct (Hte us j (VObj uo) rejected Hus Hj Hv) as (e3 & -> & Hin).
      destruct (ap_mkData_inl (t_string (prop "title" o) ["title"]) vw vb (inl e3))
        as (errors & Hap & _ & _ & Hincl); [eauto|].
      rewrite Hap in Hrun. exists (ValidationError errors), W3.
      destruct F as (_ & _ & Hn & He & _).
      split; [exact Hrun|]. split; [exact He|]. split.
      * right. exists errors. split; [reflexivity|]. split; [exact Hn|].
        right. exists rejected. split; [reflexivity|].
        eapply incl_tran; [exact Hin|]. now apply Hincl.
      * intros _ (obj & Hobj). discriminate.
    + exfalso. apply Hno. exists us, j, (VObj uo), obj.
      apply AccDiffTarget_schema_validate_target_id in Hv as Hid'.
      rewrite Hid in Hid'. injection Hid' as <-. auto.
  - exists TokenNotFound, W'. split; [exact Hrun|]. split; [exact He|].
    split; [left; auto|auto].
Qed.

(** C9, as the code has it.  On a weapon, a base and distinct targets
    whose plugin slots hold plugin data, the constructor of [AccDiffData]
    hydrates the weapon, then the base, then the targets in the order of the
    list, and returns.  Its log is [hydrationLog]: the base's [#weapon], and
    each target's [#weapon] and [#base], are assigned the aggregate's own
    weapon and base, each once; when it returns they are all set, every
    plugin slot of the three kinds of entity has gone through the [hydrate]
    of its data, and no other base and no other target was written.
    Evaluating a total or encoding the roll data logs nothing more.  So it is
    of all roll data that decoding returns: decoding logs the run of the
    constructor and nothing else. *)
Theorem AccDiffData_constructor_hydrates (W : World) (obj : AccDiffData)
    (w : AccDiffWeapon) (b : AccDiffBase) :
  weaponHeap W !! weapon obj = Some w -> allData (weapon_plugins w) = true ->
  baseHeap W !! base obj = Some b -> allData (base_plugins b) = true ->
  NoDup (targets obj) ->
  (forall t, t ∈ targets obj ->
     exists x, targetHeap W !! t = Some x /\ allData (target_plugins x) = true) ->
  (exists W' : World,
     new_AccDiffData obj W = (Ok obj, W')
     /\ events W' = events W ++
          [HydrateWeapon (weapon obj); HydrateBase (base obj);
           SetBaseWeapon (base obj) (weapon obj)]
          ++ flat_map (fun t => [HydrateTarget t; SetTargetWeapon t (weapon obj);
                                 SetTargetBase t (base obj)]) (targets obj)
     /\ NoDup (hydrationLog obj)
     /\ (base_weapon <$> baseHeap W' !! base obj) = Some (Some (weapon obj))
     /\ (forall t, t ∈ targets obj ->
           (target_weapon <$> targetHeap W' !! t) = Some (Some (weapon obj))
           /\ (target_base <$> targetHeap W' !! t) = Some (Some (base obj)))
     /\ (exists w' : AccDiffWeapon,
           weaponHeap W' !! weapon obj = Some w'
           /\ (NoDup (keys (weapon_plugins w)) ->
               slotsHydrated obj None (weapon_plugins w) (weapon_plugins w')))
     /\ (exists b' : AccDiffBase,
           baseHeap W' !! base obj = Some b'
           /\ (NoDup (keys (base_plugins b)) ->
               slotsHydrated obj (Some (OfBase (base obj))) (base_plugins b)
                 (base_plugins b')))
     /\ (forall (t : ref) (x : AccDiffTarget),
           targetHeap W !! t = Some x ->
           if bool_decide (t ∈ targets obj)
           then exists x' : AccDiffTarget,
                  targetHeap W' !! t = Some x'
                  /\ (NoDup (keys (target_plugins x)) ->
                      slotsHydrated obj (Some (OfTarget t)) (target_plugins x)
                        (target_plugins x'))
           else targetHeap W' !! t = Some x)
     /\ (forall r : ref, r <> base obj -> baseHeap W' !! r = baseHeap W !! r)
     /\ (forall this,
           events (AccDiffBase_total this W').2 = events W'
           /\ events (AccDiffTarget_total this W').2 = events W'
           /\ events (AccDiffData_toObject obj W').2 = events W'))
  /\ (forall (u : value) (W0 W1 : World) (d : AccDiffData),
        AccDiffData_fromObject u W0 = (Ok d, W1) ->
        events W1 = events W0 ++ hydrationLog d
        /\ NoDup (hydrationLog d)
        /\ (base_weapon <$> baseHeap W1 !! base d) = Some (Some (weapon d))
        /\ (forall t, t ∈ targets d ->
              (target_weapon <$> targetHeap W1 !! t) = Some (Some (weapon d))
              /\ (target_base <$> targetHeap W1 !! t) = Some (Some (base d)))).
Proof.
  intros Hw Hwd Hb Hbd Hnd Hts. split.
  - destruct (new_AccDiffData_eval W obj w b Hw Hwd Hb Hbd Hnd Hts)
      as (heap & Hrun & Hlen & Hheap).
    eexists. split; [exact Hrun|].
    split; [reflexivity|]. split; [now apply NoDup_hydrationLog|].
    split; [|split; [|split; [|split; [|split; [|split]]]]].
    + cbn. rewrite list_lookup_insert_eq by (eapply lookup_lt_Some; eassumption).
      reflexivity.
    + intros t Ht. destruct (Hts t Ht) as (x & Hx & _). cbn.
      rewrite (Hheap t x Hx), bool_decide_eq_true_2 by assumption. now cbn.
    + exists (hydratedWeaponObj obj w). split.
      * cbn. apply list_lookup_insert_eq. eapply lookup_lt_Some; eassumption.
      * intros Hk. cbn. now apply slotsHydrated_hydratedPlugins.
    + exists (hydratedBaseObj obj (base obj) b). split.
      * cbn. apply list_lookup_insert_eq. eapply lookup_lt_Some; eassumption.
      * intros Hk. cbn. now apply slotsHydrated_hydratedPlugins.
    + intros t x Hx. cbn. rewrite (Hheap t x Hx).
      destruct (bool_decide (t ∈ targets obj)) eqn:Hin; [|reflexivity].
      apply bool_decide_eq_true in Hin. destruct (Hts t Hin) as (x0 & Hx0 & Hall).
      assert (x0 = x) as -> by congruence.
      eexists. split; [reflexivity|]. intros Hk. cbn.
      now apply slotsHydrated_hydratedPlugins.
    + intros r Hr. cbn. now apply list_lookup_insert_ne.
    + intros this.
      rewrite readOnly_AccDiffBase_total, readOnly_AccDiffTarget_total,
        readOnly_AccDiffData_toObject. tauto.
  - intros u W0 W1 d Hdec.
    apply AccDiffData_fromObject_Ok_inv in Hdec as (o & p & _ & _ & _ & Hc).
    split; [apply Hc|].
    split; [eapply NoDup_hydrationLog, constructed_NoDup; exact Hc|].
    eapply constructed_back_references; exact Hc.
Qed.

(** C10.  The title of the roll data [fromParams] returns is
    ["<title> - Accuracy and Difficulty"] when a title that is not empty was
    supplied and ["Accuracy and Difficulty"] when none, or the empty one,
    was; it is never the supplied title itself. *)
Theorem AccDiffData_fromParams_title (W W' : World) (item : option LancerItem)
    (tags : option (list TagInstance)) (supplied : option string)
    (targets : option (list ref)) (starting : option (number * number)) (d : AccDiffData) :
  AccDiffData_fromParams item tags supplied targets starting W = (Ok d, W') ->
  (forall t, supplied = Some t -> t <> "" ->
     title d = t +:+ " - Accuracy and Difficulty")
  /\ (supplied = None \/ supplied = Some "" -> title d = "Accuracy and Difficulty")
  /\ supplied <> Some (title d).
Proof.
  intros H. apply AccDiffData_fromParams_Ok_inv in H as (p & wo & Hc & Hti & _).
  destruct Hc as (-> & _). cbn [title dataOf]. rewrite Hti. clear.
  split; [|split].
  - intros t -> Ht. destruct t; [contradiction|reflexivity].
  - intros [->| ->]; reflexivity.
  - destruct supplied as [[|a t]|]; cbn [rollTitle]; try discriminate.
    intros [= E]. apply (f_equal String.length) in E.
    rewrite length_append in E. cbn in E. lia.
Qed.

End Properties.

(** * The properties on the examples *)

Section Instances.
#[local] Existing Instance demoHost.

(** C1, as the code has it, on the roll data decoded from [shotObject]. *)
Lemma AccDiffData_roundtrip_witness :
  exists (v : value) (x' : AccDiffData) (W' : World),
    AccDiffData_toObject (mkData "Shot" 0%nat 0%nat [0%nat; 1%nat]) decodedWorld
      = (Ok v, decodedWorld)
    /\ AccDiffData_fromObject v decodedWorld = (Ok x', W')
    /\ sameRawFields decodedWorld (mkData "Shot" 0%nat 0%nat [0%nat; 1%nat]) W' x'
    /\ AccDiffData_toObject x' W' = (Ok v, W').
Proof.
  apply (AccDiffData_roundtrip registeredWorld decodedWorld (VObj shotObject)
           (mkData "Shot" 0%nat 0%nat [0%nat; 1%nat]) registeredWorld_lawful).
  - vm_compute. reflexivity.
  - vm_compute. reflexivity.
Defined.

(** C1, as the specification states it, fails.  With [skewPlugin]
    registered, [skewObject] decodes to roll data, which encode to a plain
    object that is not decoded again.  And the roll data decoded from
    [shotObject] encode to a plain object that is not decoded once the
    canvas shows another scene. *)
Lemma roundtrip_broken_by_codec_or_scene :
  (AccDiffData_fromObject (VObj skewObject) skewWorld).1
  = Ok (mkData "Shot" 0%nat 0%nat [])
  /\ (AccDiffData_toObject (mkData "Shot" 0%nat 0%nat [])
        (AccDiffData_fromObject (VObj skewObject) skewWorld).2).1
     = Ok (VObj (plainRoll [("inv", VStr "skew")] [] []))
  /\ (AccDiffData_fromObject (VObj (plainRoll [("inv", VStr "skew")] [] []))
        (AccDiffData_fromObject (VObj skewObject) skewWorld).2).1
     = Throw (ValidationError [["weapon"; "plugins"; "inv"]])
  /\ AccDiffData_fromObject (VObj shotObject) registeredWorld
     = (Ok (mkData "Shot" 0%nat 0%nat [0%nat; 1%nat]), decodedWorld)
  /\ AccDiffData_toObject (mkData "Shot" 0%nat 0%nat [0%nat; 1%nat]) decodedWorld
     = (Ok (VObj shotObject), decodedWorld)
  /\ (AccDiffData_fromObject (VObj shotObject) elsewhereWorld).1 = Throw TokenNotFound.
Proof. repeat split. Qed.

(** C2, as the code has it, on the base of [lockedWorld], and on that base
    in hard cover. *)
Lemma AccDiffBase_total_formula_witness :
  AccDiffBase_total 0%nat lockedWorld = (Ok (-1)%float, lockedWorld)
  /\ exists Wc : World,
       AccDiffBase_setCover 0%nat Cover.Hard lockedWorld = (Ok tt, Wc)
       /\ AccDiffBase_total 0%nat Wc = (Ok (0 - 2)%float, Wc).
Proof.
  destruct (AccDiffBase_total_formula lockedWorld 0%nat
              (mkBase 1 0 (Cover.value Cover.Soft) [] (Some 0%nat)) 0%nat
              (mkWeapon false true false []) eq_refl eq_refl eq_refl)
    as (Ht & _ & Hc).
  split; [exact Ht | exact (Hc Cover.Hard)].
Defined.

(** C2, as the specification states it, fails: the weapon of [bigWorld] is
    not seeking, and the total of its base in soft cover is the total of
    that base without cover, not one less. *)
Lemma cover_lost_in_rounding :
  (@seeking demoHost <$> weaponHeap bigWorld !! 0%nat) = Some false
  /\ ((AccDiffBase_setCover 0%nat Cover.None ;;; AccDiffBase_total 0%nat) bigWorld).1
     = Ok 18014398509481984%float
  /\ ((AccDiffBase_setCover 0%nat Cover.Soft ;;; AccDiffBase_total 0%nat) bigWorld).1
     = Ok 18014398509481984%float.
Proof. repeat split. Qed.



(** C4, as the code has it, on the target of [lockedWorld]. *)
Lemma AccDiffTarget_total_keeps_lockOn_witness :
  AccDiffTarget_usingLockOn 0%nat lockedWorld = (Ok (Some (status "lockon")), lockedWorld)
  /\ (first <- AccDiffTarget_total 0%nat ;;
      second <- AccDiffTarget_total 0%nat ;;
      ret (first, second)) lockedWorld = (Ok (-4 + 1, -4 + 1)%float, lockedWorld)
  /\ AccDiffTarget_total 0%nat
       (with_token 0%nat (mkToken "tokA" (Some (mkActor [status "burn"]))) lockedWorld)
     = (Ok (-4 + 0)%float,
        with_token 0%nat (mkToken "tokA" (Some (mkActor [status "burn"]))) lockedWorld).
Proof.
  destruct (AccDiffTarget_total_keeps_lockOn lockedWorld 0%nat
              (mkTarget 0%nat 0 2 (Cover.value Cover.Hard) true [] (Some 0%nat) (Some 0%nat))
              0%nat (mkWeapon false true false [])
              0%nat (mkBase 1 0 (Cover.value Cover.Soft) [] (Some 0%nat))
              (mkToken "tokA" (Some (mkActor [status "burn"; status "lockon"])))
              (status "lockon")
              eq_refl eq_refl eq_refl eq_refl eq_refl eq_refl eq_refl eq_refl)
    as (Husing & _ & Htwice & Hgone).
  split; [exact Husing|]. split; [exact Htwice|].
  exact (Hgone (mkToken "tokA" (Some (mkActor [status "burn"]))) eq_refl).
Defined.

(** C4, as the specification states it, fails: the token of [lockedWorld] carries the
    lock-on condition and the target consumes lock-on, yet after the total
    is evaluated the condition is still on the token, and the evaluation
    that follows counts the bonus again ([-3] is [-4 + 1]). *)
Lemma lockOn_survives_total :
  (@consumeLockOn demoHost <$> targetHeap lockedWorld !! 0%nat) = Some true
  /\ (token_actor <$> tokenHeap lockedWorld !! 0%nat)
     = Some (Some (mkActor [status "burn"; status "lockon"]))
  /\ AccDiffTarget_total 0%nat lockedWorld = (Ok (-3)%float, lockedWorld)
  /\ (token_actor <$> tokenHeap (AccDiffTarget_total 0%nat lockedWorld).2 !! 0%nat)
     = Some (Some (mkActor [status "burn"; status "lockon"]))
  /\ AccDiffTarget_total 0%nat (AccDiffTarget_total 0%nat lockedWorld).2
     = (Ok (-3)%float, lockedWorld).
Proof. repeat split. Qed.

(** C5, as the code has it, on [strayObject], whose weapon has a key nobody
    registered, and on [lackingObject], whose base lacks the registered
    key. *)
Lemma AccDiffData_fromObject_plugin_keys_witness :
  AccDiffData_fromObject (VObj strayObject) registeredWorld
  = (Throw (ValidationError [["weapon"; "plugins"; "zzz"]]), registeredWorld)
  /\ exists (errors : Errors) (W' : World),
       AccDiffData_fromObject (VObj lackingObject) registeredWorld
         = (Throw (ValidationError errors), W')
       /\ In ["base"; "plugins"; "inv"] errors
       /\ notifications W' = []
       /\ events W' = [].
Proof.
  split.
  - apply (AccDiffData_fromObject_plugin_keys registeredWorld strayObject
             ["weapon"; "plugins"; "zzz"]).
    apply (unknown_weapon registeredWorld strayObject
             [("accurate", VBool false); ("inaccurate", VBool false);
              ("seeking", VBool false);
              ("plugins", VObj [("inv", VNum 0); ("zzz", VNum 1)])]
             [("inv", VNum 0); ("zzz", VNum 1)] "zzz" eq_refl eq_refl);
      [cbn; tauto|reflexivity].
  - destruct (AccDiffData_fromObject_plugin_keys registeredWorld lackingObject
                ["base"; "plugins"; "inv"]) as [_ Hmiss].
    destruct (Hmiss (missing_base registeredWorld lackingObject
                       [("accuracy", VNum 0); ("difficulty", VNum 0); ("cover", VNum 0);
                        ("plugins", VObj [])] [] "inv" demoCodec
                       eq_refl eq_refl eq_refl eq_refl eq_refl))
      as (e & W' & Hrun & Hev & [(errors & -> & [Hin|[Heq Hne]] & Hn)|(_ & Hun)]).
    + exists errors, W'. split; [exact Hrun|]. split; [exact Hin|].
      split; [exact Hn|exact Hev].
    + exfalso. apply Hne. rewrite Heq. reflexivity.
    + exfalso. destruct Hun as (us & j & u & obj & Hus & Hj & Hv & Hg).
      injection Hus as <-. destruct j as [|j]; [|now destruct j].
      injection Hj as <-. injection Hv as <-. discriminate Hg.
Defined.

(** C5, as the specification states it, fails.  ["inv"] is a key of the
    registered schema of the weapon of [lenientWorld], the plugin map of the
    weapon of the plain object lacks it, and the object is decoded.  And
    [staleLackingObject] lacks the registered key of the base, yet what its
    decoding throws is no validation error. *)
Lemma missing_plugin_key_without_validation_error :
  schemaGet "inv" (Weapon_pluginSchema lenientWorld) = Some lenientCodec
  /\ (AccDiffData_fromObject (VObj (plainRoll [] [] [])) lenientWorld).1
     = Ok (mkData "Shot" 0%nat 0%nat [])
  /\ schemaGet "inv" (Base_pluginSchema registeredWorld) = Some demoCodec
  /\ (AccDiffData_fromObject (VObj staleLackingObject) registeredWorld).1
     = Throw TokenNotFound.
Proof. repeat split. Qed.

(** C6, as the code has it, on the tags accurate, seeking, smart, accurate. *)
Lemma AccDiffData_fromParams_flags_witness :
  exists w : AccDiffWeapon,
    weaponHeap shotWorld !! 0%nat = Some w
    /\ accurate w = true /\ inaccurate w = false /\ seeking w = true.
Proof.
  apply (AccDiffData_fromParams_flags registeredWorld shotWorld None
           (Some [tagged "tg_accurate"; tagged "tg_seeking"; tagged "tg_smart";
                  tagged "tg_accurate"])
           (Some "Shot") (Some [0%nat; 1%nat]) (Some (1, 0)%float)
           (mkData "Shot - Accuracy and Difficulty" 0%nat 0%nat [0%nat; 1%nat])).
  vm_compute. reflexivity.
Defined.

(** C6, as the specification states it, fails: tags whose logical identifiers are
    ["accurate"], ["inaccurate"] and ["seeking"] leave the three flags of
    the weapon down. *)
Lemma bare_identifiers_set_no_flag :
  (AccDiffData_fromParams None
     (Some [tagged "accurate"; tagged "inaccurate"; tagged "seeking"])
     None None None registeredWorld).1
  = Ok (mkData "Accuracy and Difficulty" 0%nat 0%nat [])
  /\ ((fun w => (accurate w, inaccurate w, seeking w)) <$>
        weaponHeap (AccDiffData_fromParams None
                      (Some [tagged "accurate"; tagged "inaccurate"; tagged "seeking"])
                      None None None registeredWorld).2 !! 0%nat)
     = Some (false, false, false).
Proof. split; vm_compute; reflexivity. Qed.


(** C8, as the code has it, on [staleObject], whose second target names a
    token of another scene. *)
Lemma AccDiffData_fromObject_token_not_found_witness :
  exists W' : World,
    AccDiffData_fromObject (VObj staleObject) registeredWorld = (Throw TokenNotFound, W')
    /\ notifications W' = ["Trying to access tokens from a different scene!"]
    /\ events W' = [].
Proof.
  destruct (AccDiffData_fromObject_token_not_found registeredWorld staleObject
              [plainTarget "tokA" [("inv", VNum 0)]; plainTarget "tokC" [("inv", VNum 0)]]
              1%nat
              [("target_id", VStr "tokC"); ("accuracy", VNum 0); ("difficulty", VNum 0);
               ("cover", VNum 0); ("consumeLockOn", VBool true);
               ("plugins", VObj [("inv", VNum 0)])]
              "tokC" eq_refl eq_refl eq_refl eq_refl)
    as (e & W' & Hrun & Hev & _ & Hconf).
  destruct (Hconf eq_refl (ex_intro _ _ eq_refl)) as [-> Hn].
  exists W'. split; [exact Hrun|]. split; [exact Hn|exact Hev].
Defined.

(** C8, as the specification states it, fails: the target of
    [staleRejectedObject] names a token the scene does not have, and the
    decoding throws without any notification. *)
Lemma unresolved_target_without_notification :
  tokens_get "tokC" registeredWorld = None
  /\ (AccDiffData_fromObject (VObj staleRejectedObject) registeredWorld).1
     = Throw (ValidationError [["targets"; "0"; "plugins"; "inv"]])
  /\ notifications (AccDiffData_fromObject (VObj staleRejectedObject) registeredWorld).2
     = [].
Proof. repeat split. Qed.

(** C9, as the code has it, on the entities of [unhydratedWorld]. *)
Lemma AccDiffData_constructor_hydrates_witness :
  exists W' : World,
    new_AccDiffData (mkData "Shot" 0%nat 0%nat [0%nat; 1%nat]) unhydratedWorld
      = (Ok (mkData "Shot" 0%nat 0%nat [0%nat; 1%nat]), W')
    /\ events W' =
         [HydrateWeapon 0%nat; HydrateBase 0%nat; SetBaseWeapon 0%nat 0%nat;
          HydrateTarget 0%nat; SetTargetWeapon 0%nat 0%nat; SetTargetBase 0%nat 0%nat;
          HydrateTarget 1%nat; SetTargetWeapon 1%nat 0%nat; SetTargetBase 1%nat 0%nat]
    /\ (base_weapon <$> baseHeap W' !! 0%nat) = Some (Some 0%nat)
    /\ (target_weapon <$> targetHeap W' !! 1%nat) = Some (Some 0%nat)
    /\ (target_base <$> targetHeap W' !! 1%nat) = Some (Some 0%nat).
Proof.
  destruct (AccDiffData_constructor_hydrates unhydratedWorld
              (mkData "Shot" 0%nat 0%nat [0%nat; 1%nat])
              (mkWeapon true false false [("inv", demoData 0 false)])
              (mkBase 1 0 (Cover.value Cover.None) [] None) eq_refl eq_refl eq_refl eq_refl)
    as ((W' & Hrun & Hev & _ & Hb & Ht & _) & _).
  - repeat constructor; rewrite ?elem_of_cons, ?elem_of_nil; intuition discriminate.
  - intros t Ht. cbn in Ht. rewrite !elem_of_cons, elem_of_nil in Ht.
    destruct Ht as [->|[->|[]]]; eexists; split; reflexivity.
  - exists W'. split; [exact Hrun|]. split; [exact Hev|]. split; [exact Hb|].
    apply Ht. cbn. rewrite !elem_of_cons. tauto.
Defined.

(** C9, as the specification states it, fails.  On [strayWorld] the
    constructor throws from the hydration of the weapon, and the [#weapon]
    of the base is never set.  On [sharedWorld] the constructor of a second
    aggregate over the same target writes the [#base] of the target again. *)
Lemma hydration_stopped_or_repeated :
  (new_AccDiffData (mkData "Shot" 0%nat 0%nat []) strayWorld).1 = Throw TypeError
  /\ (base_weapon <$>
        baseHeap (new_AccDiffData (mkData "Shot" 0%nat 0%nat []) strayWorld).2 !! 0%nat)
     = Some None
  /\ (new_AccDiffData (mkData "one" 0%nat 0%nat [0%nat]) sharedWorld).1
     = Ok (mkData "one" 0%nat 0%nat [0%nat])
  /\ (target_base <$>
        targetHeap (new_AccDiffData (mkData "one" 0%nat 0%nat [0%nat]) sharedWorld).2
          !! 0%nat)
     = Some (Some 0%nat)
  /\ (new_AccDiffData (mkData "two" 0%nat 1%nat [0%nat])
        (new_AccDiffData (mkData "one" 0%nat 0%nat [0%nat]) sharedWorld).2).1
     = Ok (mkData "two" 0%nat 1%nat [0%nat])
  /\ (target_base <$>
        targetHeap (new_AccDiffData (mkData "two" 0%nat 1%nat [0%nat])
                      (new_AccDiffData (mkData "one" 0%nat 0%nat [0%nat])
                         sharedWorld).2).2 !! 0%nat)
     = Some (Some 1%nat).
Proof. repeat split. Qed.

(** C10 on the title ["Shot"]. *)
Lemma AccDiffData_fromParams_title_witness :
  "Shot - Accuracy and Difficulty" = "Shot" +:+ " - Accuracy and Difficulty"
  /\ Some "Shot" <> Some "Shot - Accuracy and Difficulty".
Proof.
  destruct (AccDiffData_fromParams_title registeredWorld shotWorld None
              (Some [tagged "tg_accurate"; tagged "tg_seeking"; tagged "tg_smart";
                     tagged "tg_accurate"])
              (Some "Shot") (Some [0%nat; 1%nat]) (Some (1, 0)%float)
              (mkData "Shot - Accuracy and Difficulty" 0%nat 0%nat [0%nat; 1%nat]))
    as (Hsupplied & _ & Hverbatim).
  - vm_compute. reflexivity.
  - split; [apply (Hsupplied "Shot"); [reflexivity|discriminate]|exact Hverbatim].
Defined.

(** The totals after [fromParams(undefined, tags, "Shot", [tokA, tokB], [1, 0])]
    with an accurate and seeking weapon: the bonus of the base reaches both
    targets, the second of which is locked on. *)
Example shotWorld_totals :
  AccDiffBase_total 0%nat shotWorld = (Ok 2%float, shotWorld)
  /\ AccDiffTarget_total 0%nat shotWorld = (Ok 2%float, shotWorld)
  /\ AccDiffTarget_total 1%nat shotWorld = (Ok 3%float, shotWorld).
Proof. repeat split. Qed.

End Instances.

(** * The properties of the registry *)

Section RegistryProperties.
Context {host : PluginHost}.

(** X1.  [registerPlugin] returns, and afterwards each of the three plugin
    schemas holds the codec of the plugin under its slug exactly when the
    plugin has the default of that entity; every other slug is looked up as
    before.  The plugin is appended to [plugins], and to [targetedPlugins]
    when it has [perTarget]; nothing else changes. *)
Theorem AccDiffData_registerPlugin_lookup (plugin : AccDiffPlugin) (W : World)
    (k : string) :
  exists W' : World,
    AccDiffData_registerPlugin plugin W = (Ok tt, W')
    /\ schemaGet k (Weapon_pluginSchema W') =
         (if hasPerRoll plugin && String.eqb (slug plugin) k then Some (codec plugin)
          else schemaGet k (Weapon_pluginSchema W))
    /\ schemaGet k (Base_pluginSchema W') =
         (if hasPerUnknownTarget plugin && String.eqb (slug plugin) k
          then Some (codec plugin)
          else schemaGet k (Base_pluginSchema W))
    /\ schemaGet k (Target_pluginSchema W') =
         (if hasPerTarget plugin && String.eqb (slug plugin) k then Some (codec plugin)
          else schemaGet k (Target_pluginSchema W))
    /\ Data_plugins W' = Data_plugins W ++ [plugin]
    /\ Data_targetedPlugins W' =
         Data_targetedPlugins W ++ (if hasPerTarget plugin then [plugin] else [])
    /\ sameHeaps W W'.
Proof.
  eexists. split; [apply AccDiffData_registerPlugin_eval|]. cbn.
  split; [|split; [|split; [|split; [|split]]]].
  - destruct (hasPerRoll plugin); [apply schemaGet_schemaSet|reflexivity].
  - destruct (hasPerUnknownTarget plugin); [apply schemaGet_schemaSet|reflexivity].
  - destruct (hasPerTarget plugin); [apply schemaGet_schemaSet|reflexivity].
  - reflexivity.
  - destruct (hasPerTarget plugin); [reflexivity|now rewrite app_nil_r].
  - repeat split.
Qed.

(** X2.  Registration keeps the static fields in step: when the three
    schemas and [targetedPlugins] are what registering [plugins] in order
    makes them, so they are after one more registration.  Then the keys of
    each schema are distinct, and every plugin of [targetedPlugins] has a
    [perTarget], which [fromParams] calls unchecked. *)
Theorem AccDiffData_registerPlugin_registryOK (plugin : AccDiffPlugin) (W : World) :
  registryOK W ->
  let W' := (AccDiffData_registerPlugin plugin W).2 in
  registryOK W'
  /\ NoDup ((Weapon_pluginSchema W').*1) /\ NoDup ((Base_pluginSchema W').*1)
  /\ NoDup ((Target_pluginSchema W').*1)
  /\ Forall (fun p => is_Some (perTarget p)) (Data_targetedPlugins W').
Proof.
  intros (Hw & Hb & Ht & Hl) W'.
  assert (HOK : registryOK W').
  { subst W'. rewrite AccDiffData_registerPlugin_eval. unfold registryOK.
    cbn [Weapon_pluginSchema Base_pluginSchema Target_pluginSchema Data_plugins
         Data_targetedPlugins snd].
    rewrite !schemaOf_snoc, List.filter_app, <- Hw, <- Hb, <- Ht, <- Hl.
    cbn [List.filter].
    repeat split; destruct (hasPerTarget plugin); rewrite ?app_nil_r; reflexivity. }
  split; [exact HOK|]. destruct HOK as (Hw' & Hb' & Ht' & Hl').
  rewrite Hw', Hb', Ht', Hl'. repeat split; try apply NoDup_schemaOf.
  apply Forall_forall. intros p Hp. apply list_elem_of_In, List.filter_In in Hp as [_ Hp].
  unfold hasPerTarget in Hp. now apply bool_decide_eq_true_1 in Hp.
Qed.

(** X3.  Registering a plugin a second time changes no schema, yet the
    plugin is listed twice in [plugins], and twice in [targetedPlugins]
    when it has [perTarget]. *)
Theorem AccDiffData_registerPlugin_twice (plugin : AccDiffPlugin) (W : World) :
  let W1 := (AccDiffData_registerPlugin plugin W).2 in
  let W2 := (AccDiffData_registerPlugin plugin W1).2 in
  Weapon_pluginSchema W2 = Weapon_pluginSchema W1
  /\ Base_pluginSchema W2 = Base_pluginSchema W1
  /\ Target_pluginSchema W2 = Target_pluginSchema W1
  /\ Data_plugins W2 = Data_plugins W ++ [plugin; plugin]
  /\ Data_targetedPlugins W2 =
       Data_targetedPlugins W ++ (if hasPerTarget plugin then [plugin; plugin] else []).
Proof.
  intros W1 W2. subst W1 W2. rewrite !AccDiffData_registerPlugin_eval. cbn.
  destruct (hasPerRoll plugin), (hasPerUnknownTarget plugin), (hasPerTarget plugin);
    rewrite ?schemaSet_schemaSet, <- ?app_assoc, ?app_nil_r; repeat split.
Qed.

End RegistryProperties.

(** * The properties of the getters and of the cover *)

Section GetterProperties.
Context {host : PluginHost}.

(** X4.  A base or a target that has not been hydrated cannot be totalled:
    the getter reads a member of its unset [#weapon] (or [#base]) and throws
    a type error, the store staying as it is.  So it is of an entity fresh
    from its constructor. *)
Theorem total_before_hydrate (W : World) :
  (forall (this : ref) (x : AccDiffBase),
     baseHeap W !! this = Some x -> base_weapon x = None ->
     AccDiffBase_total this W = (Throw TypeError, W))
  /\ (forall (this : ref) (x : AccDiffTarget),
        targetHeap W !! this = Some x ->
        target_weapon x = None
        \/ (exists wr, target_weapon x = Some wr /\ is_Some (weaponHeap W !! wr)
                       /\ target_base x = None) ->
        AccDiffTarget_total this W = (Throw TypeError, W))
  /\ (forall obj : BaseRaw,
        (this <- new_AccDiffBase obj ;; AccDiffBase_total this) W
        = (Throw TypeError, allocBase obj W))
  /\ (forall (obj : TargetRaw) (tk : ref),
        tokens_get (raw_target_id obj) W = Some tk ->
        (this <- new_AccDiffTarget obj ;; AccDiffTarget_total this) W
        = (Throw TypeError, allocTarget (targetOf tk obj) W)).
Proof.
  assert (Hbase : forall W0 (this : ref) (x : AccDiffBase),
            baseHeap W0 !! this = Some x -> base_weapon x = None ->
            AccDiffBase_total this W0 = (Throw TypeError, W0)).
  { intros W0 this x Hx Hw. unfold AccDiffBase_total.
    erewrite bind_Ok by (apply deref_Some; exact Hx).
    rewrite Hw. reflexivity. }
  assert (Htarget : forall W0 (this : ref) (x : AccDiffTarget),
            targetHeap W0 !! this = Some x ->
            target_weapon x = None
            \/ (exists wr, target_weapon x = Some wr /\ is_Some (weaponHeap W0 !! wr)
                           /\ target_base x = None) ->
            AccDiffTarget_total this W0 = (Throw TypeError, W0)).
  { intros W0 this x Hx [Hw|(wr & Hw & [w Hwr] & Hb)]; unfold AccDiffTarget_total;
      erewrite bind_Ok by (apply deref_Some; exact Hx).
    - rewrite Hw. reflexivity.
    - do 3 (erewrite bind_Ok by (eapply private_weapon_Some; eassumption)).
      rewrite Hb. reflexivity. }
  split; [apply Hbase|]. split; [apply Htarget|]. split.
  - intros obj.
    erewrite bind_Ok by (unfold new_AccDiffBase, bind, gets, modify, ret; reflexivity).
    eapply Hbase; [cbn; apply list_lookup_middle; reflexivity|reflexivity].
  - intros obj tk Hget.
    erewrite bind_Ok
      by (unfold new_AccDiffTarget, bind, gets, modify, ret; rewrite Hget; reflexivity).
    eapply Htarget; [cbn; apply list_lookup_middle; reflexivity|now left].
Qed.

(** X5.  [lockOnAvailable] searches the effects of the actor of the token,
    whether or not the target consumes lock-on.  It returns the first effect
    whose [flags.core.statusId] is ["lockon"] when every effect before it
    has [flags.core]; it returns nothing when every effect has [flags.core]
    and none is a lock-on; it throws a type error when the token has no
    actor, or when an effect without [flags.core] comes before any lock-on.
    [usingLockOn] is [null] when [consumeLockOn] is off, without looking at
    the token, and does as [lockOnAvailable] otherwise.  Neither getter
    changes anything. *)
Theorem AccDiffTarget_usingLockOn_spec (W : World) (this : ref) (x : AccDiffTarget)
    (tk : Token) :
  targetHeap W !! this = Some x -> tokenHeap W !! target x = Some tk ->
  exists available : Result (option Effect),
    AccDiffTarget_lockOnAvailable this W = (available, W)
    /\ AccDiffTarget_usingLockOn this W =
         (if consumeLockOn x then available else Ok None, W)
    /\ (forall eff, available = Ok (Some eff) <->
          exists actor before after,
            token_actor tk = Some actor
            /\ actor_effects actor = before ++ eff :: after
            /\ flags_core eff = Some (Some "lockon")
            /\ Forall otherEffect before)
    /\ (available = Ok None <->
          exists actor,
            token_actor tk = Some actor /\ Forall otherEffect (actor_effects actor))
    /\ (forall e, available = Throw e <->
          e = TypeError
          /\ (token_actor tk = None
              \/ exists actor before eff after,
                   token_actor tk = Some actor
                   /\ actor_effects actor = before ++ eff :: after
                   /\ flags_core eff = None
                   /\ Forall otherEffect before)).
Proof.
  intros Hx Htk. exists (lockOnOf tk).
  split; [exact (AccDiffTarget_lockOnAvailable_eval W this x tk Hx Htk)|].
  split; [exact (AccDiffTarget_usingLockOn_eval W this x tk Hx Htk)|].
  assert (Hother : forall l, Forall (fun e => isLockOn e = Ok false) l
                             <-> Forall otherEffect l).
  { intros l. split; intros H; (eapply Forall_impl; [exact H|]);
      intros e; apply isLockOn_false. }
  unfold lockOnOf. destruct (token_actor tk) as [actor|].
  - split; [|split].
    + intros eff. rewrite findLockOn_Some. split.
      * intros (before & after & E & He & Hb). exists actor, before, after.
        split; [reflexivity|]. split; [exact E|].
        split; [now apply isLockOn_true|now apply Hother].
      * intros (a & before & after & [= <-] & E & He & Hb). exists before, after.
        split; [exact E|]. split; [now apply isLockOn_true|now apply Hother].
    + rewrite findLockOn_None, Hother. split.
      * intros H. now exists actor.
      * now intros (a & [= <-] & H).
    + intros e. rewrite findLockOn_Throw. split.
      * intros (before & eff & after & E & He & Hb).
        apply isLockOn_Throw in He as [He ->]. split; [reflexivity|]. right.
        exists actor, before, eff, after.
        split; [reflexivity|]. split; [exact E|]. split; [exact He|now apply Hother].
      * intros [-> [?|(a & before & eff & after & [= <-] & E & He & Hb)]];
          [discriminate|].
        exists before, eff, after. split; [exact E|].
        split; [now apply isLockOn_Throw|now apply Hother].
  - split; [|split].
    + intros eff. split; [discriminate|]. now intros (a & ? & ? & ? & _).
    + split; [discriminate|]. now intros (a & ? & _).
    + intros e. split.
      * intros [= <-]. auto.
      * now intros [-> _].
Qed.

(** X6.  The schema of the cover accepts a number that is [=== 0], [=== 1]
    or [=== 2], and nothing else, and what it accepts it returns as it is:
    so the value of each [Cover] is decoded to itself.  What it rejects it
    reports under each of the three members of the union. *)
Theorem coverSchema_accepts (u : value) (c : Path) :
  (forall cover : Cover.t,
     coverSchema u c = inr (Cover.value cover) <-> u = VNum (Cover.value cover))
  /\ (forall n : number,
        coverSchema u c = inr n <->
        u = VNum n /\ ((n =? 0) || (n =? 1) || (n =? 2))%float = true)
  /\ ((forall n : number,
         u = VNum n -> ((n =? 0) || (n =? 1) || (n =? 2))%float = false) ->
      coverSchema u c = inl [c ++ ["0"]; c ++ ["1"]; c ++ ["2"]]).
Proof.
  assert (Hn : forall n : number,
            coverSchema u c = inr n <->
            u = VNum n /\ ((n =? 0) || (n =? 1) || (n =? 2))%float = true).
  { intros n. split.
    - intros H. apply coverSchema_inv in H as Hu. subst u. split; [reflexivity|].
      cbn in H. destruct ((n =? 0) || (n =? 1) || (n =? 2))%float; [reflexivity|].
      discriminate.
    - intros [-> H]. cbn. now rewrite H. }
  split; [|split; [exact Hn|]].
  - intros cover. rewrite Hn. split; [tauto|].
    intros ->. split; [reflexivity|]. now destruct cover.
  - intros Hno. destruct u as [| | |n| | | |]; try reflexivity.
    cbn. now rewrite (Hno n eq_refl).
Qed.

End GetterProperties.

(** * The properties of hydration *)

Section HydrationProperties.
Context {host : PluginHost}.

(** X8.  The constructor of [AccDiffData] is not atomic.  When a plugin
    slot of the weapon holds no plugin data, it throws a type error from the
    hydration of the weapon: the base and the targets are never hydrated.
    When the slots of the weapon hold data and one of the base does not, it
    throws from the hydration of the base, whose [#weapon] is already set;
    the targets are never hydrated. *)
Theorem new_AccDiffData_throws_in_hydration (W : World) (obj : AccDiffData)
    (w : AccDiffWeapon) :
  weaponHeap W !! weapon obj = Some w ->
  (allData (weapon_plugins w) = false ->
   exists W' : World,
     new_AccDiffData obj W = (Throw TypeError, W')
     /\ events W' = events W ++ [HydrateWeapon (weapon obj)]
     /\ baseHeap W' = baseHeap W /\ targetHeap W' = targetHeap W)
  /\ (forall b : AccDiffBase,
        allData (weapon_plugins w) = true ->
        baseHeap W !! base obj = Some b -> allData (base_plugins b) = false ->
        exists W' : World,
          new_AccDiffData obj W = (Throw TypeError, W')
          /\ events W' = events W ++ [HydrateWeapon (weapon obj); HydrateBase (base obj);
                                      SetBaseWeapon (base obj) (weapon obj)]
          /\ (base_weapon <$> baseHeap W' !! base obj) = Some (Some (weapon obj))
          /\ targetHeap W' = targetHeap W).
Proof.
  intros Hw. destruct obj as [ti wr br ts]. cbn [weapon base] in *.
  unfold new_AccDiffData. cbn [title weapon base targets].
  set (d := mkData ti wr br ts). split.
  - intros Hall.
    destruct (hydratePlugins_throws d None _ Hall) as (o' & Hrun).
    eexists. split.
    + apply bind_Throw. unfold AccDiffWeapon_hydrate.
      erewrite bind_Ok by reflexivity.
      erewrite bind_Ok by (apply deref_Some; cbn; exact Hw).
      cbn beta. rewrite Hrun. erewrite bind_Ok by reflexivity. reflexivity.
    + cbn. auto.
  - intros b Hwd Hb Hall.
    erewrite bind_Ok by (apply (AccDiffWeapon_hydrate_eval W wr d w); assumption).
    destruct (hydratePlugins_throws d (Some (OfBase br)) _ Hall) as (o' & Hrun).
    eexists. split.
    + apply bind_Throw. unfold AccDiffBase_hydrate.
      erewrite bind_Ok by reflexivity.
      erewrite bind_Ok by (apply deref_Some; cbn; exact Hb).
      erewrite bind_Ok by reflexivity. erewrite bind_Ok by reflexivity.
      cbn beta. rewrite Hrun. erewrite bind_Ok by reflexivity. reflexivity.
    + cbn. rewrite <- !app_assoc. split; [reflexivity|]. split; [|reflexivity].
      rewrite list_insert_insert_eq.
      rewrite list_lookup_insert_eq by (eapply lookup_lt_Some; eassumption).
      reflexivity.
Qed.

End HydrationProperties.

(** * The properties of decoding *)

Section DecodingProperties.
Context {host : PluginHost}.


(** X10.  The roll data that decoding returns hold the values of the plain
    object: its title, under [weapon] the three flags, under [base]
    accuracy, difficulty and cover, and for the targets, in their order,
    accuracy, difficulty, cover and [consumeLockOn]; the token of each target
    is a token of the scene whose id is the [target_id] of its record. *)
Theorem AccDiffData_fromObject_fields (W W' : World) (o : object) (d : AccDiffData) :
  AccDiffData_fromObject (VObj o) W = (Ok d, W') ->
  prop "title" o = VStr (title d)
  /\ (exists (wo : object) (w : AccDiffWeapon),
        prop "weapon" o = VObj wo /\ weaponHeap W' !! weapon d = Some w
        /\ prop "accurate" wo = VBool (accurate w)
        /\ prop "inaccurate" wo = VBool (inaccurate w)
        /\ prop "seeking" wo = VBool (seeking w))
  /\ (exists (bo : object) (b : AccDiffBase),
        prop "base" o = VObj bo /\ baseHeap W' !! base d = Some b
        /\ prop "accuracy" bo = VNum (base_accuracy b)
        /\ prop "difficulty" bo = VNum (base_difficulty b)
        /\ prop "cover" bo = VNum (base_cover b))
  /\ exists us : list value,
       prop "targets" o = VArr us
       /\ Forall2 (fun u t =>
            exists (uo : object) (x : AccDiffTarget) (tk : Token),
              u = VObj uo /\ targetHeap W' !! t = Some x
              /\ In (target x) (sceneTokens W') /\ tokenHeap W' !! target x = Some tk
              /\ prop "target_id" uo = VStr (token_id tk)
              /\ prop "accuracy" uo = VNum (target_accuracy x)
              /\ prop "difficulty" uo = VNum (target_difficulty x)
              /\ prop "cover" uo = VNum (target_cover x)
              /\ prop "consumeLockOn" uo = VBool (consumeLockOn x))
            us (targets d).
Proof.
  intros Hdec.
  apply AccDiffData_fromObject_Ok_inv in Hdec as (o' & p & [= <-] & Hp & _ & Hc).
  apply decodePlain_Some_inv in Hp as (Hti & Hvw & Hvb & us & Hus & Hts).
  destruct Hc as (-> & Hwh & Hbh & Hlen & _ & Hth & _ & Htok & Hscene & _).
  split; [apply t_string_inv in Hti; exact Hti|]. split; [|split].
  - destruct (AccDiffWeapon_schema_validate_plugins _ _ _ _ Hvw) as (wo & Hwo & _).
    rewrite Hwo in Hvw. apply AccDiffWeapon_schema_validate_inv in Hvw as (Ha & Hi & Hs & _).
    exists wo, (hydratedWeaponObj (dataOf W p) (d_weapon p)).
    split; [exact Hwo|]. split; [|cbn; auto].
    rewrite Hwh. cbn [weapon dataOf]. apply list_lookup_middle. reflexivity.
  - destruct (AccDiffBase_schema_validate_plugins _ _ _ _ Hvb) as (bo & Hbo & _).
    rewrite Hbo in Hvb. apply AccDiffBase_schema_validate_inv in Hvb as (Ha & Hd & Hcv & _).
    eexists bo, _. split; [exact Hbo|]. split.
    + rewrite Hbh. cbn [base dataOf]. apply list_lookup_middle. reflexivity.
    + cbn. auto.
  - exists us. split; [exact Hus|]. cbn [targets dataOf].
    apply Forall2_same_length_lookup_2.
    { rewrite length_seq. apply constructTargets_lookup in Hts.
      now apply Forall2_length in Hts. }
    intros j u t Hu Ht. apply lookup_seq in Ht as [-> Hj].
    destruct (constructTargets_at _ _ _ _ _ _ _ _ Hts Hu) as (obj & tk & Hv & Hg & Hx).
    destruct (AccDiffTarget_schema_validate_VObj _ _ _ _ Hv) as (uo & ->).
    apply AccDiffTarget_schema_validate_inv in Hv as (Hid & Ha & Hd & Hcv & Hl & _).
    destruct (tokens_get_Some _ _ _ Hg) as (tok & Htk & Hidk).
    exists uo, (hydratedTargetObj (dataOf W p) (length (targetHeap W) + j)%nat
                  (targetOf tk obj)), tok.
    split; [reflexivity|]. split; [exact (Hth j _ Hx)|]. cbn.
    split; [rewrite Hscene; now apply (tokens_get_scene _ _ _ Hg)|].
    split; [rewrite Htok; exact Htk|].
    rewrite Hidk. auto 10.
Qed.

(** X11.  Decoding builds its roll data out of fresh entities and leaves
    the others alone: the weapon, the base and the targets it returns did
    not exist before, every entity that did is as it was, and so are the
    tokens, the scene and the registry.  The totals of the roll data decoded
    before are what they were. *)
Theorem AccDiffData_fromObject_fresh (W W' : World) (u : value) (d : AccDiffData) :
  AccDiffData_fromObject u W = (Ok d, W') ->
  weaponHeap W !! weapon d = None /\ baseHeap W !! base d = None
  /\ (forall t, In t (targets d) -> targetHeap W !! t = None)
  /\ (forall (r : ref) x, weaponHeap W !! r = Some x -> weaponHeap W' !! r = Some x)
  /\ (forall (r : ref) x, baseHeap W !! r = Some x -> baseHeap W' !! r = Some x)
  /\ (forall (r : ref) x, targetHeap W !! r = Some x -> targetHeap W' !! r = Some x)
  /\ sameStatics W W'
  /\ Data_plugins W' = Data_plugins W /\ Data_targetedPlugins W' = Data_targetedPlugins W
  /\ (forall this v, AccDiffBase_total this W = (Ok v, W) ->
        AccDiffBase_total this W' = (Ok v, W'))
  /\ (forall this v, AccDiffTarget_total this W = (Ok v, W) ->
        AccDiffTarget_total this W' = (Ok v, W')).
Proof.
  intros Hdec.
  apply AccDiffData_fromObject_Ok_inv in Hdec as (o & p & _ & _ & _ & Hc).
  destruct Hc as (-> & Hwh & Hbh & Hlen & Hkeep & _ & _ & Htok & Hscene & _
                  & Hws & Hbs & Hts & Hpl & Htp).
  assert (Hw : forall r x, weaponHeap W !! r = Some x -> weaponHeap W' !! r = Some x).
  { intros r x Hr. rewrite Hwh. now apply lookup_app_l_Some. }
  assert (Hb : forall r x, baseHeap W !! r = Some x -> baseHeap W' !! r = Some x).
  { intros r x Hr. rewrite Hbh. now apply lookup_app_l_Some. }
  cbn [weapon base targets dataOf].
  split; [now apply lookup_ge_None|]. split; [now apply lookup_ge_None|].
  split.
  { intros t Ht. apply in_seq in Ht. apply lookup_ge_None. lia. }
  split; [exact Hw|]. split; [exact Hb|]. split; [exact Hkeep|].
  split; [repeat split; assumption|]. split; [exact Hpl|]. split; [exact Htp|].
  split; intros this v Hv.
  - now apply (AccDiffBase_total_kept W W').
  - now apply (AccDiffTarget_total_kept W W').
Qed.

End DecodingProperties.

(** * The properties of the factory and of the form *)

Section FactoryProperties.
Context {host : PluginHost}.

(** X12.  The roll data of [fromParams] start from the defaults: the base
    has the accuracy and the difficulty of [starting], or 0 and 0 without
    it, and no cover; there is one target for each token supplied, in their
    order, each with accuracy 0, difficulty 0, no cover and [consumeLockOn]
    set, on a token of the scene that has the id of the token supplied. *)
Theorem AccDiffData_fromParams_defaults (W W' : World) (item : option LancerItem)
    (tags : option (list TagInstance)) (supplied : option string)
    (targets0 : option (list ref)) (starting : option (number * number)) (d : AccDiffData) :
  AccDiffData_fromParams item tags supplied targets0 starting W = (Ok d, W') ->
  (exists b : AccDiffBase,
     baseHeap W' !! base d = Some b
     /\ base_accuracy b = (if starting is Some s then s.1 else 0)%float
     /\ base_difficulty b = (if starting is Some s then s.2 else 0)%float
     /\ base_cover b = Cover.value Cover.None)
  /\ Forall2 (fun r t =>
       exists (tk : Token) (x : AccDiffTarget) (tk' : Token),
         tokenHeap W !! r = Some tk /\ targetHeap W' !! t = Some x
         /\ In (target x) (sceneTokens W') /\ tokenHeap W' !! target x = Some tk'
         /\ token_id tk' = token_id tk
         /\ target_accuracy x = 0%float /\ target_difficulty x = 0%float
         /\ target_cover x = Cover.value Cover.None /\ consumeLockOn x = true)
       (default [] targets0) (targets d).
Proof.
  intros H. pose proof (AccDiffData_fromParams_length _ _ _ _ _ _ _ _ H) as Hlen.
  apply AccDiffData_fromParams_decoded in H
    as (p & ots & Hc & Hrec & Hct & Ha & Hd & Hcv & _).
  destruct Hc as (-> & _ & Hbh & _ & _ & Hth & _ & Htok & Hscene & _).
  split.
  - eexists. split.
    + rewrite Hbh. cbn [base dataOf]. apply list_lookup_middle. reflexivity.
    + cbn. auto.
  - apply Forall2_same_length_lookup_2; [now symmetry|].
    intros j r t Hr Ht. cbn [targets dataOf] in Ht. apply lookup_seq in Ht as [-> Hj].
    destruct (Forall2_lookup_l _ _ _ _ _ Hrec Hr) as (u & Hu & tk & m & Htk & _ & ->).
    destruct (constructTargets_at _ _ _ _ _ _ _ _ Hct Hu) as (obj & r' & Hv & Hg & Hx).
    apply AccDiffTarget_schema_validate_inv in Hv as (Hid & Hacc & Hdif & Hcov & Hl & _).
    injection Hid as Hid. injection Hacc as Hacc. injection Hdif as Hdif.
    injection Hcov as Hcov. injection Hl as Hl.
    destruct (tokens_get_Some _ _ _ Hg) as (tk' & Htk' & Hid').
    exists tk, (hydratedTargetObj (dataOf W p) (length (targetHeap W) + j)%nat
                  (targetOf r' obj)), tk'.
    split; [exact Htk|]. split; [exact (Hth j _ Hx)|]. cbn.
    split; [rewrite Hscene; exact (tokens_get_scene _ _ _ Hg)|].
    split; [rewrite Htok; exact Htk'|].
    split; [congruence|]. repeat split; congruence.
Qed.

(** X13.  In a registry that registration has built, whose codecs accept
    what they encode, [fromParams] returns roll data whenever the tokens
    supplied are tokens of the scene: one target for each, and the weapon,
    the base and every target hydrated, in this order. *)
Theorem AccDiffData_fromParams_returns (W : World) (item : option LancerItem)
    (tags : option (list TagInstance)) (supplied : option string)
    (targets0 : option (list ref)) (starting : option (number * number)) :
  registryOK W -> (forall p, In p (Data_plugins W) -> acceptsOwn (codec p)) ->
  (forall r, In r (default [] targets0) ->
     exists tk, tokenHeap W !! r = Some tk /\ is_Some (tokens_get (token_id tk) W)) ->
  exists (d : AccDiffData) (W' : World),
    AccDiffData_fromParams item tags supplied targets0 starting W = (Ok d, W')
    /\ length (targets d) = length (default [] targets0)
    /\ events W' = events W ++ hydrationLog d.
Proof.
  intros Hreg Hps Hscene.
  destruct (mapM_targetRecord_Ok (default [] targets0) W) as (ots & Hts & Hrec).
  { intros r Hr. destruct (Hscene r Hr) as (tk & Htk & _).
    destruct (targetDefaults_filled (Data_plugins W) tk) as (m & Hm & _).
    destruct Hreg as (_ & _ & _ & Hl). rewrite Hl. eauto. }
  pose proof (fold_rollDefaults_filled item (Data_plugins W)) as [Hf1 Hf2].
  remember (fold_left (rollDefaults item) (Data_plugins W) ([], [])) as maps eqn:Hmaps.
  pose proof Hreg as (Hws & Hbs & _ & _).
  destruct (type_validate_filled (Data_plugins W) (Weapon_pluginSchema W) _
              ["weapon"; "plugins"]
              ltac:(rewrite Hws; apply NoDup_schemaOf) ltac:(rewrite Hws; exact Hf1) Hps)
    as (a1 & Ha1 & Hall1).
  destruct (type_validate_filled (Data_plugins W) (Base_pluginSchema W) _
              ["base"; "plugins"]
              ltac:(rewrite Hbs; apply NoDup_schemaOf) ltac:(rewrite Hbs; exact Hf2) Hps)
    as (a2 & Ha2 & Hall2).
  destruct (constructTargets_records W _ ots 0 ["targets"] Hreg Hps Hrec)
    as (objs & Hct & Hobjs).
  { intros r tk Hr Htk. destruct (Hscene r Hr) as (tk' & Htk' & Hg). congruence. }
  rewrite (AccDiffData_fromParams_unfold _ _ _ _ _ _ _ Hts), <- Hmaps.
  match goal with |- context [AccDiffData_fromObject (VObj ?o) W] => set (o0 := o) end.
  assert (Hp : decodePlain W o0 =
                 Some (mkDecoded (rollTitle supplied)
                         (mkWeapon (existsb (hasLID "tg_accurate") (default [] tags))
                            (existsb (hasLID "tg_inaccurate") (default [] tags))
                            (existsb (hasLID "tg_seeking") (default [] tags)) a1)
                         (mkBaseRaw (if starting is Some s then s.1 else 0)%float
                            (if starting is Some s then s.2 else 0)%float
                            (Cover.value Cover.None) a2)
                         objs)).
  { assert (Hknown : unknownOf W o0 = []).
    { apply (built_object_known W (default [] targets0) ots); [exact Hreg|exact Hrec| |].
      - rewrite Hws. exact Hf1.
      - rewrite Hbs. exact Hf2. }
    unfold decodePlain. rewrite Hknown.
    unfold o0, AccDiffWeapon_schema_validate, AccDiffBase_schema_validate.
    cbn -[type_validate constructTargets]. rewrite Ha1, Ha2, Hct. reflexivity. }
  destruct (AccDiffData_fromObject_Ok o0 W _ Hp) as (W' & Hrun & Hc).
  { split; [exact Hall1|]. split; [exact Hall2|exact Hobjs]. }
  do 2 eexists. split; [exact Hrun|].
  destruct Hc as (_ & _ & _ & _ & _ & _ & He & _). split; [|exact He].
  cbn. rewrite length_seq. apply Forall2_length in Hrec.
  apply constructTargets_lookup, Forall2_length in Hct. congruence.
Qed.

(** X14.  In such a registry, [fromParams] on tokens one of which has an
    id that no token of the scene has throws out of the constructor of the
    target: the user is notified once, nothing is hydrated, and no roll data
    are returned. *)
Theorem AccDiffData_fromParams_token_outside_scene (W : World)
    (item : option LancerItem) (tags : option (list TagInstance))
    (supplied : option string) (targets0 : option (list ref))
    (starting : option (number * number)) (r : ref) (tk : Token) :
  registryOK W -> (forall p, In p (Data_plugins W) -> acceptsOwn (codec p)) ->
  (forall r', In r' (default [] targets0) -> is_Some (tokenHeap W !! r')) ->
  In r (default [] targets0) -> tokenHeap W !! r = Some tk ->
  tokens_get (token_id tk) W = None ->
  exists W' : World,
    AccDiffData_fromParams item tags supplied targets0 starting W
      = (Throw TokenNotFound, W')
    /\ notifications W' = notifications W ++ [tokenNotFound]
    /\ events W' = events W.
Proof.
  intros Hreg Hps Hlive Hr Htk Hnone.
  destruct (mapM_targetRecord_Ok (default [] targets0) W) as (ots & Hts & Hrec).
  { intros r' Hr'. destruct (Hlive r' Hr') as (tk' & Htk').
    destruct (targetDefaults_filled (Data_plugins W) tk') as (m & Hm & _).
    destruct Hreg as (_ & _ & _ & Hl). rewrite Hl. eauto. }
  rewrite (AccDiffData_fromParams_unfold _ _ _ _ _ _ _ Hts).
  match goal with |- context [AccDiffData_fromObject (VObj ?o) W] => set (o0 := o) end.
  assert (Hun : targetUnresolved W o0).
  { apply list_elem_of_In, list_elem_of_lookup_1 in Hr as (j & Hj).
    destruct (Forall2_lookup_l _ _ _ _ _ Hrec Hj) as (u & Hu & Hru).
    destruct (recordOf_validate W r u ["targets"; pretty j] Hreg Hps Hru)
      as (tk' & a & Htk' & Hv & _).
    exists ots, j, u, (mkTargetRaw (token_id tk') 0 0 (Cover.value Cover.None) true a).
    split; [reflexivity|]. split; [exact Hu|].
    split; [exact Hv|]. cbn. congruence. }
  assert (Hknown : unknownOf W o0 = []).
  { pose proof (fold_rollDefaults_filled item (Data_plugins W)) as [Hf1 Hf2].
    pose proof Hreg as (Hws & Hbs & _ & _).
    apply (built_object_known W (default [] targets0) ots); [exact Hreg|exact Hrec| |].
    - rewrite Hws. exact Hf1.
    - rewrite Hbs. exact Hf2. }
  destruct (AccDiffData_fromObject_cases W o0 Hknown)
    as [(vw & vb & vt & W3 & _ & Hno & _)|(_ & W' & Hrun & Hn & He)];
    [contradiction|eauto].
Qed.

(** X15.  The totals right after [fromParams], as sums of doubles taken
    from left to right.  The total of the base is the starting accuracy
    less the starting difficulty (0 less 0 without [starting]), plus one for
    an accurate weapon, less one for an inaccurate one, less 0 for the
    cover.  The total of a target is 0 less 0, plus and less the same flags,
    less 0, plus the starting accuracy, less the starting difficulty, plus
    one when the token of the scene that has the id of the token supplied
    carries a lock-on effect that the search reaches; when the search
    throws, so does the total. *)
Theorem AccDiffData_fromParams_totals (W W' : World) (item : option LancerItem)
    (tags : option (list TagInstance)) (supplied : option string)
    (targets0 : option (list ref)) (starting : option (number * number))
    (d : AccDiffData) :
  AccDiffData_fromParams item tags supplied targets0 starting W = (Ok d, W') ->
  let accurate := flag (existsb (hasLID "tg_accurate") (default [] tags)) in
  let inaccurate := flag (existsb (hasLID "tg_inaccurate") (default [] tags)) in
  let accuracy := (if starting is Some s then s.1 else 0)%float in
  let difficulty := (if starting is Some s then s.2 else 0)%float in
  AccDiffBase_total (base d) W' =
    (Ok (accuracy - difficulty + accurate - inaccurate - 0)%float, W')
  /\ Forall2 (fun r t =>
       exists (tk : Token) (r' : ref) (tk' : Token),
         tokenHeap W !! r = Some tk /\ tokens_get (token_id tk) W = Some r'
         /\ tokenHeap W !! r' = Some tk'
         /\ AccDiffTarget_total t W' =
              (match lockOnOf tk' with
               | Ok u =>
                   Ok (0 - 0 + accurate - inaccurate - 0 + accuracy - difficulty
                       + (if u is Some _ then 1 else 0))%float
               | Throw e => Throw e
               end, W'))
       (default [] targets0) (targets d).
Proof.
  intros H acc inacc accuracy difficulty.
  pose proof (AccDiffData_fromParams_length _ _ _ _ _ _ _ _ H) as Hlen.
  apply AccDiffData_fromParams_decoded in H
    as (p & ots & Hc & Hrec & Hct & Ha & Hd & Hcv & Hac & Hin & Hse).
  destruct Hc as (-> & Hwh & Hbh & _ & _ & Hth & _ & Htok & _).
  assert (Hw : weaponHeap W' !! weapon (dataOf W p)
               = Some (hydratedWeaponObj (dataOf W p) (d_weapon p))).
  { rewrite Hwh. cbn [weapon dataOf]. apply list_lookup_middle. reflexivity. }
  assert (Hb : baseHeap W' !! base (dataOf W p)
               = Some (hydratedBaseObj (dataOf W p) (base (dataOf W p))
                         (mkBase (raw_accuracy (d_base p)) (raw_difficulty (d_base p))
                            (raw_cover (d_base p)) (raw_plugins (d_base p)) None))).
  { rewrite Hbh. cbn [base dataOf]. apply list_lookup_middle. reflexivity. }
  split.
  - rewrite (AccDiffBase_total_eval _ _ _ _ _ Hb eq_refl Hw). cbn.
    rewrite Ha, Hd, Hcv, Hac, Hin. subst acc inacc accuracy difficulty.
    now destruct (seeking (d_weapon p)).
  - apply Forall2_same_length_lookup_2; [now symmetry|].
    intros j r t Hr Ht. cbn [targets dataOf] in Ht. apply lookup_seq in Ht as [-> Hj].
    destruct (Forall2_lookup_l _ _ _ _ _ Hrec Hr) as (u & Hu & tk & m & Htk & _ & ->).
    destruct (constructTargets_at _ _ _ _ _ _ _ _ Hct Hu) as (obj & r' & Hv & Hg & Hx).
    apply AccDiffTarget_schema_validate_inv in Hv as (Hid & Hacc & Hdif & Hcov & Hl & _).
    injection Hid as Hid. injection Hacc as Hacc. injection Hdif as Hdif.
    injection Hcov as Hcov. injection Hl as Hl.
    destruct (tokens_get_Some _ _ _ Hg) as (tk' & Htk' & _).
    exists tk, r', tk'. split; [exact Htk|]. split; [now rewrite Hid|].
    split; [exact Htk'|].
    rewrite (AccDiffTarget_total_eval _ _ _ _ _ _ _ tk' (Hth j _ Hx) eq_refl Hw
               eq_refl Hb); [|cbn; now rewrite Htok].
    unfold usingOf. cbn. rewrite <- Hacc, <- Hdif, <- Hl, <- Hcov, Ha, Hd, Hac, Hin.
    subst acc inacc accuracy difficulty.
    now destruct (seeking (d_weapon p)).
Qed.

(** X16.  The two flags of the view of the form count the targets: after
    [fromParams], [hasTargets] tells that more than one token was supplied
    and [hasExactlyOneTarget] that one was; they never hold together, and
    without tokens neither holds. *)
Theorem AccDiffForm_getViewModel_counts (W W' : World) (item : option LancerItem)
    (tags : option (list TagInstance)) (supplied : option string)
    (targets0 : option (list ref)) (starting : option (number * number)) (d : AccDiffData) :
  AccDiffData_fromParams item tags supplied targets0 starting W = (Ok d, W') ->
  let view := AccDiffForm_getViewModel d in
  view_data view = d
  /\ hasTargets view = (1 <? length (default [] targets0))%nat
  /\ hasExactlyOneTarget view = (length (default [] targets0) =? 1)%nat
  /\ hasTargets view && hasExactlyOneTarget view = false
  /\ (targets0 = None \/ targets0 = Some [] ->
      hasTargets view = false /\ hasExactlyOneTarget view = false).
Proof.
  intros H view. apply AccDiffData_fromParams_length in H. subst view.
  unfold AccDiffForm_getViewModel. cbn [view_data hasTargets hasExactlyOneTarget].
  rewrite H. split; [reflexivity|]. split; [reflexivity|]. split; [reflexivity|].
  split.
  - destruct (Nat.ltb_spec 1 (length (default [] targets0)));
      destruct (Nat.eqb_spec (length (default [] targets0)) 1); cbn; try reflexivity; lia.
  - intros [->| ->]; cbn; auto.
Qed.

End FactoryProperties.

(** * These properties on the examples *)

Section FurtherInstances.
#[local] Existing Instance demoHost.

(** X2 on the registration of [demoPlugin] in the empty registry. *)
Lemma AccDiffData_registerPlugin_registryOK_witness :
  registryOK registeredWorld
  /\ Forall (fun p => is_Some (perTarget p)) (Data_targetedPlugins registeredWorld).
Proof.
  destruct (AccDiffData_registerPlugin_registryOK demoPlugin sceneWorld)
    as (Hok & _ & _ & _ & Hall); [repeat split|].
  split; [exact Hok|exact Hall].
Defined.

(** X4 on the base and on the first target of [unhydratedWorld]. *)
Lemma total_before_hydrate_witness :
  AccDiffBase_total 0%nat unhydratedWorld = (Throw TypeError, unhydratedWorld)
  /\ AccDiffTarget_total 0%nat unhydratedWorld = (Throw TypeError, unhydratedWorld).
Proof.
  destruct (total_before_hydrate unhydratedWorld) as (Hb & Ht & _).
  split.
  - exact (Hb 0%nat (mkBase 1 0 (Cover.value Cover.None) [] None) eq_refl eq_refl).
  - exact (Ht 0%nat (mkTarget 0%nat 0 0 (Cover.value Cover.None) true [("inv", demoData 1 false)]
                       None None) eq_refl (or_introl eq_refl)).
Defined.

(** X5 on the target of [lockedWorld], whose token burns and is locked on. *)
Lemma AccDiffTarget_usingLockOn_spec_witness :
  AccDiffTarget_lockOnAvailable 0%nat lockedWorld
    = (Ok (Some (status "lockon")), lockedWorld)
  /\ AccDiffTarget_usingLockOn 0%nat lockedWorld
     = (Ok (Some (status "lockon")), lockedWorld).
Proof.
  destruct (AccDiffTarget_usingLockOn_spec lockedWorld 0%nat
              (mkTarget 0%nat 0 2 (Cover.value Cover.Hard) true [] (Some 0%nat) (Some 0%nat))
              (mkToken "tokA" (Some (mkActor [status "burn"; status "lockon"])))
              eq_refl eq_refl)
    as (available & Ha & Hu & Hfirst & _).
  assert (Hav : available = Ok (Some (status "lockon"))).
  { apply Hfirst. exists (mkActor [status "burn"; status "lockon"]), [status "burn"], [].
    split; [reflexivity|]. split; [reflexivity|]. split; [reflexivity|].
    constructor; [|constructor].
    exists (Some "burn"). split; [reflexivity|discriminate]. }
  cbn in Hu. subst available. split; [exact Ha|exact Hu].
Defined.

(** X6 on the number 3, which is no cover, and on [-0], which is [=== 0]. *)
Lemma coverSchema_accepts_witness :
  coverSchema (VNum 3) ["base"; "cover"] =
    inl [["base"; "cover"; "0"]; ["base"; "cover"; "1"]; ["base"; "cover"; "2"]]
  /\ coverSchema (VNum (-0)) ["base"; "cover"] = inr (-0)%float.
Proof.
  split.
  - destruct (coverSchema_accepts (VNum 3) ["base"; "cover"]) as (_ & _ & Hrej).
    apply Hrej. intros n Hn.
    assert (n = 3%float) as ->
      by exact (f_equal (fun v => match v with VNum m => m | _ => n end) (eq_sym Hn)).
    reflexivity.
  - destruct (coverSchema_accepts (VNum (-0)) ["base"; "cover"]) as (_ & Hacc & _).
    apply Hacc. split; reflexivity.
Defined.

(** X8 on the weapon of [strayWorld]. *)
Lemma new_AccDiffData_throws_in_hydration_witness :
  exists W' : World,
    new_AccDiffData (mkData "Shot" 0%nat 0%nat []) strayWorld = (Throw TypeError, W')
    /\ events W' = [HydrateWeapon 0%nat]
    /\ baseHeap W' = baseHeap strayWorld /\ targetHeap W' = [].
Proof.
  destruct (new_AccDiffData_throws_in_hydration strayWorld (mkData "Shot" 0%nat 0%nat [])
              (mkWeapon false false false [("inv", demoData 0 false); ("zzz", VNum 1)])
              eq_refl) as (Hw & _).
  exact (Hw eq_refl).
Defined.


(** X10 on the base of [shotObject]. *)
Lemma AccDiffData_fromObject_fields_witness :
  prop "title" shotObject = VStr "Shot"
  /\ exists (bo : object) (b : AccDiffBase),
       prop "base" shotObject = VObj bo /\ baseHeap decodedWorld !! 0%nat = Some b
       /\ prop "accuracy" bo = VNum (base_accuracy b)
       /\ prop "difficulty" bo = VNum (base_difficulty b)
       /\ prop "cover" bo = VNum (base_cover b).
Proof.
  destruct (AccDiffData_fromObject_fields registeredWorld decodedWorld shotObject
              (mkData "Shot" 0%nat 0%nat [0%nat; 1%nat]))
    as (Ht & _ & Hb & _); [vm_compute; reflexivity|].
  split; [exact Ht|exact Hb].
Defined.

(** X11 on the decoding of [shotObject]. *)
Lemma AccDiffData_fromObject_fresh_witness :
  weaponHeap registeredWorld !! 0%nat = None
  /\ sameStatics registeredWorld decodedWorld
  /\ Data_plugins decodedWorld = Data_plugins registeredWorld.
Proof.
  destruct (AccDiffData_fromObject_fresh registeredWorld decodedWorld (VObj shotObject)
              (mkData "Shot" 0%nat 0%nat [0%nat; 1%nat]))
    as (Hw & _ & _ & _ & _ & _ & Hs & Hp & _); [vm_compute; reflexivity|].
  split; [exact Hw|]. split; [exact Hs|exact Hp].
Defined.

(** X12 on the roll data of [shotWorld], started at [1, 0]. *)
Lemma AccDiffData_fromParams_defaults_witness :
  exists b : AccDiffBase,
    baseHeap shotWorld !! 0%nat = Some b
    /\ base_accuracy b = 1%float /\ base_difficulty b = 0%float
    /\ base_cover b = 0%float.
Proof.
  destruct (AccDiffData_fromParams_defaults registeredWorld shotWorld None
              (Some [tagged "tg_accurate"; tagged "tg_seeking"; tagged "tg_smart";
                     tagged "tg_accurate"])
              (Some "Shot") (Some [0%nat; 1%nat]) (Some (1, 0)%float)
              (mkData "Shot - Accuracy and Difficulty" 0%nat 0%nat [0%nat; 1%nat]))
    as (Hb & _); [vm_compute; reflexivity|exact Hb].
Defined.

(** X13 on the two tokens of the scene of [registeredWorld]. *)
Lemma AccDiffData_fromParams_returns_witness :
  exists (d : AccDiffData) (W' : World),
    AccDiffData_fromParams None None (Some "Shot") (Some [0%nat; 1%nat]) None
      registeredWorld = (Ok d, W')
    /\ length (targets d) = 2%nat
    /\ events W' = hydrationLog d.
Proof.
  apply (AccDiffData_fromParams_returns registeredWorld None None (Some "Shot")
           (Some [0%nat; 1%nat]) None).
  - repeat split.
  - intros p [<-|[]] x. destruct x as [n h]. eexists. reflexivity.
  - intros r [<-|[<-|[]]]; eexists; (split; [reflexivity|]); eexists; vm_compute;
      reflexivity.
Defined.

(** X14 on the third token of [registeredWorld], which the scene lacks. *)
Lemma AccDiffData_fromParams_token_outside_scene_witness :
  exists W' : World,
    AccDiffData_fromParams None None None (Some [0%nat; 2%nat]) None registeredWorld
      = (Throw TokenNotFound, W')
    /\ notifications W' = ["Trying to access tokens from a different scene!"]
    /\ events W' = [].
Proof.
  apply (AccDiffData_fromParams_token_outside_scene registeredWorld None None None
           (Some [0%nat; 2%nat]) None 2%nat (mkToken "tokC" (Some (mkActor [])))).
  - repeat split.
  - intros p [<-|[]] x. destruct x as [n h]. eexists. reflexivity.
  - intros r [<-|[<-|[]]]; eexists; reflexivity.
  - right. left. reflexivity.
  - reflexivity.
  - reflexivity.
Defined.

(** X15 on the roll data of [shotWorld]: accurate weapon, started at [1, 0]. *)
Lemma AccDiffData_fromParams_totals_witness :
  AccDiffBase_total 0%nat shotWorld = (Ok (1 - 0 + 1 - 0 - 0)%float, shotWorld).
Proof.
  destruct (AccDiffData_fromParams_totals registeredWorld shotWorld None
              (Some [tagged "tg_accurate"; tagged "tg_seeking"; tagged "tg_smart";
                     tagged "tg_accurate"])
              (Some "Shot") (Some [0%nat; 1%nat]) (Some (1, 0)%float)
              (mkData "Shot - Accuracy and Difficulty" 0%nat 0%nat [0%nat; 1%nat]))
    as (Hb & _); [vm_compute; reflexivity|exact Hb].
Defined.

(** X16 on the two targets of [shotWorld]. *)
Lemma AccDiffForm_getViewModel_counts_witness :
  hasTargets (AccDiffForm_getViewModel
                (mkData "Shot - Accuracy and Difficulty" 0%nat 0%nat [0%nat; 1%nat])) = true
  /\ hasExactlyOneTarget
       (AccDiffForm_getViewModel
          (mkData "Shot - Accuracy and Difficulty" 0%nat 0%nat [0%nat; 1%nat])) = false.
Proof.
  destruct (AccDiffForm_getViewModel_counts registeredWorld shotWorld None
              (Some [tagged "tg_accurate"; tagged "tg_seeking"; tagged "tg_smart";
                     tagged "tg_accurate"])
              (Some "Shot") (Some [0%nat; 1%nat]) (Some (1, 0)%float)
              (mkData "Shot - Accuracy and Difficulty" 0%nat 0%nat [0%nat; 1%nat]))
    as (_ & Hm & Ho & _); [vm_compute; reflexivity|].
  split; [exact Hm|exact Ho].
Defined.

End FurtherInstances.
